(** * ctags tag-output subsystem: a shallow embedding of main/entry.c and
    main/field.c and the properties of the natural-language specification.

    Part I embeds the C code: every definition carries the name of the C
    function it is translated from.  Part II states and proves the
    properties.

    Conventions of the embedding.
    - A C string ([char *], NUL-terminated) is a [cstr], the list of its
      characters before the terminating NUL; a pointer that may be NULL is
      an [option].
    - [int], [long] and [size_t] values are [Z]; where the C code relies on
      the width of a type the wrap-around is written out ([int] and
      [unsigned int] are 32 bits wide, [long] and [unsigned long] 64).
    - A [FILE *] opened for appending is the text written so far; the tag
      file that append mode re-opens for update is an array of bytes with
      a position (module [Stream]).
    - [error (FATAL, ...)] stops the program: it is the [Fatal] outcome.
      Dereferencing NULL, or passing NULL for a [%s], is [Undefined].
      [error (WARNING, ...)] is recorded in a log of the state.  [verbose]
      and [notice] only print diagnostics and are left out, as are the
      [Assert]s that a release build compiles away. *)

From Stdlib Require Import ZArith List Ascii String Lia Bool.
From Stdlib Require Import Numbers.DecimalString.
From stdpp Require Import base list.
Import ListNotations.
Local Open Scope Z_scope.

(* ###################################################################### *)
(** * Part I: the embedding *)
(* ###################################################################### *)

(** ** C strings and the pieces of <string.h> and <stdio.h> used *)

Module CStr.

(** A C string: the characters before the terminating NUL. *)
Abbreviation cstr := (list ascii).

(** A string literal of the C source. *)
Definition lit (s : string) : cstr := list_ascii_of_string s.

(** The value of a [char] read as an [unsigned char] into an [int]. *)
Definition code (c : ascii) : Z := Z.of_N (N_of_ascii c).

Definition NUL : ascii := "000"%char.
Definition TAB : ascii := "009"%char.
Definition NEWLINE : ascii := "010"%char.
Definition FORMFEED : ascii := "012"%char.
Definition CRETURN : ascii := "013"%char.
Definition DQUOTE : ascii := "034"%char.
Definition BACKSLASH : ascii := "\"%char.

(** [s[i]] for [0 <= i <= strlen s]: reading the terminator gives NUL. *)
Definition at_index (s : cstr) (i : nat) : ascii := nth i s NUL.

(** [strchr (s, c)], as the offset of the first [c] in [s]. *)
Fixpoint strchr (s : cstr) (c : ascii) : option nat :=
  match s with
  | [] => None
  | x :: s' => if Ascii.eqb x c then Some O else option_map S (strchr s' c)
  end.

Definition mem (c : ascii) (set : cstr) : bool :=
  existsb (Ascii.eqb c) set.

(** The longest prefix of characters satisfying [p], and what follows. *)
Fixpoint span (p : ascii -> bool) (s : cstr) : cstr * cstr :=
  match s with
  | [] => ([], [])
  | x :: s' =>
      if p x then let '(m, r) := span p s' in (x :: m, r) else ([], s)
  end.

(** One [%[...]] conversion of [sscanf]: the longest non-empty run of
    characters of the scanset; [None] when the first character is not in
    the set or the input is at its end. *)
Definition scanset (p : ascii -> bool) (s : cstr) : option (cstr * cstr) :=
  match span p s with
  | ([], _) => None
  | (m, r) => Some (m, r)
  end.

(** [strspn (s, accept) == strlen (s)]. *)
Definition all_in (accept : cstr) (s : cstr) : bool :=
  forallb (fun c => mem c accept) s.

Fixpoint is_prefix (t s : cstr) : bool :=
  match t, s with
  | [], _ => true
  | _ :: _, [] => false
  | a :: t', b :: s' => Ascii.eqb a b && is_prefix t' s'
  end.

(** [strstr (s, t)], as the offset of the first occurrence of [t]. *)
Fixpoint strstr (s t : cstr) : option nat :=
  if is_prefix t s then Some O
  else match s with
       | [] => None
       | _ :: s' => option_map S (strstr s' t)
       end.

(** [strcmp (a, b) == 0]. *)
Fixpoint streq (a b : cstr) : bool :=
  match a, b with
  | [], [] => true
  | x :: a', y :: b' => Ascii.eqb x y && streq a' b'
  | _, _ => false
  end.

(** [isspace] in the C locale. *)
Definition isspace (c : ascii) : bool :=
  let n := code c in (n =? 32) || ((9 <=? n) && (n <=? 13)).

(** [printf ("%ld")] and [printf ("%lu")]. *)
Definition decimal (n : Z) : cstr :=
  list_ascii_of_string (NilZero.string_of_int (Z.to_int n)).

End CStr.

(** ** The field registry (main/field.c, the [fieldObject] table) *)

Module Field.
Import CStr.

Definition fieldType := Z.
Definition langType := Z.

(** Constants of field.h and parse.h, which the code only compares. *)
Definition FIELD_UNKNOWN : fieldType := -1.
Definition LANG_IGNORE : langType := -2.
Definition NUL_FIELD_LETTER : ascii := NUL.

(** [fieldDefinition], without the renderers, the availability predicate
    and the data type, which the enable flag does not depend on. *)
Record fieldDefinition := mkDef {
  letter : ascii;
  name : option cstr;
  enabled : bool
}.

Record fieldObject := mkObj {
  def : fieldDefinition;
  fixed : bool;               (* fields which cannot be disabled *)
  nameWithPrefix : option cstr;
  language : langType;
  sibling : fieldType
}.

Definition DEFINE_FIELD (L : string) (N : option string) (V : bool)
  : fieldDefinition :=
  mkDef (match lit L with c :: _ => c | [] => NUL end) (option_map lit N) V.

Definition fieldDefinitionsFixed : list fieldDefinition :=
  [ DEFINE_FIELD "N" (Some "name"%string) true;
    DEFINE_FIELD "F" (Some "input"%string) true;
    DEFINE_FIELD "P" (Some "pattern"%string) true ].

Definition fieldDefinitionsExuberant : list fieldDefinition :=
  [ DEFINE_FIELD "C" (Some "compact"%string) false;
    DEFINE_FIELD "a" (Some "access"%string) false;
    DEFINE_FIELD "f" (Some "file"%string) true;
    DEFINE_FIELD "i" (Some "inherits"%string) false;
    DEFINE_FIELD "K" None false;
    DEFINE_FIELD "k" None true;
    DEFINE_FIELD "l" (Some "language"%string) false;
    DEFINE_FIELD "m" (Some "implementation"%string) false;
    DEFINE_FIELD "n" (Some "line"%string) false;
    DEFINE_FIELD "S" (Some "signature"%string) false;
    DEFINE_FIELD "s" None true;
    DEFINE_FIELD "t" (Some "typeref"%string) true;
    DEFINE_FIELD "z" (Some "kind"%string) false ].

Definition fieldDefinitionsUniversal : list fieldDefinition :=
  [ DEFINE_FIELD "r" (Some "role"%string) false;
    DEFINE_FIELD "R" None false;
    DEFINE_FIELD "Z" (Some "scope"%string) false;
    DEFINE_FIELD "E" (Some "extras"%string) false;
    DEFINE_FIELD "x" (Some "xpath"%string) false;
    DEFINE_FIELD "p" (Some "scopeKind"%string) false;
    DEFINE_FIELD "e" (Some "end"%string) false ].

(** The process-wide registry: [fieldObjects] (its used part, so that
    [fieldObjectUsed] is the length) and the warnings printed so far. *)
Record registry := mkRegistry {
  fieldObjects : list fieldObject;
  warnings : list cstr
}.

Definition fieldObjectUsed (r : registry) : Z :=
  Z.of_nat (length (fieldObjects r)).

(** [initFieldObjects]; [prefix] is the macro CTAGS_FIELD_PREFIX. *)
Definition initFieldObjects (prefix : cstr) : registry :=
  mkRegistry
    (map (fun d => mkObj d true (name d) LANG_IGNORE FIELD_UNKNOWN)
         fieldDefinitionsFixed
     ++ map (fun d => mkObj d false (name d) LANG_IGNORE FIELD_UNKNOWN)
         fieldDefinitionsExuberant
     ++ map (fun d => mkObj d false (option_map (app prefix) (name d))
                        LANG_IGNORE FIELD_UNKNOWN)
         fieldDefinitionsUniversal)
    [].

(** [getFieldObject]: [fieldObjects + type].  Outside
    [0 <= type < fieldObjectUsed] the C code reads past the array; the
    model has no object there. *)
Definition getFieldObject (r : registry) (type : fieldType)
  : option fieldObject :=
  if type <? 0 then None else fieldObjects r !! Z.to_nat type.

Definition isFieldEnabled (r : registry) (type : fieldType) : option bool :=
  option_map (fun o => enabled (def o)) (getFieldObject r type).

Definition isFieldFixed (r : registry) (type : fieldType) : option bool :=
  option_map fixed (getFieldObject r type).

Definition set_enabled (state : bool) (o : fieldObject) : fieldObject :=
  mkObj (mkDef (letter (def o)) (name (def o)) state)
        (fixed o) (nameWithPrefix o) (language o) (sibling o).

Definition set_sibling (s : fieldType) (o : fieldObject) : fieldObject :=
  mkObj (def o) (fixed o) (nameWithPrefix o) (language o) s.

(** The text of the warning of [enableField]; [None] on the branch that
    ends in [AssertNotReached] and prints nothing. *)
Definition fixedFieldWarning (d : fieldDefinition) : option cstr :=
  let hasLetter := negb (Ascii.eqb (letter d) NUL_FIELD_LETTER) in
  match name d with
  | Some n =>
      if hasLetter
      then Some (lit "Cannot disable fixed field: '" ++ [letter d]
                 ++ lit "'{" ++ n ++ lit "}")
      else Some (lit "Cannot disable fixed field: {" ++ n ++ lit "}")
  | None =>
      if hasLetter
      then Some (lit "Cannot disable fixed field: '" ++ [letter d]
                 ++ lit "'")
      else None
  end.

Definition warn (msg : option cstr) (r : registry) : registry :=
  match msg with
  | Some m => mkRegistry (fieldObjects r) (warnings r ++ [m])
  | None => r
  end.

(** [enableField]: the result is [old] and the registry after the call. *)
Definition enableField (type : fieldType) (state warnIfFixedField : bool)
  (r : registry) : option (bool * registry) :=
  match getFieldObject r type with
  | None => None
  | Some fobj =>
      let old := enabled (def fobj) in
      if fixed fobj then
        if negb state && warnIfFixedField
        then Some (old, warn (fixedFieldWarning (def fobj)) r)
        else Some (old, r)
      else
        Some (old,
              mkRegistry
                (<[Z.to_nat type := set_enabled state fobj]> (fieldObjects r))
                (warnings r))
  end.

Definition same_name (a b : option cstr) : bool :=
  match a, b with
  | Some x, Some y => streq x y
  | _, _ => false
  end.

(** The loop of [updateSiblingField]: [i] runs from [type] down to 1 and
    looks at the object [i - 1]. *)
Fixpoint updateSiblingField_loop (i : nat) (type : fieldType)
  (nm : cstr) (objs : list fieldObject) : list fieldObject :=
  match i with
  | O => objs
  | S j =>
      match objs !! j with
      | Some fobj =>
          if same_name (name (def fobj)) (Some nm)
          then <[j := set_sibling type fobj]> objs
          else updateSiblingField_loop j type nm objs
      | None => updateSiblingField_loop j type nm objs
      end
  end.

Definition updateSiblingField (type : fieldType) (nm : cstr)
  (objs : list fieldObject) : list fieldObject :=
  updateSiblingField_loop (Z.to_nat type) type nm objs.

(** [defineField]: a parser registers a field of its own.  The definition
    must have a name ([strlen (def->name)] is taken). *)
Definition defineField (prefix : cstr) (d : fieldDefinition)
  (lang : langType) (r : registry) : option (fieldType * registry) :=
  match name d with
  | None => None
  | Some nm =>
      let ftype := fieldObjectUsed r in
      let d' := mkDef NUL_FIELD_LETTER (name d) (enabled d) in
      let fobj := mkObj d' false (Some (prefix ++ nm)) lang FIELD_UNKNOWN in
      Some (ftype,
            mkRegistry
              (updateSiblingField ftype nm (fieldObjects r ++ [fobj]))
              (warnings r))
  end.

Definition LANG_AUTO : langType := -1.

Definition countFields (r : registry) : Z := fieldObjectUsed r.

(** [nextSiblingField]: [fieldObjects + type] is read without a test. *)
Definition nextSiblingField (r : registry) (type : fieldType)
  : option fieldType :=
  option_map sibling (getFieldObject r type).

Definition getFieldOwner (r : registry) (type : fieldType)
  : option langType :=
  option_map language (getFieldObject r type).

(** [getFieldName]; [putFieldPrefix] is the option of that name. *)
Definition getFieldName (putFieldPrefix : bool) (r : registry)
  (type : fieldType) : option (option cstr) :=
  option_map (fun o => if putFieldPrefix then nameWithPrefix o
                       else name (def o))
             (getFieldObject r type).

(** The loops [for (i = 0; i < fieldObjectUsed; i++) if (...) return i;]
    that end in [return FIELD_UNKNOWN]. *)
Fixpoint first_field (p : fieldObject -> bool) (objs : list fieldObject)
  (i : fieldType) : fieldType :=
  match objs with
  | [] => FIELD_UNKNOWN
  | o :: rest => if p o then i else first_field p rest (i + 1)
  end.

(** [getFieldTypeForOption].  The letters of the tables are ASCII, so
    that the comparison of the [unsigned char] of the definition with the
    [char] handed in is the equality of the characters. *)
Definition getFieldTypeForOption (r : registry) (c : ascii) : fieldType :=
  first_field (fun o => Ascii.eqb (letter (def o)) c) (fieldObjects r) 0.

Section Lookup.

(** [initializeParser] of parse.c, which may define fields. *)
Variable initializeParser : langType -> registry -> registry.

(** [getFieldTypeForNameAndLanguage]; [initialized] is its static flag.
    The result is the field type, the flag and the registry after the
    call. *)
Definition getFieldTypeForNameAndLanguage (fieldName : option cstr)
  (lang : langType) (initialized : bool) (r : registry)
  : fieldType * bool * registry :=
  match fieldName with
  | None => (FIELD_UNKNOWN, initialized, r)
  | Some nm =>
      let '(initialized', r') :=
        if (lang =? LANG_AUTO) && negb initialized
        then (true, initializeParser LANG_AUTO r)
        else if negb (lang =? LANG_IGNORE) && negb initialized
        then (initialized, initializeParser lang r)
        else (initialized, r) in
      (first_field
         (fun o => same_name (name (def o)) (Some nm)
                   && ((lang =? LANG_AUTO) || (language o =? lang)))
         (fieldObjects r') 0,
       initialized', r')
  end.

Definition getFieldTypeForName (fieldName : option cstr)
  (initialized : bool) (r : registry) : fieldType * bool * registry :=
  getFieldTypeForNameAndLanguage fieldName LANG_IGNORE initialized r.

End Lookup.

End Field.

(** ** The options the tag writer reads (the [Option] structure) *)

Module Options.
Import CStr.

(** [sortType] of options.h: an enumeration in this order, so that the
    integer values are 0, 1 and 2. *)
Inductive sortType := SO_UNSORTED | SO_SORTED | SO_FOLDSORTED.

Definition sortType_int (s : sortType) : Z :=
  match s with SO_UNSORTED => 0 | SO_SORTED => 1 | SO_FOLDSORTED => 2 end.

Record options := mkOptions {
  tagFileFormat : Z;           (* 1 or 2 *)
  sorted : sortType;
  etags : bool;
  xref : bool;
  append : bool;
  backward : bool;             (* search backwards: the delimiter is ? *)
  patternLengthLimit : Z;      (* unsigned *)
  lineDirectives : bool;
  putFieldPrefix : bool;
  fatalWarnings : bool;
  customXfmt : option cstr
}.

(** The flag of the TAG_FILE_SORTED pseudo-tag: the conditional expression
    of [addPseudoTags] and of [updateSortedFlag]. *)
Definition sortedFlag (s : sortType) : ascii :=
  match s with
  | SO_FOLDSORTED => "2"
  | SO_SORTED => "1"
  | SO_UNSORTED => "0"
  end%char.

End Options.

(** ** Recognising an existing tag file (isTagFile and openTagFile) *)

Module TagFileCheck.
Import CStr Options.

Definition notTab (c : ascii) : bool := negb (Ascii.eqb c TAB).
Definition isTab (c : ascii) : bool := Ascii.eqb c TAB.
Definition notEol (c : ascii) : bool :=
  negb (Ascii.eqb c CRETURN || Ascii.eqb c NEWLINE).
Definition notSemiOrNewline (c : ascii) : bool :=
  negb (Ascii.eqb c ";" || Ascii.eqb c NEWLINE).

(** [sscanf] with a format made of [%[...]] conversions only: the fields
    assigned, in order; scanning stops at the first conversion that
    fails. *)
Fixpoint scan_fields (sets : list (ascii -> bool)) (s : cstr) : list cstr :=
  match sets with
  | [] => []
  | p :: sets' =>
      match scanset p s with
      | None => []
      | Some (m, r) => m :: scan_fields sets' r
      end
  end.

(** The value [sscanf] returns: the number of fields assigned, or EOF when
    the input is empty before the first conversion. *)
Definition sscanf_result (s : cstr) (fields : list cstr) : Z :=
  match s with
  | [] => -1
  | _ => Z.of_nat (length fields)
  end.

(** [isValidTagAddress]. [strchr ("/?", excmd [0])] also finds the
    terminator of ["/?"] when [excmd] is empty. *)
Definition isValidTagAddress (excmd : cstr) : bool :=
  match excmd with
  | [] => true
  | c :: _ =>
      if mem c (lit "/?") then true
      else
        let fields := scan_fields [notSemiOrNewline] excmd in
        match fields with
        | [address] =>
            (sscanf_result excmd fields =? 1)
            && all_in (lit "0123456789") address
        | _ => false
        end
  end.

Definition NUM_FIELDS : Z := 5.

(** [isCtagsLine]: the format is ["%[^\t]%[\t]%[^\t]%[\t]%[^\r\n]"]. *)
Definition isCtagsLine (line : cstr) : bool :=
  let fields := scan_fields [notTab; isTab; notTab; isTab; notEol] line in
  let numFields := sscanf_result line fields in
  match fields with
  | [TAG; TAB1; SRC_FILE; TAB2; EXCMD] =>
      (numFields =? NUM_FIELDS)
      && (length TAB1 =? 1)%nat
      && (length TAB2 =? 1)%nat
      && negb (Ascii.eqb (at_index TAG 0) "#")
      && negb (Ascii.eqb (at_index SRC_FILE (length SRC_FILE - 1)) ";")
      && isValidTagAddress EXCMD
  | _ => false
  end.

Definition isEtagsLine (line : cstr) : bool :=
  if Ascii.eqb (at_index line 0) FORMFEED
  then Ascii.eqb (at_index line 1) NEWLINE
       || Ascii.eqb (at_index line 1) CRETURN
  else false.

(** What [fopen (filename, "rb")] followed by the first [readLineRaw]
    gives. *)
Inductive fopen_rb :=
| NoEntry                          (* NULL with errno == ENOENT *)
| OpenFailed                       (* NULL with another errno *)
| Opened (firstLine : option cstr). (* [None]: nothing to read *)

Definition isTagFile (f : fopen_rb) : bool :=
  match f with
  | NoEntry => true
  | OpenFailed => false           (* ok stays FALSE *)
  | Opened None => true
  | Opened (Some line) => isCtagsLine line || isEtagsLine line
  end.

(** The destination as [openTagFile] sees it. *)
Record destination := mkDestination {
  toStdout : bool;                 (* isDestinationStdout () *)
  fileExists : bool;               (* doesFileExist (TagFile.name) *)
  forReading : fopen_rb;           (* the fopen of isTagFile *)
  forWriting : bool;               (* the fopen that yields TagFile.fp *)
  pseudoTags : bool                (* isXtagEnabled (XTAG_PSEUDO_TAGS) *)
}.

(** How the tag file ends up opened. *)
Inductive opened :=
| TempFile (withPseudoTags : bool)      (* tempFile ("w+") *)
| EtagsAppend                           (* "a+b" *)
| EtagsCreate                           (* "w+b" *)
| AppendAfterUpdate                     (* "r+", updatePseudoTags, "a+" *)
| Create (withPseudoTags : bool).       (* "w" *)

Inductive openResult :=
| Refused          (* FATAL: doesn't look like a tag file; I refuse ... *)
| CannotOpen       (* FATAL | PERROR: cannot open tag file *)
| OpenedAs (how : opened).

Definition openTagFile (opt : options) (d : destination) : openResult :=
  if toStdout d then OpenedAs (TempFile (pseudoTags d))
  else if fileExists d && negb (isTagFile (forReading d)) then Refused
  else if negb (forWriting d) then CannotOpen
  else if etags opt then
    if append opt && fileExists d then OpenedAs EtagsAppend
    else OpenedAs EtagsCreate
  else
    if append opt && fileExists d then OpenedAs AppendAfterUpdate
    else OpenedAs (Create (pseudoTags d)).

End TagFileCheck.

(** ** The tag file re-opened for update ("r+"), and the sorted flag *)

Module Stream.
Import CStr Options.

(** A stream on a file: its bytes, the position, and whether positions can
    be read and set ([fgetpos] and [fsetpos] both fail otherwise). *)
Record FILE := mkFILE {
  bytes : cstr;
  pos : nat;
  seekable : bool
}.

Definition EOF : Z := -1.

Definition set_pos (p : nat) (f : FILE) : FILE :=
  mkFILE (bytes f) p (seekable f).

Definition fgetc (f : FILE) : Z * FILE :=
  match bytes f !! pos f with
  | Some c => (code c, set_pos (S (pos f)) f)
  | None => (EOF, f)
  end.

(** [fputc] on a stream open for update: it overwrites the byte at the
    position, or extends the file when the position is its end. *)
Definition fputc (c : ascii) (f : FILE) : FILE :=
  if (pos f <? length (bytes f))%nat
  then mkFILE (<[pos f := c]> (bytes f)) (S (pos f)) (seekable f)
  else mkFILE (bytes f ++ [c]) (S (length (bytes f))) (seekable f).

(** The loop [do c = fgetc (fp); while (c != '\t' && c != '\n');] over the
    bytes from the position on.  At the end of the file [fgetc] returns
    EOF for ever and the loop does not end: that is [None]. *)
Fixpoint skip_loop (rest : cstr) (p : nat) : option (Z * nat) :=
  match rest with
  | [] => None
  | ch :: rest' =>
      if (code ch =? code TAB) || (code ch =? code NEWLINE)
      then Some (code ch, S p)
      else skip_loop rest' (S p)
  end.

Definition skipToTabOrNewline (f : FILE) : option (Z * FILE) :=
  match skip_loop (drop (pos f) (bytes f)) (pos f) with
  | Some (c, p) => Some (c, set_pos p f)
  | None => None
  end.

Definition isFlag01 (c : Z) : bool := (c =? code "0") || (c =? code "1").

Definition sortedWarning : cstr := lit "Failed to update 'sorted' pseudo-tag".

(** [updateSortedFlag (line, fp, startOfLine)]: the stream after the call
    and the warnings printed; [None] when the call does not return. *)
Definition updateSortedFlag (sorted : sortType) (line : cstr) (fp : FILE)
  (startOfLine : nat) : option (FILE * list cstr) :=
  match strchr line TAB with
  | None => Some (fp, [])
  | Some tab =>
      let boolOffset := S tab in                  (* where it should be *)
      if isFlag01 (code (at_index line boolOffset)) then
        if negb (seekable fp) then Some (fp, [sortedWarning])
        else
          let nextLine := pos fp in
          match skipToTabOrNewline (set_pos startOfLine fp) with
          | None => None
          | Some (c, fp1) =>
              let flagLocation := pos fp1 in
              let '(d, fp2) := fgetc fp1 in
              let fp3 :=
                if (c =? code TAB) && isFlag01 d
                   && negb (d =? sortType_int sorted)
                then fputc (sortedFlag sorted) (set_pos flagLocation fp2)
                else fp2 in
              Some (set_pos nextLine fp3, [])
          end
      else Some (fp, [])
  end.

(** [sscanf (s, "%15s%c", classType, &tab) == 2], with what was assigned:
    white space is skipped, at most 15 characters that are not white space
    go to [classType], and the character after them goes to [tab]. *)
Definition scan_word15_char (s : cstr) : option (cstr * ascii) :=
  let '(_, s1) := span isspace s in
  let '(w, _) := span (fun c => negb (isspace c)) s1 in
  let word := take 15 w in
  match word, drop (length word) s1 with
  | _ :: _, c :: _ => Some (word, c)
  | _, _ => None
  end.

Definition PSEUDO_TAG_PREFIX : cstr := lit "!_".

(** [sprintf (entry, "%sTAG_FILE", PSEUDO_TAG_PREFIX)]. *)
Definition entry : cstr := PSEUDO_TAG_PREFIX ++ lit "TAG_FILE".

Section PseudoTags.

(** [readLineRaw] is a function of read.c: the next line of the stream and
    the position after it, or NULL at the end of the stream.  It reads
    only, so that it is taken as a function of the stream. *)
Variable readLineRaw : FILE -> option (cstr * nat).

Variable sorted : sortType.

Definition read_line (fp : FILE) : option cstr * FILE :=
  match readLineRaw fp with
  | Some (l, p) => (Some l, set_pos p fp)
  | None => (None, fp)
  end.

(** The second loop, [while (line != NULL)], that skips to the end of the
    file; [linesRead] is an [unsigned long], which does not wrap on the
    lines of a file. *)
Fixpoint skip_to_end (fuel : nat) (line : option cstr) (fp : FILE)
  (linesRead : Z) : option (Z * FILE) :=
  match line with
  | None => Some (linesRead, fp)
  | Some _ =>
      match fuel with
      | O => None
      | S fuel' =>
          let '(line', fp') := read_line fp in
          skip_to_end fuel' line' fp' (linesRead + 1)
      end
  end.

(** The body of [if (strncmp (line, entry, entryLength) == 0)] up to the
    call of [fgetpos]. *)
Definition update_line (line : cstr) (fp : FILE) (startOfLine : nat)
  : option (FILE * list cstr) :=
  match scan_word15_char (drop (length entry) line) with
  | Some (classType, tab) =>
      if Ascii.eqb tab TAB && streq classType (lit "_SORTED")
      then updateSortedFlag sorted line fp startOfLine
      else Some (fp, [])
  | None => Some (fp, [])
  end.

(** The first loop, over the lines that begin like [entry]; [startOfLine]
    is set by [fgetpos] before the loop and after each line that begins
    with [entry], and only there. *)
Fixpoint pseudo_loop (fuel : nat) (line : option cstr) (fp : FILE)
  (startOfLine : nat) (linesRead : Z) (ws : list cstr)
  : option (Z * FILE * list cstr) :=
  match line with
  | None => Some (linesRead, fp, ws)
  | Some l =>
      if Ascii.eqb (at_index l 0) (at_index entry 0) then
        match fuel with
        | O => None
        | S fuel' =>
            r ← (if is_prefix entry l
                 then '(fp1, w) ← update_line l fp startOfLine;
                      Some (fp1, pos fp1, w)
                 else Some (fp, startOfLine, []));
            let '(fp1, startOfLine1, w) := r in
            let '(line', fp2) := read_line fp1 in
            pseudo_loop fuel' line' fp2 startOfLine1 (linesRead + 1) (ws ++ w)
        end
      else
        '(n, fp') ← skip_to_end fuel line fp linesRead;
        Some (n, fp', ws)
  end.

(** [updatePseudoTags (fp)]: the number of lines read, the stream after
    the call and the warnings printed; [None] when the call does not
    return within [fuel] lines. *)
Definition updatePseudoTags (fuel : nat) (fp : FILE)
  : option (Z * FILE * list cstr) :=
  let startOfLine := pos fp in
  let '(line, fp1) := read_line fp in
  pseudo_loop fuel line fp1 startOfLine 0 [].

End PseudoTags.

End Stream.

(** ** Copying a file *)

Module Copy.
Import CStr Stream.

Definition BufferSize : Z := 1000.

(** [fread (buffer, 1, toRead, fromFp)], reading being taken to succeed:
    the bytes read, which are fewer than [toRead] at the end of the file
    only, and the stream after them. *)
Definition fread (toRead : Z) (f : FILE) : cstr * FILE :=
  let buffer := take (Z.to_nat toRead) (drop (pos f) (bytes f)) in
  (buffer, set_pos (pos f + length buffer) f).

(** The [do ... while] loop of [copyBytes]; [toFp] is what has been
    written to the destination, every [fwrite] being taken to succeed.
    [None] when the loop goes on after [fuel] rounds. *)
Fixpoint copyBytes_loop (fuel : nat) (fromFp : FILE) (toFp : cstr)
  (remaining : Z) : option (FILE * cstr) :=
  match fuel with
  | O => None
  | S fuel' =>
      let toRead :=
        if (0 <? remaining) && (remaining <? BufferSize) then remaining
        else BufferSize in
      let '(buffer, fromFp) := fread toRead fromFp in
      let numRead := Z.of_nat (length buffer) in
      let toFp := toFp ++ buffer in
      let remaining :=
        if remaining >? 0 then remaining - numRead else remaining in
      if (numRead =? toRead) && negb (remaining =? 0)
      then copyBytes_loop fuel' fromFp toFp remaining
      else Some (fromFp, toFp)
  end.

Definition copyBytes (fuel : nat) (fromFp : FILE) (toFp : cstr) (size : Z)
  : option (FILE * cstr) :=
  copyBytes_loop fuel fromFp toFp size.

End Copy.


(** ** Outcomes of the operations of entry.c *)

Module Outcome.
Import CStr.

Inductive result (A : Type) : Type :=
| Ok (a : A)
| Fatal (msg : cstr)     (* error (FATAL, ...): the program stops *)
| Undefined              (* a NULL pointer is read, or printed with %s *)
| Diverges.              (* a loop that does not end *)

Arguments Ok {A} a.
Arguments Fatal {A} msg.
Arguments Undefined {A}.
Arguments Diverges {A}.

Definition bind {A B : Type} (m : result A) (k : A -> result B) : result B :=
  match m with
  | Ok a => k a
  | Fatal msg => Fatal msg
  | Undefined => Undefined
  | Diverges => Diverges
  end.

#[global] Instance result_ret : MRet result := fun A a => Ok a.
#[global] Instance result_bind : MBind result :=
  fun A B k m => bind m k.
#[global] Instance result_fmap : FMap result :=
  fun A B f m => bind m (fun a => Ok (f a)).

(** A [char *] handed to a [%s]: NULL is not a string. *)
Definition str_arg (s : option cstr) : result cstr :=
  match s with
  | Some x => Ok x
  | None => Undefined
  end.

Definition is_ok {A : Type} (m : result A) : bool :=
  match m with Ok _ => true | _ => false end.

End Outcome.

(** ** Tag entries, kinds, and the field descriptors entry.c reads
       (entry.h, kind.h and the [fieldDescs] table of field.c) *)

Module Entry.
Import CStr Options Outcome.

Record roleDesc := mkRole {
  role_enabled : bool;
  role_name : cstr;
  role_description : cstr
}.

(** [kindOption]; [nRoles] is the length of [roles]. *)
Record kindOption := mkKind {
  kind_enabled : bool;
  kind_letter : ascii;
  kind_name : option cstr;
  kind_description : option cstr;
  referenceOnly : bool;
  roles : list roleDesc
}.

(** [renderRole] of kind.c, on the buffer that [renderFieldEscaped] has
    just emptied. *)
Definition renderRole (role : roleDesc) : cstr := role_name role.

Definition SCOPE_NIL : Z := 0.
Definition ROLE_INDEX_DEFINITION : Z := 0.

Record extensionFieldsT := mkExt {
  access : option cstr;
  fileScope : option cstr;
  implementation : option cstr;
  inheritance : option cstr;
  scopeKind : option kindOption;
  scopeName : option cstr;
  signature : option cstr;
  typeRef0 : option cstr;          (* typeRef [0] *)
  typeRef1 : option cstr;          (* typeRef [1] *)
  scopeIndex : Z;                  (* int *)
  roleIndex : Z                    (* int *)
}.

(** [tagEntryInfo].  [name] and [inputFileName] are strings of every tag
    that is written or queued (they are duplicated unconditionally). *)
Record tagEntryInfo := mkTag {
  lineNumberEntry : bool;
  isFileScope : bool;
  isFileEntry : bool;
  truncateLine : bool;
  placeholder : bool;
  lineNumber : Z;                  (* unsigned long *)
  pattern : option cstr;
  language : option cstr;
  filePosition : Z;                (* fpos_t *)
  inputFileName : cstr;
  name : cstr;
  kind : option kindOption;
  extensionFields : extensionFieldsT;
  sourceLanguage : option cstr;
  sourceFileName : option cstr;
  sourceLineNumberDifference : Z   (* long *)
}.

Definition set_pattern (p : option cstr) (t : tagEntryInfo) : tagEntryInfo :=
  mkTag (lineNumberEntry t) (isFileScope t) (isFileEntry t) (truncateLine t)
        (placeholder t) (lineNumber t) p (language t) (filePosition t)
        (inputFileName t) (name t) (kind t) (extensionFields t)
        (sourceLanguage t) (sourceFileName t) (sourceLineNumberDifference t).

(** The slot that [memset] fills with zeros (its NULL strings, which are
    never read, are written as empty strings). *)
Definition zeroTag : tagEntryInfo :=
  mkTag false false false false false 0 None None 0 [] [] None
        (mkExt None None None None None None None None None 0 0)
        None None 0.

(** [fieldType]: the index of a descriptor in [fieldDescs]. *)
Inductive fieldType :=
| FIELD_NAME | FIELD_INPUT_FILE | FIELD_PATTERN | FIELD_COMPACT_INPUT_LINE
| FIELD_ACCESS | FIELD_FILE_SCOPE | FIELD_INHERITANCE | FIELD_KIND_LONG
| FIELD_KIND | FIELD_LANGUAGE | FIELD_IMPLEMENTATION | FIELD_LINE_NUMBER
| FIELD_ROLE | FIELD_REF_MARK | FIELD_SIGNATURE | FIELD_SCOPE
| FIELD_TYPE_REF | FIELD_KIND_KEY | FIELD_SCOPE_KEY.

(** A descriptor of [fieldDescs]: its letter, its name, whether it is
    enabled at start-up, and whether its name takes the prefix. *)
Record fieldDesc := mkDesc {
  fd_letter : ascii;
  fd_name : option string;
  fd_enabled : bool;
  fd_basic : bool;
  fd_prefixed : bool
}.

Definition DEFINE_BASIC_FIELD (L : ascii) (N : string) (V : bool) :=
  mkDesc L (Some N) V true false.
Definition DEFINE_FIELD (L : ascii) (N : option string) (V : bool) :=
  mkDesc L N V false false.
Definition DEFINE_FIELD_UCTAGS (L : ascii) (N : string) (V : bool) :=
  mkDesc L (Some N) V false true.
Definition DEFINE_FIELD_UCTAGS_NONAME (L : ascii) (V : bool) :=
  mkDesc L None V false false.

Definition fieldDescs (t : fieldType) : fieldDesc :=
  match t with
  | FIELD_NAME => DEFINE_BASIC_FIELD "N" "name" true
  | FIELD_INPUT_FILE => DEFINE_BASIC_FIELD "F" "input" true
  | FIELD_PATTERN => DEFINE_BASIC_FIELD "P" "pattern" true
  | FIELD_COMPACT_INPUT_LINE => DEFINE_FIELD "C" (Some "compact"%string) false
  | FIELD_ACCESS => DEFINE_FIELD "a" (Some "access"%string) false
  | FIELD_FILE_SCOPE => DEFINE_FIELD "f" (Some "file"%string) true
  | FIELD_INHERITANCE => DEFINE_FIELD "i" (Some "inherits"%string) false
  | FIELD_KIND_LONG => DEFINE_FIELD "K" None false
  | FIELD_KIND => DEFINE_FIELD "k" None true
  | FIELD_LANGUAGE => DEFINE_FIELD "l" (Some "language"%string) false
  | FIELD_IMPLEMENTATION => DEFINE_FIELD "m" (Some "implementation"%string) false
  | FIELD_LINE_NUMBER => DEFINE_FIELD "n" (Some "line"%string) false
  | FIELD_ROLE => DEFINE_FIELD_UCTAGS "r" "role" false
  | FIELD_REF_MARK => DEFINE_FIELD_UCTAGS_NONAME "R" false
  | FIELD_SIGNATURE => DEFINE_FIELD "S" (Some "signature"%string) false
  | FIELD_SCOPE => DEFINE_FIELD "s" None true
  | FIELD_TYPE_REF => DEFINE_FIELD "t" (Some "typeref"%string) true
  | FIELD_KIND_KEY => DEFINE_FIELD "z" (Some "kind"%string) false
  | FIELD_SCOPE_KEY => DEFINE_FIELD_UCTAGS "Z" "scope" false
  end.

(** What the tag writer takes from the rest of the program: the options,
    the current [enabled] flags of the descriptors, the macro
    CTAGS_FIELD_PREFIX, the input file behind [readLineFromBypass], the
    queries on the input language, the formatter of the xref output, and
    the non-negative value [fputs] returns. *)
Record env := mkEnv {
  opts : options;
  fieldEnabled : fieldType -> bool;
  CTAGS_FIELD_PREFIX : cstr;
  readLineFromBypass : Z -> option (cstr * Z);
  readLineFromBypassSlow : Z -> cstr -> option (cstr * Z);
  doesInputLanguageAllowNullTag : bool;
  getInputFileName : cstr;
  fmtPrint : cstr -> tagEntryInfo -> cstr;
  fputs_result : Z
}.

(** [getFieldName]. *)
Definition getFieldName (e : env) (t : fieldType) : option cstr :=
  match fd_name (fieldDescs t) with
  | None => None
  | Some n =>
      if putFieldPrefix (opts e) && fd_prefixed (fieldDescs t)
      then Some (CTAGS_FIELD_PREFIX e ++ lit n)
      else Some (lit n)
  end.

(** The global [TagFile], the two static variables of
    [makePatternStringCommon], and the warnings printed. *)
Record tagFile := mkTagFile {
  fp : cstr;                       (* what has been written to the file *)
  numTags_added : Z;
  max_tag : Z;
  max_line : Z;
  etags_fp : cstr;                 (* the etags side file *)
  etags_byteCount : Z;
  cork : Z;
  corkQueue_queue : list tagEntryInfo;
  corkQueue_length : Z;            (* unsigned int *)
  corkQueue_count : Z;             (* unsigned int *)
  patternCacheValid : bool;
  cached_pattern : cstr;
  cached_location : Z;
  warnings : list cstr
}.

Definition with_fp (x : cstr) (s : tagFile) : tagFile :=
  mkTagFile x (numTags_added s) (max_tag s) (max_line s) (etags_fp s)
    (etags_byteCount s) (cork s) (corkQueue_queue s) (corkQueue_length s)
    (corkQueue_count s) (patternCacheValid s) (cached_pattern s)
    (cached_location s) (warnings s).

Definition with_stats (added mtag mline : Z) (s : tagFile) : tagFile :=
  mkTagFile (fp s) added mtag mline (etags_fp s)
    (etags_byteCount s) (cork s) (corkQueue_queue s) (corkQueue_length s)
    (corkQueue_count s) (patternCacheValid s) (cached_pattern s)
    (cached_location s) (warnings s).

Definition with_etags (x : cstr) (n : Z) (s : tagFile) : tagFile :=
  mkTagFile (fp s) (numTags_added s) (max_tag s) (max_line s) x n
    (cork s) (corkQueue_queue s) (corkQueue_length s)
    (corkQueue_count s) (patternCacheValid s) (cached_pattern s)
    (cached_location s) (warnings s).

Definition with_cork (n : Z) (s : tagFile) : tagFile :=
  mkTagFile (fp s) (numTags_added s) (max_tag s) (max_line s) (etags_fp s)
    (etags_byteCount s) n (corkQueue_queue s) (corkQueue_length s)
    (corkQueue_count s) (patternCacheValid s) (cached_pattern s)
    (cached_location s) (warnings s).

Definition with_corkQueue (q : list tagEntryInfo) (len cnt : Z)
  (s : tagFile) : tagFile :=
  mkTagFile (fp s) (numTags_added s) (max_tag s) (max_line s) (etags_fp s)
    (etags_byteCount s) (cork s) q len cnt (patternCacheValid s)
    (cached_pattern s) (cached_location s) (warnings s).

Definition with_cache (valid : bool) (pat : cstr) (loc : Z)
  (s : tagFile) : tagFile :=
  mkTagFile (fp s) (numTags_added s) (max_tag s) (max_line s) (etags_fp s)
    (etags_byteCount s) (cork s) (corkQueue_queue s) (corkQueue_length s)
    (corkQueue_count s) valid pat loc (warnings s).

Definition with_warning (msg : cstr) (s : tagFile) : tagFile :=
  mkTagFile (fp s) (numTags_added s) (max_tag s) (max_line s) (etags_fp s)
    (etags_byteCount s) (cork s) (corkQueue_queue s) (corkQueue_length s)
    (corkQueue_count s) (patternCacheValid s) (cached_pattern s)
    (cached_location s) (warnings s ++ [msg]).

(** The initial value of [TagFile]. *)
Definition TagFile0 : tagFile :=
  mkTagFile [] 0 0 0 [] 0 0 [] 0 0 false [] 0 [].

(** [fprintf (TagFile.fp, ...)] once the format is expanded to [text]. *)
Definition fprintf (text : cstr) (s : tagFile) : Z * tagFile :=
  (Z.of_nat (length text), with_fp (fp s ++ text) s).

(** *** Building the pattern *)

Definition searchChar (e : env) : ascii :=
  if backward (opts e) then "?"%char else "/"%char.

(** [appendInputLine]: the characters handed to [putc_func], the flag
    [*omitted], and the length returned; [len] is the local [length]. *)
Fixpoint appendInputLine (e : env) (line : cstr) (len : Z)
  : cstr * bool * Z :=
  match line with
  | [] => ([], false, len)
  | c :: rest =>
      let next := at_index rest 0 in
      if Ascii.eqb c CRETURN || Ascii.eqb c NEWLINE then ([], false, len)
      else if len >=? patternLengthLimit (opts e) then ([], true, len)
      else if Ascii.eqb c BACKSLASH || Ascii.eqb c (searchChar e)
              || (Ascii.eqb c "$"
                  && (Ascii.eqb next NEWLINE || Ascii.eqb next CRETURN))
      then
        let '(out, omitted, n) := appendInputLine e rest (len + 2) in
        (BACKSLASH :: c :: out, omitted, n)
      else
        let '(out, omitted, n) := appendInputLine e rest (len + 1) in
        (c :: out, omitted, n)
  end.

(** [truncateTagLine]. *)
Definition truncateTagLine (line token : cstr) (discardNewline : bool)
  : cstr :=
  match strstr line token with
  | None => line
  | Some i =>
      let p := (i + length token)%nat in
      let c := at_index line p in
      if negb (Ascii.eqb c NUL)
         && negb (Ascii.eqb c NEWLINE && discardNewline)
      then take (S p) line
      else take p line
  end.

Definition last_char (line : cstr) : ascii :=
  at_index line (length line - 1).

(** [makePatternStringCommon].  The result is the text handed to the
    output functions and the [int] returned; [puts_ret s] is what
    [puts_func] returns on [s]. *)
Definition makePatternStringCommon (e : env) (tag : tagEntryInfo)
  (puts_ret : cstr -> Z) (s : tagFile) : result (cstr * Z * tagFile) :=
  if patternCacheValid s && negb (truncateLine tag)
     && (filePosition tag =? cached_location s)
  then Ok (cached_pattern s, puts_ret (cached_pattern s), s)
  else
    match readLineFromBypass e (filePosition tag) with
    | None => Fatal (lit "bad tag in " ++ getInputFileName e)
    | Some (line0, _) =>
        let line :=
          if truncateLine tag then truncateTagLine line0 (name tag) false
          else line0 in
        match line with
        | [] => Undefined          (* line [line_len - 1] with line_len 0 *)
        | _ :: _ =>
            let terminator :=
              if Ascii.eqb (last_char line) NEWLINE then lit "$" else [] in
            let '(body, omitted, n) := appendInputLine e line 0 in
            let term := if omitted then [] else terminator in
            let text :=
              [searchChar e; "^"%char] ++ body ++ term ++ [searchChar e] in
            if truncateLine tag
            then Ok (text, 1 + 1 + n + puts_ret term + 1, s)
            else Ok (text, 1 + 1 + n + Z.of_nat (length term) + 1,
                     with_cache true text (filePosition tag) s)
        end
    end.

Definition vstring_puts (s : cstr) : Z := Z.of_nat (length s).
Definition file_puts (e : env) (s : cstr) : Z := fputs_result e.

(** [makePatternString]: the pattern as a new string. *)
Definition makePatternString (e : env) (tag : tagEntryInfo) (s : tagFile)
  : result (cstr * tagFile) :=
  '(text, _, s') ← makePatternStringCommon e tag vstring_puts s;
  Ok (text, s').

(** [writePatternEntry]: the pattern goes to the tag file. *)
Definition writePatternEntry (e : env) (tag : tagEntryInfo) (s : tagFile)
  : result (Z * tagFile) :=
  '(text, n, s') ← makePatternStringCommon e tag (file_puts e) s;
  Ok (n, with_fp (fp s' ++ text) s').

(** *** The renderers of the descriptors ([renderFieldEscaped]) *)

Definition valueToXDigit (v : Z) : ascii :=
  if v >=? 10
  then ascii_of_N (Z.to_N (code "A" + (v - 10)))
  else ascii_of_N (Z.to_N (code "0" + v)).

(** [(c > 0x00 && c <= 0x1F) || c == 0x7F]. *)
Definition isControl (c : ascii) : bool :=
  ((0 <? code c) && (code c <=? 31)) || (code c =? 127).

(** One round of the loop of [renderEscapedString]. *)
Definition escapeChar (c : ascii) : cstr :=
  if isControl c || Ascii.eqb c BACKSLASH then
    BACKSLASH ::
    (if code c =? 7 then ["a"%char]
     else if code c =? 8 then ["b"%char]
     else if code c =? 9 then ["t"%char]
     else if code c =? 10 then ["n"%char]
     else if code c =? 11 then ["v"%char]
     else if code c =? 12 then ["f"%char]
     else if code c =? 13 then ["r"%char]
     else if Ascii.eqb c BACKSLASH then [BACKSLASH]
     else ["x"%char; valueToXDigit (Z.shiftr (Z.land (code c) 240) 4);
           valueToXDigit (Z.land (code c) 15)])
  else [c].

Definition renderEscapedString (s : cstr) : cstr := flat_map escapeChar s.

(** [renderEscapedName]: the string itself when nothing in it needs an
    escape.  At a control character the tag's language and kind are
    printed in a notice, and the program stops under [fatalWarnings]. *)
Definition renderEscapedName (e : env) (tag : tagEntryInfo) (s : cstr)
  : result cstr :=
  let '(base, rest) :=
    span (fun c => negb (isControl c || Ascii.eqb c BACKSLASH)) s in
  match rest with
  | [] => Ok s
  | c :: _ =>
      if isControl c then
        _ ← str_arg (language tag);
        match kind tag with
        | None => Undefined
        | Some _ =>
            if fatalWarnings (opts e) then Fatal (lit "Aborting")
            else Ok (base ++ renderEscapedString rest)
        end
      else Ok (base ++ renderEscapedString rest)
  end.

Definition WITH_DEFUALT_VALUE (str : option cstr) : cstr :=
  match str with Some s => s | None => lit "-" end.

Definition renderFieldName e (tag : tagEntryInfo) : result cstr :=
  renderEscapedName e tag (name tag).

Definition renderFieldInput (e : env) (tag : tagEntryInfo) : result cstr :=
  let f :=
    match sourceFileName tag with
    | Some src => if lineDirectives (opts e) then src else inputFileName tag
    | None => inputFileName tag
    end in
  Ok (renderEscapedString f).

Definition renderFieldSignature (tag : tagEntryInfo) : result cstr :=
  Ok (renderEscapedString
        (WITH_DEFUALT_VALUE (signature (extensionFields tag)))).

Definition renderFieldScope e (tag : tagEntryInfo) : result cstr :=
  renderEscapedName e tag
    (WITH_DEFUALT_VALUE (scopeName (extensionFields tag))).

Definition renderFieldInherits (tag : tagEntryInfo) : result cstr :=
  Ok (renderEscapedString
        (WITH_DEFUALT_VALUE (inheritance (extensionFields tag)))).

Definition renderFieldTyperef e (tag : tagEntryInfo) : result cstr :=
  renderEscapedName e tag
    (WITH_DEFUALT_VALUE (typeRef1 (extensionFields tag))).

Definition renderFieldKindName (tag : tagEntryInfo) : result cstr :=
  match kind tag with
  | None => Undefined
  | Some k => str_arg (kind_name k)
  end.

Definition renderFieldKindLetter (tag : tagEntryInfo) : result cstr :=
  match kind tag with
  | None => Undefined
  | Some k => Ok [kind_letter k]
  end.

(** [long] and [unsigned long] are 64 bits wide.  The conversion of an
    [unsigned long] to [long], which is also what [%ld] prints of an
    [unsigned long] argument: the values from 2^63 on come out
    negative. *)
Definition LONG_MIN : Z := - 2 ^ 63.
Definition LONG_MAX : Z := 2 ^ 63 - 1.

Definition to_long (n : Z) : Z :=
  let m := n mod 2 ^ 64 in
  if m <? 2 ^ 63 then m else m - 2 ^ 64.

(** [renderFieldLineNumber]: [long ln = tag->lineNumber], then
    [ln += tag->sourceLineNumberDifference], a sum of two [long]s whose
    overflow is undefined, and [%ld]. *)
Definition renderFieldLineNumber (e : env) (tag : tagEntryInfo)
  : result cstr :=
  let ln := to_long (lineNumber tag) in
  if lineDirectives (opts e)
     && negb (sourceLineNumberDifference tag =? 0)
  then
    let sum := ln + sourceLineNumberDifference tag in
    if (LONG_MIN <=? sum) && (sum <=? LONG_MAX) then Ok (decimal sum)
    else Undefined
  else Ok (decimal ln).

Definition renderFieldRole (tag : tagEntryInfo) : result cstr :=
  let rindex := roleIndex (extensionFields tag) in
  if rindex =? ROLE_INDEX_DEFINITION then Ok []
  else
    match kind tag with
    | None => Undefined
    | Some k =>
        if rindex <? 0 then Undefined
        else match roles k !! Z.to_nat rindex with
             | Some role => Ok (renderRole role)
             | None => Undefined
             end
    end.

Definition renderFieldLanguage (e : env) (tag : tagEntryInfo)
  : result cstr :=
  let l :=
    match sourceLanguage tag with
    | Some src => if lineDirectives (opts e) then Some src else language tag
    | None => language tag
    end in
  Ok (WITH_DEFUALT_VALUE l).

Definition renderFieldAccess (tag : tagEntryInfo) : result cstr :=
  Ok (WITH_DEFUALT_VALUE (access (extensionFields tag))).

Definition renderFieldImplementation (tag : tagEntryInfo) : result cstr :=
  Ok (WITH_DEFUALT_VALUE (implementation (extensionFields tag))).

Definition renderFieldFile (tag : tagEntryInfo) : result cstr :=
  Ok (if isFileScope tag then lit "file" else lit "-").

Definition renderFieldRefMarker (tag : tagEntryInfo) : result cstr :=
  Ok [if roleIndex (extensionFields tag) =? ROLE_INDEX_DEFINITION
      then "D"%char else "R"%char].

(** [isPosSet]: some byte of the position is not zero. *)
Definition isPosSet (pos : Z) : bool := negb (pos =? 0).

(** [readLineFromBypassAnyway]: the line and the seek value. *)
Definition readLineFromBypassAnyway (e : env) (tag : tagEntryInfo)
  : option (cstr * Z) :=
  match pattern tag with
  | None => readLineFromBypass e (filePosition tag)
  | Some pat =>
      if isPosSet (filePosition tag)
      then readLineFromBypass e (filePosition tag)
      else readLineFromBypassSlow e (lineNumber tag) pat
  end.

(** The loop of [renderCompactInputLine]; [inRun] holds while the inner
    loop that consumes repeated white space is running. *)
Fixpoint renderCompactInputLine_loop (lineStarted inRun : bool)
  (line : cstr) : cstr :=
  match line with
  | [] => []
  | c :: rest =>
      if Ascii.eqb c NEWLINE then []
      else if inRun && isspace c
      then renderCompactInputLine_loop lineStarted true rest
      else if lineStarted || negb (isspace c) then
        if isspace c
        then " "%char :: renderCompactInputLine_loop true true rest
        else
          (if negb (Ascii.eqb c CRETURN)
              || negb (Ascii.eqb (at_index rest 0) NEWLINE)
           then [c] else [])
          ++ renderCompactInputLine_loop true false rest
      else renderCompactInputLine_loop false false rest
  end.

Definition renderCompactInputLine (line : cstr) : cstr :=
  renderCompactInputLine_loop false false line.

Definition renderFieldCompactInputLine (e : env) (tag : tagEntryInfo)
  : result cstr :=
  match readLineFromBypassAnyway e tag with
  | Some (line, _) => Ok (renderCompactInputLine line)
  | None => Ok []
  end.

(** [renderFieldPattern] builds the pattern anew, through the cache. *)
Definition renderFieldPattern (e : env) (tag : tagEntryInfo) (s : tagFile)
  : result (cstr * tagFile) :=
  makePatternString e tag s.

(** [escapeName (tag, ftype)], that is [renderFieldEscaped] on the
    descriptor of [ftype].  The last two descriptors have no renderer:
    the call goes through a NULL function pointer. *)
Definition escapeName (e : env) (tag : tagEntryInfo) (ftype : fieldType)
  (s : tagFile) : result (cstr * tagFile) :=
  let pure (r : result cstr) := x ← r; Ok (x, s) in
  match ftype with
  | FIELD_NAME => pure (renderFieldName e tag)
  | FIELD_INPUT_FILE => pure (renderFieldInput e tag)
  | FIELD_PATTERN => renderFieldPattern e tag s
  | FIELD_COMPACT_INPUT_LINE => pure (renderFieldCompactInputLine e tag)
  | FIELD_ACCESS => pure (renderFieldAccess tag)
  | FIELD_FILE_SCOPE => pure (renderFieldFile tag)
  | FIELD_INHERITANCE => pure (renderFieldInherits tag)
  | FIELD_KIND_LONG => pure (renderFieldKindName tag)
  | FIELD_KIND => pure (renderFieldKindLetter tag)
  | FIELD_LANGUAGE => pure (renderFieldLanguage e tag)
  | FIELD_IMPLEMENTATION => pure (renderFieldImplementation tag)
  | FIELD_LINE_NUMBER => pure (renderFieldLineNumber e tag)
  | FIELD_ROLE => pure (renderFieldRole tag)
  | FIELD_REF_MARK => pure (renderFieldRefMarker tag)
  | FIELD_SIGNATURE => pure (renderFieldSignature tag)
  | FIELD_SCOPE => pure (renderFieldScope e tag)
  | FIELD_TYPE_REF => pure (renderFieldTyperef e tag)
  | FIELD_KIND_KEY | FIELD_SCOPE_KEY => Undefined
  end.

(** *** The cork queue, read *)

(** The conversion of an [int] argument to [unsigned int]. *)
Definition to_uint (n : Z) : Z := n mod 2 ^ 32.

(** The conversion of an [unsigned int] result to [int]. *)
Definition to_int (n : Z) : Z := if n <? 2 ^ 31 then n else n - 2 ^ 32.

Definition getEntryInCorkQueue (s : tagFile) (n : Z) : option tagEntryInfo :=
  let n := to_uint n in
  if (SCOPE_NIL <? n) && (n <? corkQueue_count s)
  then corkQueue_queue s !! Z.to_nat n
  else None.

Definition countEntryInCorkQueue (s : tagFile) : Z := corkQueue_count s.

(** The first loop of [getFullQualifiedScopeNameFromCorkQueue]: the names
    added to the string list, innermost scope first.  A chain of scopes
    that comes back to an entry never ends; [fuel] bounds the number of
    rounds, and a chain that is longer than the queue has such a cycle. *)
Fixpoint scopeNames (fuel : nat) (e : env) (scope : option tagEntryInfo)
  (s : tagFile) : result (list cstr * tagFile) :=
  match scope with
  | None => Ok ([], s)
  | Some sc =>
      match fuel with
      | O => Diverges
      | S fuel' =>
          '(v, s1) ←
            (if placeholder sc then Ok ([], s)
             else '(x, s') ← escapeName e sc FIELD_NAME s; Ok ([x], s'));
          '(rest, s2) ←
            scopeNames fuel' e
              (getEntryInCorkQueue s1 (scopeIndex (extensionFields sc))) s1;
          Ok (v ++ rest, s2)
      end
  end.

(** The second loop: the last string of the list is taken off and
    appended, with a dot unless it was the only one left. *)
Fixpoint joinFromLast (stack : list cstr) : cstr :=
  match stack with
  | [] => []
  | v :: below =>
      v ++ (match below with [] => [] | _ :: _ => lit "." end)
        ++ joinFromLast below
  end.

Definition getFullQualifiedScopeNameFromCorkQueue (e : env)
  (inner_scope : option tagEntryInfo) (s : tagFile)
  : result (cstr * tagFile) :=
  '(queue, s') ←
    scopeNames (S (Z.to_nat (corkQueue_count s))) e inner_scope s;
  Ok (joinFromLast (rev queue), s').

(** *** The extension fields *)

Definition separator : cstr := [";"%char; DQUOTE].

(** The accumulator of [addExtensionFields]: [first], [length], and the
    tag file. *)
Definition extAcc : Type := bool * Z * tagFile.

(** One [length += fprintf (TagFile.fp, "%s...", sep, ...)]: [sep] gives
    the separator the first time it is evaluated and nothing later. *)
Definition put (body : cstr) (a : extAcc) : extAcc :=
  let '(first, len, s) := a in
  let sep := if first then separator else [] in
  let '(n, s') := fprintf (sep ++ body) s in
  (false, len + n, s').

Definition with_state (s : tagFile) (a : extAcc) : extAcc :=
  let '(first, len, _) := a in (first, len, s).

Definition acc_state (a : extAcc) : tagFile := snd a.

(** A key and its colon when the key field is enabled, else nothing. *)
Definition keyPrefix (e : env) (keyField : fieldType) : result cstr :=
  if fieldEnabled e keyField
  then k ← str_arg (getFieldName e keyField); Ok (k ++ lit ":")
  else Ok [].

(** ["%s\t%s:%s"] on [sep], the name of the field, and a value. *)
Definition keyValue (e : env) (t : fieldType) (v : cstr) : result cstr :=
  k ← str_arg (getFieldName e t);
  Ok (TAB :: k ++ lit ":" ++ v).

Definition extKind (e : env) (tag : tagEntryInfo) (a : extAcc)
  : result extAcc :=
  kindKey ← keyPrefix e FIELD_KIND_KEY;
  match kind tag with
  | None => Undefined
  | Some k =>
      let kindIsNull := false in
      if bool_decide (kind_name k <> None)
         && (fieldEnabled e FIELD_KIND_LONG
             || (fieldEnabled e FIELD_KIND && kindIsNull))
      then
        nm ← str_arg (kind_name k);
        Ok (put (TAB :: kindKey ++ nm) a)
      else if negb kindIsNull
              && (fieldEnabled e FIELD_KIND
                  || (fieldEnabled e FIELD_KIND_LONG
                      && bool_decide (kind_name k = None)))
      then Ok (put (TAB :: kindKey ++ [kind_letter k]) a)
      else Ok a
  end.

(** The line number is an [unsigned long] that is printed with [%ld]. *)
Definition extLine (e : env) (tag : tagEntryInfo) (a : extAcc)
  : result extAcc :=
  if fieldEnabled e FIELD_LINE_NUMBER
  then
    body ← keyValue e FIELD_LINE_NUMBER (decimal (to_long (lineNumber tag)));
    Ok (put body a)
  else Ok a.

(** The fields whose value comes from [escapeName]. *)
Definition putEscaped (e : env) (tag : tagEntryInfo) (t : fieldType)
  (a : extAcc) : result extAcc :=
  '(v, s') ← escapeName e tag t (acc_state a);
  body ← keyValue e t v;
  Ok (put body (with_state s' a)).

Definition extLanguage (e : env) (tag : tagEntryInfo) (a : extAcc)
  : result extAcc :=
  if fieldEnabled e FIELD_LANGUAGE && bool_decide (language tag <> None)
  then putEscaped e tag FIELD_LANGUAGE a
  else Ok a.

Definition extScope (e : env) (tag : tagEntryInfo) (a : extAcc)
  : result extAcc :=
  scopeKey ← keyPrefix e FIELD_SCOPE_KEY;
  let x := extensionFields tag in
  if fieldEnabled e FIELD_SCOPE then
    match scopeKind x, scopeName x with
    | Some sk, Some _ =>
        kn ← str_arg (kind_name sk);
        '(v, s') ← escapeName e tag FIELD_SCOPE (acc_state a);
        Ok (put (TAB :: scopeKey ++ kn ++ lit ":" ++ v) (with_state s' a))
    | _, _ =>
        if negb (scopeIndex x =? SCOPE_NIL)
           && (corkQueue_count (acc_state a) >? 0)
        then
          let scope := getEntryInCorkQueue (acc_state a) (scopeIndex x) in
          '(full_qualified_scope_name, s') ←
            getFullQualifiedScopeNameFromCorkQueue e scope (acc_state a);
          sc ← match scope with Some sc => Ok sc | None => Undefined end;
          k ← match kind sc with Some k => Ok k | None => Undefined end;
          kn ← str_arg (kind_name k);
          Ok (put (TAB :: scopeKey ++ kn ++ lit ":"
                       ++ full_qualified_scope_name)
                  (with_state s' a))
        else Ok a
    end
  else Ok a.

Definition extTyperef (e : env) (tag : tagEntryInfo) (a : extAcc)
  : result extAcc :=
  let x := extensionFields tag in
  if fieldEnabled e FIELD_TYPE_REF then
    match typeRef0 x, typeRef1 x with
    | Some t0, Some _ =>
        '(v, s') ← escapeName e tag FIELD_TYPE_REF (acc_state a);
        body ← keyValue e FIELD_TYPE_REF (t0 ++ lit ":" ++ v);
        Ok (put body (with_state s' a))
    | _, _ => Ok a
    end
  else Ok a.

Definition extFileScope (e : env) (tag : tagEntryInfo) (a : extAcc)
  : result extAcc :=
  if fieldEnabled e FIELD_FILE_SCOPE && isFileScope tag
  then body ← keyValue e FIELD_FILE_SCOPE []; Ok (put body a)
  else Ok a.

Definition extInheritance (e : env) (tag : tagEntryInfo) (a : extAcc)
  : result extAcc :=
  if fieldEnabled e FIELD_INHERITANCE
     && bool_decide (inheritance (extensionFields tag) <> None)
  then putEscaped e tag FIELD_INHERITANCE a
  else Ok a.

Definition extAccess (e : env) (tag : tagEntryInfo) (a : extAcc)
  : result extAcc :=
  if fieldEnabled e FIELD_ACCESS then
    match access (extensionFields tag) with
    | Some v => body ← keyValue e FIELD_ACCESS v; Ok (put body a)
    | None => Ok a
    end
  else Ok a.

Definition extImplementation (e : env) (tag : tagEntryInfo) (a : extAcc)
  : result extAcc :=
  if fieldEnabled e FIELD_IMPLEMENTATION then
    match implementation (extensionFields tag) with
    | Some v => body ← keyValue e FIELD_IMPLEMENTATION v; Ok (put body a)
    | None => Ok a
    end
  else Ok a.

Definition extSignature (e : env) (tag : tagEntryInfo) (a : extAcc)
  : result extAcc :=
  if fieldEnabled e FIELD_SIGNATURE
     && bool_decide (signature (extensionFields tag) <> None)
  then putEscaped e tag FIELD_SIGNATURE a
  else Ok a.

Definition extRole (e : env) (tag : tagEntryInfo) (a : extAcc)
  : result extAcc :=
  if fieldEnabled e FIELD_ROLE
     && negb (roleIndex (extensionFields tag) =? ROLE_INDEX_DEFINITION)
  then putEscaped e tag FIELD_ROLE a
  else Ok a.

(** [addExtensionFields]: the statements of the function, one after the
    other; the result is [length]. *)
Definition addExtensionFields (e : env) (tag : tagEntryInfo) (s : tagFile)
  : result (Z * tagFile) :=
  a ← extKind e tag (true, 0, s);
  a ← extLine e tag a;
  a ← extLanguage e tag a;
  a ← extScope e tag a;
  a ← extTyperef e tag a;
  a ← extFileScope e tag a;
  a ← extInheritance e tag a;
  a ← extAccess e tag a;
  a ← extImplementation e tag a;
  a ← extSignature e tag a;
  a ← extRole e tag a;
  let '(_, len, s') := a in Ok (len, s').

(** *** The three writers *)

Definition includeExtensionFlags (e : env) : bool :=
  tagFileFormat (opts e) >? 1.

Definition writeLineNumberEntry (e : env) (tag : tagEntryInfo) (s : tagFile)
  : result (Z * tagFile) :=
  if lineDirectives (opts e)
  then '(v, s') ← escapeName e tag FIELD_LINE_NUMBER s; Ok (fprintf v s')
  else Ok (fprintf (decimal (lineNumber tag)) s).

Definition writeCtagsEntry (e : env) (tag : tagEntryInfo) (s : tagFile)
  : result (Z * tagFile) :=
  '(nm, s) ← escapeName e tag FIELD_NAME s;
  '(file, s) ← escapeName e tag FIELD_INPUT_FILE s;
  let '(len, s) := fprintf (nm ++ [TAB] ++ file ++ [TAB]) s in
  '(n, s) ←
    (if lineNumberEntry tag then writeLineNumberEntry e tag s
     else match pattern tag with
          | Some pat => Ok (fprintf pat s)
          | None => writePatternEntry e tag s
          end);
  let len := len + n in
  '(n, s) ←
    (if includeExtensionFlags e then addExtensionFields e tag s
     else Ok (0, s));
  let len := len + n in
  let '(n, s) := fprintf [NEWLINE] s in
  Ok (len + n, s).

Definition fmt1 : cstr := lit "%-16N %4n %-16F %C".
Definition fmt2 : cstr := lit "%-16N %-10K %4n %-16F %C".

Definition writeXrefEntry (e : env) (tag : tagEntryInfo) (s : tagFile)
  : result (Z * tagFile) :=
  let print (fmt : cstr) :=
    let '(len, s) := fprintf (fmtPrint e fmt tag) s in
    let '(_, s) := fprintf [NEWLINE] s in
    Ok (len + 1, s) in
  match customXfmt (opts e) with
  | Some fmt => print fmt
  | None =>
      if isFileEntry tag then Ok (0, s)
      else if tagFileFormat (opts e) =? 1 then print fmt1
      else print fmt2
  end.

(** [fprintf (TagFile.etags.fp, ...)] and the byte count. *)
Definition etagsPrintf (text : cstr) (s : tagFile) : Z * tagFile :=
  let n := Z.of_nat (length text) in
  (n, with_etags (etags_fp s ++ text) (etags_byteCount s + n) s).

Definition DEL : ascii := "127"%char.
Definition SOH : ascii := "001"%char.

Definition writeEtagsEntry (e : env) (tag : tagEntryInfo) (s : tagFile)
  : result (Z * tagFile) :=
  if isFileEntry tag then
    Ok (etagsPrintf
          ([DEL] ++ name tag ++ [SOH] ++ decimal (lineNumber tag)
           ++ lit ",0" ++ [NEWLINE]) s)
  else
    match readLineFromBypassAnyway e tag with
    | None => Ok (0, s)
    | Some (line0, seekValue) =>
        line ←
          (if truncateLine tag
           then Ok (truncateTagLine line0 (name tag) true)
           else match line0 with
                | [] => Undefined      (* line [strlen (line) - 1] *)
                | _ :: _ => Ok (take (length line0 - 1) line0)
                end);
        Ok (etagsPrintf
              (line ++ [DEL] ++ name tag ++ [SOH]
               ++ decimal (lineNumber tag) ++ lit ","
               ++ decimal seekValue ++ [NEWLINE]) s)
    end.

Definition rememberMaxLengths (nameLength lineLength : Z) (s : tagFile)
  : tagFile :=
  with_stats (numTags_added s)
    (if nameLength >? max_tag s then nameLength else max_tag s)
    (if lineLength >? max_line s then lineLength else max_line s) s.

(** [writeTagEntry].  Writing to the file is taken to succeed, so that
    [abort_if_ferror] does nothing. *)
Definition writeTagEntry (e : env) (tag : tagEntryInfo) (s : tagFile)
  : result tagFile :=
  if placeholder tag then Ok s
  else
    '(len, s) ←
      (if xref (opts e) then writeXrefEntry e tag s
       else if etags (opts e) then writeEtagsEntry e tag s
       else writeCtagsEntry e tag s);
    let s := with_stats (numTags_added s + 1) (max_tag s) (max_line s) s in
    Ok (rememberMaxLengths (Z.of_nat (length (name tag))) len s).

(** *** The cork queue, written *)

(** [recordTagEntryInQueue]: the copy kept in the slot.  Every string is
    duplicated; a tag without a pattern that is not a line-number entry
    gets the pattern built now. *)
Definition recordTagEntryInQueue (e : env) (tag : tagEntryInfo) (s : tagFile)
  : result (tagEntryInfo * tagFile) :=
  match pattern tag with
  | Some _ => Ok (tag, s)
  | None =>
      if negb (lineNumberEntry tag)
      then '(pat, s') ← makePatternString e tag s;
           Ok (set_pattern (Some pat) tag, s')
      else Ok (tag, s)
  end.

(** [*(queue + i) = v].  Slots between the end of the written part and
    [i] are memory that nothing has written; they show as [zeroTag]. *)
Definition store_slot (q : list tagEntryInfo) (i : nat) (v : tagEntryInfo)
  : list tagEntryInfo :=
  if (i <? length q)%nat then <[i := v]> q
  else q ++ replicate (i - length q) zeroTag ++ [v].

Definition queueTagEntry (e : env) (tag : tagEntryInfo) (s : tagFile)
  : result (Z * tagFile) :=
  let len :=
    if negb (corkQueue_count s <? corkQueue_length s)
    then to_uint ((if corkQueue_length s =? 0 then 1
                   else corkQueue_length s) * 2)
    else corkQueue_length s in
  let i := corkQueue_count s in
  let s := with_corkQueue (corkQueue_queue s) len (to_uint (i + 1)) s in
  '(slot, s) ← recordTagEntryInQueue e tag s;
  Ok (i, with_corkQueue (store_slot (corkQueue_queue s) (Z.to_nat i) slot)
           (corkQueue_length s) (corkQueue_count s) s).

Definition corkTagFile (s : tagFile) : tagFile :=
  let s := with_cork (cork s + 1) s in
  if cork s =? 1 then with_corkQueue [zeroTag] 1 1 s else s.

(** The first loop of [uncorkTagFile], from index [i] on; [n] bounds the
    rounds left (the loop makes fewer than [count] of them). *)
Fixpoint uncork_write_loop (n : nat) (e : env) (i : Z) (s : tagFile)
  : result tagFile :=
  match n with
  | O => Ok s
  | S n' =>
      if i <? corkQueue_count s then
        match corkQueue_queue s !! Z.to_nat i with
        | Some tag =>
            s' ← writeTagEntry e tag s;
            uncork_write_loop n' e (i + 1) s'
        | None => Undefined
        end
      else Ok s
  end.

(** [uncorkTagFile].  Freeing the strings of the slots and the array
    leaves no queue: [count] and [length] are 0 and [queue] is NULL. *)
Definition uncorkTagFile (e : env) (s : tagFile) : result tagFile :=
  let s := with_cork (cork s - 1) s in
  if cork s >? 0 then Ok s
  else
    s ← uncork_write_loop (Z.to_nat (corkQueue_count s)) e 1 s;
    Ok (with_corkQueue [] 0 0 s).

Definition nullTagWarning (e : env) (tag : tagEntryInfo) : cstr :=
  lit "ignoring null tag in " ++ getInputFileName e ++ lit "(line: "
  ++ decimal (lineNumber tag) ++ lit ")".

(** [makeTagEntry]: the value returned and the tag file after the call. *)
Definition makeTagEntry (e : env) (tag : tagEntryInfo) (s : tagFile)
  : result (Z * tagFile) :=
  let r := SCOPE_NIL in
  if Ascii.eqb (at_index (name tag) 0) NUL && negb (placeholder tag) then
    if negb (doesInputLanguageAllowNullTag e)
    then Ok (r, with_warning (nullTagWarning e tag) s)
    else Ok (r, s)
  else if negb (cork s =? 0) then
    '(i, s') ← queueTagEntry e tag s;
    Ok (to_int i, s')
  else
    s' ← writeTagEntry e tag s;
    Ok (r, s').

(** *** Pseudo-tags *)

Definition PSEUDO_TAG_SEPARATOR : cstr := lit "!".

(** [writePseudoTag]; the write is taken to succeed, as in
    [writeTagEntry]. *)
Definition writePseudoTag (tagName fileName pattern : cstr)
  (language : option cstr) (s : tagFile) : tagFile :=
  let text :=
    match language with
    | Some l =>
        Stream.PSEUDO_TAG_PREFIX ++ tagName ++ PSEUDO_TAG_SEPARATOR ++ l
        ++ [TAB] ++ fileName ++ [TAB] ++ pattern ++ [NEWLINE]
    | None =>
        Stream.PSEUDO_TAG_PREFIX ++ tagName ++ [TAB] ++ fileName ++ [TAB]
        ++ lit "/" ++ pattern ++ lit "/" ++ [NEWLINE]
    end in
  let '(len, s) := fprintf text s in
  let s := with_stats (numTags_added s + 1) (max_tag s) (max_line s) s in
  rememberMaxLengths (Z.of_nat (length tagName)) len s.

(** The macros of ctags.h and the variable of repoinfo.h that
    [addPseudoTags] prints; [outputEncoding] is the option of that name
    where HAVE_ICONV is defined, and [None] elsewhere. *)
Record programInfo := mkProgram {
  AUTHOR_NAME : cstr;
  PROGRAM_NAME : cstr;
  PROGRAM_URL : cstr;
  PROGRAM_VERSION : cstr;
  ctags_repoinfo : option cstr;
  outputEncoding : option cstr
}.

Definition addPseudoTags (p : programInfo) (e : env) (s : tagFile)
  : tagFile :=
  if negb (xref (opts e)) then
    let format := decimal (tagFileFormat (opts e)) in
    let formatComment :=
      if tagFileFormat (opts e) =? 1 then lit "original ctags format"
      else if tagFileFormat (opts e) =? 2
      then lit "extended format; --format=1 will not append ;"
           ++ [DQUOTE] ++ lit " to lines"
      else lit "unknown format" in
    let s := writePseudoTag (lit "TAG_FILE_FORMAT") format formatComment
               None s in
    let s := writePseudoTag (lit "TAG_FILE_SORTED")
               [sortedFlag (sorted (opts e))]
               (lit "0=unsorted, 1=sorted, 2=foldcase") None s in
    let s := writePseudoTag (lit "TAG_PROGRAM_AUTHOR") (AUTHOR_NAME p) []
               None s in
    let s := writePseudoTag (lit "TAG_PROGRAM_NAME") (PROGRAM_NAME p)
               (lit "Derived from Exuberant Ctags") None s in
    let s := writePseudoTag (lit "TAG_PROGRAM_URL") (PROGRAM_URL p)
               (lit "official site") None s in
    let repoinfo :=
      match ctags_repoinfo p with Some i => i | None => [] end in
    let s := writePseudoTag (lit "TAG_PROGRAM_VERSION") (PROGRAM_VERSION p)
               repoinfo None s in
    match outputEncoding p with
    | Some enc => writePseudoTag (lit "TAG_FILE_ENCODING") enc [] None s
    | None => s
    end
  else s.

End Entry.

(** ** Notions used to state the properties *)

Module FieldNotions.
Import CStr Field.

(** Enabling a field, disabling it, enabling it again, and then asking
    whether it is enabled. *)
Definition toggle3 (type : fieldType) (w : bool) (r : registry) : option bool :=
  '(_, r1) ← enableField type true w r;
  '(_, r2) ← enableField type false w r1;
  '(_, r3) ← enableField type true w r2;
  isFieldEnabled r3 type.

(** The registries the program can reach: the initial one, and what
    [enableField] and [defineField] make of a reachable one. *)
Inductive reachable (prefix : cstr) : registry -> Prop :=
| reach_init : reachable prefix (initFieldObjects prefix)
| reach_enable r type state w old r' :
    reachable prefix r ->
    enableField type state w r = Some (old, r') ->
    reachable prefix r'
| reach_define r d lang t r' :
    reachable prefix r ->
    defineField prefix d lang r = Some (t, r') ->
    reachable prefix r'.

(** A fixed field is enabled and has a letter or a name to warn with. *)
Definition fixed_ok (o : fieldObject) : Prop :=
  fixed o = true -> enabled (def o) = true /\ fixedFieldWarning (def o) <> None.

(** The field after the field [i] that [nextSiblingField] should give:
    the first one behind it with the same name. *)
Definition nextOfName (objs : list fieldObject) (i : nat) (o : fieldObject)
  : fieldType :=
  first_field (fun o' => same_name (name (def o')) (name (def o)))
              (drop (S i) objs) (Z.of_nat (S i)).

(** Every field is linked to the next field of its name. *)
Definition siblings_linked (r : registry) : Prop :=
  forall i o, fieldObjects r !! i = Some o ->
    sibling o = nextOfName (fieldObjects r) i o.

Definition sectionField : fieldDefinition :=
  mkDef "s" (Some (lit "section")) false.

(** The registry after a parser (language 5) has defined a field
    [section], and after a second one (language 7) has done so too. *)
Definition oneSection : registry :=
  match defineField (lit "UCTAGS") sectionField 5
          (initFieldObjects (lit "UCTAGS")) with
  | Some (_, r1) => r1
  | None => initFieldObjects (lit "UCTAGS")
  end.

Definition twoSections : registry :=
  match defineField (lit "UCTAGS") sectionField 7 oneSection with
  | Some (_, r2) => r2
  | None => oneSection
  end.

End FieldNotions.

Module CheckNotions.
Import CStr Options TagFileCheck.

Definition digit (c : ascii) : Prop := In c (lit "0123456789").

(** An acceptable ex-command: a search ([/] or [?]), or a line number,
    which a [;] may follow. *)
Definition acceptableExcmd (excmd : cstr) : Prop :=
  (exists c rest, excmd = c :: rest /\ (c = "/"%char \/ c = "?"%char))
  \/ (exists digits rest,
        excmd = digits ++ rest /\ digits <> [] /\ Forall digit digits
        /\ (rest = [] \/ exists rest', rest = ";"%char :: rest')).

(** A ctags line: tag, one tab, source file, one tab, ex-command, and
    then the end of the line. *)
Definition ctagsLine (line : cstr) : Prop :=
  exists tag file excmd rest,
    line = tag ++ [TAB] ++ file ++ [TAB] ++ excmd ++ rest
    /\ tag <> [] /\ ~ In TAB tag /\ head tag <> Some "#"%char
    /\ file <> [] /\ ~ In TAB file /\ last file <> Some ";"%char
    /\ excmd <> [] /\ ~ In CRETURN excmd /\ ~ In NEWLINE excmd
    /\ (rest = [] \/ exists c rest', rest = c :: rest'
                                     /\ (c = CRETURN \/ c = NEWLINE))
    /\ acceptableExcmd excmd.

(** An etags line: a form feed followed by a line end. *)
Definition etagsLine (line : cstr) : Prop :=
  exists c rest, line = FORMFEED :: c :: rest /\ (c = NEWLINE \/ c = CRETURN).

(** A destination that exists and cannot be opened for reading. *)
Definition unreadable : destination :=
  mkDestination false true OpenFailed true true.

Definition defaultOptions : options :=
  mkOptions 2 SO_UNSORTED false false false false 96 false false false None.

(** A text that begins with an ex command that [isValidTagAddress]
    takes: a search, or a line number that ends the text or is followed
    by a semicolon or a line end. *)
Definition beginsWithExcmd (text : cstr) : Prop :=
  (exists c more, text = c :: more /\ (c = "/"%char \/ c = "?"%char))
  \/ (exists digits tail,
        text = digits ++ tail /\ digits <> [] /\ Forall digit digits
        /\ (tail = []
            \/ exists c tail', tail = c :: tail'
                 /\ (c = ";"%char \/ c = NEWLINE \/ c = CRETURN))).

End CheckNotions.

Module StreamNotions.
Import CStr Options Stream.

(** The character of the line after its first tab. *)
Definition lineFlag (line : cstr) : option ascii :=
  match strchr line TAB with
  | Some tab => Some (at_index line (S tab))
  | None => None
  end.

(** The line was read from the file at [startOfLine]: up to its first
    tab it is what the file holds there, and no line end comes before. *)
Definition agrees_up_to_tab (f : FILE) (startOfLine : nat) (line : cstr) : Prop :=
  forall tab, strchr line TAB = Some tab ->
    take (S tab) (drop startOfLine (bytes f)) = take (S tab) line
    /\ strchr (take tab line) NEWLINE = None.

(** The header of a tag file, for examples. *)
Definition headerLine (flag : string) : cstr :=
  lit "!_TAG_FILE_SORTED" ++ [TAB] ++ lit flag ++ [TAB]
  ++ lit "/0=unsorted, 1=sorted, 2=foldcase/" ++ [NEWLINE].

Definition headerFile (flag : string) : FILE :=
  mkFILE (lit "!_TAG_FILE_FORMAT" ++ [TAB] ++ lit "2" ++ [TAB] ++ lit "/extended format/" ++ [NEWLINE]
          ++ headerLine flag ++ lit "main" ++ [TAB] ++ lit "a.c" ++ [TAB] ++ lit "1" ++ [NEWLINE])
         (38 + length (headerLine flag)) true.

(** A reader of lines, for examples: the bytes from the position up to
    the next line feed, the line feed included. *)
Definition lineReader (f : FILE) : option (cstr * nat) :=
  match drop (pos f) (bytes f) with
  | [] => None
  | rest =>
      let '(l, r) := span (fun c => negb (Ascii.eqb c NEWLINE)) rest in
      let line := l ++ take 1 r in
      Some (line, (pos f + length line)%nat)
  end.

(** The pseudo-tag of another program, which sorts before
    [!_TAG_FILE_SORTED]. *)
Definition extraLine : cstr :=
  lit "!_TAG_EXTRA" ++ [TAB] ++ lit "0" ++ [TAB] ++ lit "/none/" ++ [NEWLINE].

(** A tag file that begins with that line, opened at its start. *)
Definition extraFile : FILE :=
  mkFILE (extraLine ++ headerLine "0"
          ++ lit "main" ++ [TAB] ++ lit "a.c" ++ [TAB] ++ lit "1" ++ [NEWLINE])
         0 true.

(** The file after an update of its sorted flag: as long as before, and a
    byte that differs was ['0'] or ['1'] and is the flag now. *)
Definition flagsOnly (sorted : sortType) (before after : cstr) : Prop :=
  length after = length before
  /\ forall i, after !! i <> before !! i ->
       (before !! i = Some "0"%char \/ before !! i = Some "1"%char)
       /\ after !! i = Some (sortedFlag sorted).

End StreamNotions.

(** Notions for [copyBytes]. *)

Module CopyNotions.
Import CStr Stream Copy.

(** The bytes of a stream from its position on. *)
Definition unread (f : FILE) : cstr := drop (pos f) (bytes f).

(** What [copyBytes] copies: [size] bytes when [size] is positive, all
    of them when it is negative, and one buffer when it is 0. *)
Definition toCopy (size : Z) (avail : cstr) : cstr :=
  if size >? 0 then take (Z.to_nat size) avail
  else if size =? 0 then take (Z.to_nat BufferSize) avail
  else avail.

End CopyNotions.


Module EntryNotions.
Import CStr Options Outcome Entry.

(** *** Patterns *)

Definition isEol (c : ascii) : bool :=
  Ascii.eqb c CRETURN || Ascii.eqb c NEWLINE.

(** A character that takes a backslash: a backslash, the search
    delimiter, and a dollar that the end of the line follows. *)
Definition quoted (delim c next : ascii) : bool :=
  Ascii.eqb c BACKSLASH || Ascii.eqb c delim
  || (Ascii.eqb c "$" && isEol next).

(** The characters of the line before its first line end, each as it is
    emitted: itself, or itself after a backslash. *)
Fixpoint units (delim : ascii) (line : cstr) : list cstr :=
  match line with
  | [] => []
  | c :: rest =>
      if isEol c then []
      else (if quoted delim c (at_index rest 0) then [BACKSLASH; c] else [c])
           :: units delim rest
  end.

(** The units emitted under the length limit: a unit is emitted while
    the length emitted before it is below the limit.  The flag says that
    a unit was left out. *)
Fixpoint cut (limit : Z) (len : Z) (us : list cstr) : cstr * bool :=
  match us with
  | [] => ([], false)
  | u :: us' =>
      if len >=? limit then ([], true)
      else let '(body, omitted) := cut limit (len + Z.of_nat (length u)) us' in
           (u ++ body, omitted)
  end.

(** The pattern of a line. *)
Definition patternOf (e : env) (line : cstr) : cstr :=
  let d := searchChar e in
  let '(body, omitted) :=
    cut (patternLengthLimit (opts e)) 0 (units d line) in
  [d; "^"%char] ++ body
  ++ (if omitted then []
      else if Ascii.eqb (last_char line) NEWLINE then lit "$" else [])
  ++ [d].

(** The pattern is built, not taken from the cache. *)
Definition builtFromLine (tag : tagEntryInfo) (s : tagFile) : Prop :=
  patternCacheValid s && negb (truncateLine tag)
  && (filePosition tag =? cached_location s) = false.

(** The line the pattern is built from. *)
Definition patternLine (tag : tagEntryInfo) (line0 : cstr) : cstr :=
  if truncateLine tag then truncateTagLine line0 (name tag) false else line0.


(** *** Extension fields *)

(** The extension fields of the extended format, and their fixed order. *)
Inductive extField :=
| XKind | XLine | XLanguage | XScope | XTyperef | XFileScope
| XInheritance | XAccess | XImplementation | XSignature | XRole.

Definition fixedOrder : list extField :=
  [XKind; XLine; XLanguage; XScope; XTyperef; XFileScope;
   XInheritance; XAccess; XImplementation; XSignature; XRole].

(** The descriptor of the field is enabled (the kind has two: [K] for the
    name and [k] for the letter). *)
Definition descriptorEnabled (e : env) (f : extField) : bool :=
  match f with
  | XKind => fieldEnabled e FIELD_KIND_LONG || fieldEnabled e FIELD_KIND
  | XLine => fieldEnabled e FIELD_LINE_NUMBER
  | XLanguage => fieldEnabled e FIELD_LANGUAGE
  | XScope => fieldEnabled e FIELD_SCOPE
  | XTyperef => fieldEnabled e FIELD_TYPE_REF
  | XFileScope => fieldEnabled e FIELD_FILE_SCOPE
  | XInheritance => fieldEnabled e FIELD_INHERITANCE
  | XAccess => fieldEnabled e FIELD_ACCESS
  | XImplementation => fieldEnabled e FIELD_IMPLEMENTATION
  | XSignature => fieldEnabled e FIELD_SIGNATURE
  | XRole => fieldEnabled e FIELD_ROLE
  end.

Definition present {A : Type} (p : option A) : bool :=
  match p with Some _ => true | None => false end.

(** The tag has a value for the field. *)
Definition valueAvailable (s : tagFile) (tag : tagEntryInfo) (f : extField)
  : bool :=
  let x := extensionFields tag in
  match f with
  | XKind | XLine => true
  | XLanguage => present (language tag)
  | XScope =>
      (present (scopeKind x) && present (scopeName x))
      || (negb (scopeIndex x =? SCOPE_NIL) && (corkQueue_count s >? 0))
  | XTyperef => present (typeRef0 x) && present (typeRef1 x)
  | XFileScope => isFileScope tag
  | XInheritance => present (inheritance x)
  | XAccess => present (access x)
  | XImplementation => present (implementation x)
  | XSignature => present (signature x)
  | XRole => negb (roleIndex x =? ROLE_INDEX_DEFINITION)
  end.

Definition emitted (e : env) (s : tagFile) (tag : tagEntryInfo)
  (f : extField) : bool :=
  descriptorEnabled e f && valueAvailable s tag f.

(** The names on a chain of scopes, innermost first, as
    [getFullQualifiedScopeNameFromCorkQueue] collects them. *)
Fixpoint scopeNamesOf (fuel : nat) (e : env) (s : tagFile)
  (scope : option tagEntryInfo) : result (list cstr) :=
  match scope with
  | None => Ok []
  | Some sc =>
      match fuel with
      | O => Diverges
      | S fuel' =>
          v ← (if placeholder sc then Ok []
               else x ← renderFieldName e sc; Ok [x]);
          rest ← scopeNamesOf fuel' e s
                   (getEntryInCorkQueue s (scopeIndex (extensionFields sc)));
          Ok (v ++ rest)
      end
  end.

Definition scopePath (e : env) (s : tagFile) (scope : option tagEntryInfo)
  : result cstr :=
  names ← scopeNamesOf (S (Z.to_nat (corkQueue_count s))) e s scope;
  Ok (joinFromLast (rev names)).

(** What is printed for a field, from its tab on. *)
Definition fieldText (e : env) (s : tagFile) (tag : tagEntryInfo)
  (f : extField) : result cstr :=
  let x := extensionFields tag in
  match f with
  | XKind =>
      kindKey ← keyPrefix e FIELD_KIND_KEY;
      k ← match kind tag with Some k => Ok k | None => Undefined end;
      match kind_name k with
      | Some nm =>
          if fieldEnabled e FIELD_KIND_LONG then Ok (TAB :: kindKey ++ nm)
          else Ok (TAB :: kindKey ++ [kind_letter k])
      | None => Ok (TAB :: kindKey ++ [kind_letter k])
      end
  | XLine => keyValue e FIELD_LINE_NUMBER (decimal (to_long (lineNumber tag)))
  | XLanguage => v ← renderFieldLanguage e tag; keyValue e FIELD_LANGUAGE v
  | XScope =>
      scopeKey ← keyPrefix e FIELD_SCOPE_KEY;
      match scopeKind x, scopeName x with
      | Some sk, Some _ =>
          kn ← str_arg (kind_name sk);
          v ← renderFieldScope e tag;
          Ok (TAB :: scopeKey ++ kn ++ lit ":" ++ v)
      | _, _ =>
          let scope := getEntryInCorkQueue s (scopeIndex x) in
          path ← scopePath e s scope;
          sc ← match scope with Some sc => Ok sc | None => Undefined end;
          k ← match kind sc with Some k => Ok k | None => Undefined end;
          kn ← str_arg (kind_name k);
          Ok (TAB :: scopeKey ++ kn ++ lit ":" ++ path)
      end
  | XTyperef =>
      v ← renderFieldTyperef e tag;
      keyValue e FIELD_TYPE_REF (WITH_DEFUALT_VALUE (typeRef0 x) ++ lit ":" ++ v)
  | XFileScope => keyValue e FIELD_FILE_SCOPE []
  | XInheritance =>
      v ← renderFieldInherits tag; keyValue e FIELD_INHERITANCE v
  | XAccess => v ← renderFieldAccess tag; keyValue e FIELD_ACCESS v
  | XImplementation =>
      v ← renderFieldImplementation tag; keyValue e FIELD_IMPLEMENTATION v
  | XSignature =>
      v ← renderFieldSignature tag; keyValue e FIELD_SIGNATURE v
  | XRole => v ← renderFieldRole tag; keyValue e FIELD_ROLE v
  end.

(** The suffix of extension fields: the separator, then the fields that
    are enabled and available, in the fixed order. *)
Definition extensionSuffix (e : env) (s : tagFile) (tag : tagEntryInfo)
  : result cstr :=
  texts ← mapM (fieldText e s tag) (filter (fun f => emitted e s tag f = true) fixedOrder);
  Ok (match texts with
      | [] => []
      | _ :: _ => separator ++ concat texts
      end).


(** One statement of [addExtensionFields], as the field it prints. *)
Definition step (e : env) (tag : tagEntryInfo) (f : extField) (a : extAcc)
  : result extAcc :=
  if emitted e (acc_state a) tag f
  then t ← fieldText e (acc_state a) tag f; Ok (put t a)
  else Ok a.

Definition statement (f : extField)
  : env -> tagEntryInfo -> extAcc -> result extAcc :=
  match f with
  | XKind => extKind
  | XLine => extLine
  | XLanguage => extLanguage
  | XScope => extScope
  | XTyperef => extTyperef
  | XFileScope => extFileScope
  | XInheritance => extInheritance
  | XAccess => extAccess
  | XImplementation => extImplementation
  | XSignature => extSignature
  | XRole => extRole
  end.

Fixpoint steps (e : env) (tag : tagEntryInfo) (fields : list extField)
  (a : extAcc) : result extAcc :=
  match fields with
  | [] => Ok a
  | f :: fs => a' ← step e tag f a; steps e tag fs a'
  end.


(** *** Scopes taken from the cork queue *)

(** Parents come before their children in the queue. *)
Definition scopes_wf (q : list tagEntryInfo) : Prop :=
  forall i t, (0 < i)%nat -> q !! i = Some t ->
    0 <= scopeIndex (extensionFields t) < Z.of_nat i.

(** The entries on the parent chain of the entry at index [i], that entry
    first, following the [scopeIndex] links down to 0. *)
Fixpoint parentChain (fuel : nat) (q : list tagEntryInfo) (i : Z)
  : list tagEntryInfo :=
  match fuel with
  | O => []
  | S fuel' =>
      if 0 <? i then
        match q !! Z.to_nat i with
        | Some t => t :: parentChain fuel' q (scopeIndex (extensionFields t))
        | None => []
        end
      else []
  end.

(** The strings of a list joined with dots. *)
Fixpoint dotJoin (l : list cstr) : cstr :=
  match l with
  | [] => []
  | [x] => x
  | x :: l' => x ++ lit "." ++ dotJoin l'
  end.

(** A name that is rendered as it is: no control character and no
    backslash. *)
Definition plainName (s : cstr) : Prop :=
  Forall (fun c => isControl c = false /\ c <> BACKSLASH) s.


(** *** The cork queue *)

(** The cork queue as the functions of entry.c keep it: [count] slots
    written, the first being the slot of [corkTagFile]. *)
Definition queue_wf (s : tagFile) : Prop :=
  corkQueue_count s = Z.of_nat (length (corkQueue_queue s))
  /\ 1 <= corkQueue_count s.

(** A cork session is open. *)
Definition in_session (s : tagFile) : Prop := 0 < cork s /\ queue_wf s.

(** The name of the tag is the empty string. *)
Definition emptyName (tag : tagEntryInfo) : bool :=
  Ascii.eqb (at_index (name tag) 0) NUL.

(** The line of the input file that a tag points to can be read, and
    gives a pattern. *)
Definition lineReadable (e : env) (tag : tagEntryInfo) : Prop :=
  exists line seek,
    readLineFromBypass e (filePosition tag) = Some (line, seek)
    /\ patternLine tag line <> [].

(** A tag that [makeTagEntry] does not drop, and whose copy can be made. *)
Definition queueable (e : env) (tag : tagEntryInfo) : Prop :=
  (emptyName tag = false \/ placeholder tag = true)
  /\ (pattern tag <> None \/ lineNumberEntry tag = true
      \/ lineReadable e tag).

(** The copy of a tag in the queue: the tag, with a pattern. *)
Definition copyOf (slot tag : tagEntryInfo) : Prop :=
  slot = set_pattern (pattern slot) tag
  /\ (pattern tag <> None -> pattern slot = pattern tag).

(** Writing the tags of a list, one after the other. *)
Fixpoint writeAll (e : env) (tags : list tagEntryInfo) (s : tagFile)
  : result tagFile :=
  match tags with
  | [] => Ok s
  | t :: ts => s' ← writeTagEntry e t s; writeAll e ts s'
  end.

(** The depth of the cork and the queue. *)
Definition corkState (s : tagFile) : Z * list tagEntryInfo * Z * Z :=
  (cork s, corkQueue_queue s, corkQueue_length s, corkQueue_count s).

(** What the functions that write a tag leave alone: the depth, the queue
    and the warnings. *)
Definition sameCork (s s' : tagFile) : Prop :=
  corkState s' = corkState s /\ warnings s' = warnings s.

(** The tags of a list handed to [makeTagEntry], one after the other:
    the values returned and the tag file at the end. *)
Fixpoint makeTagEntries (e : env) (tags : list tagEntryInfo) (s : tagFile)
  : result (list Z * tagFile) :=
  match tags with
  | [] => Ok ([], s)
  | t :: ts =>
      '(r, s1) ← makeTagEntry e t s;
      '(rs, s2) ← makeTagEntries e ts s1;
      Ok (r :: rs, s2)
  end.

(** The value of a hexadecimal digit as [valueToXDigit] writes it. *)
Definition xdigitValue (c : ascii) : option Z :=
  let n := code c in
  if (48 <=? n) && (n <=? 57) then Some (n - 48)
  else if (65 <=? n) && (n <=? 70) then Some (n - 55)
  else None.

(** Reading back one character written by [escapeChar]. *)
Definition unescapeChar (s : cstr) : option (ascii * cstr) :=
  match s with
  | [] => None
  | c :: r =>
      if Ascii.eqb c BACKSLASH then
        match r with
        | [] => None
        | k :: r' =>
            if Ascii.eqb k "a" then Some (ascii_of_N 7, r')
            else if Ascii.eqb k "b" then Some (ascii_of_N 8, r')
            else if Ascii.eqb k "t" then Some (TAB, r')
            else if Ascii.eqb k "n" then Some (NEWLINE, r')
            else if Ascii.eqb k "v" then Some (ascii_of_N 11, r')
            else if Ascii.eqb k "f" then Some (FORMFEED, r')
            else if Ascii.eqb k "r" then Some (CRETURN, r')
            else if Ascii.eqb k BACKSLASH then Some (BACKSLASH, r')
            else if Ascii.eqb k "x" then
              match r' with
              | h :: l :: r'' =>
                  match xdigitValue h, xdigitValue l with
                  | Some a, Some b => Some (ascii_of_N (Z.to_N (16 * a + b)), r'')
                  | _, _ => None
                  end
              | _ => None
              end
            else None
        end
      else Some (c, r)
  end.

(** Reading back a text written by [renderEscapedString], in at most [n]
    characters. *)
Fixpoint unescape (n : nat) (s : cstr) : option cstr :=
  match s, n with
  | [], _ => Some []
  | _ :: _, O => None
  | _ :: _, S n' =>
      match unescapeChar s with
      | Some (c, r) =>
          match unescape n' r with
          | Some rest => Some (c :: rest)
          | None => None
          end
      | None => None
      end
  end.

Definition unescapeString (s : cstr) : option cstr := unescape (length s) s.

(** The file name that goes to the second column. *)
Definition fileColumn (e : env) (tag : tagEntryInfo) : cstr :=
  match sourceFileName tag with
  | Some src => if lineDirectives (opts e) then src else inputFileName tag
  | None => inputFileName tag
  end.

(** The line number that goes to the third column of a line-number
    entry: under line directives the [long] that
    [renderFieldLineNumber] prints, and else the [unsigned long] of the
    tag. *)
Definition lineColumn (e : env) (tag : tagEntryInfo) : Z :=
  if lineDirectives (opts e)
  then if negb (sourceLineNumberDifference tag =? 0)
       then to_long (lineNumber tag) + sourceLineNumberDifference tag
       else to_long (lineNumber tag)
  else lineNumber tag.

(** A pattern is a search: it begins with [/] or [?]. *)
Definition isSearch (pat : cstr) : Prop :=
  exists c more, pat = c :: more /\ (c = "/"%char \/ c = "?"%char).

(** A tag whose line in the tag file can be read back: its name is
    neither empty nor begins with [#], its file name is neither empty nor
    ends in [;], and its address is a search or a line number. *)
Definition recognisable (e : env) (s : tagFile) (tag : tagEntryInfo) : Prop :=
  name tag <> [] /\ head (name tag) <> Some "#"%char
  /\ fileColumn e tag <> [] /\ last (fileColumn e tag) <> Some ";"%char
  /\ (if lineNumberEntry tag then 0 <= lineColumn e tag
      else match pattern tag with
           | Some pat => isSearch pat
           | None => patternCacheValid s = true -> isSearch (cached_pattern s)
           end).

(** The counters of the tag file. *)
Definition stats (s : tagFile) : Z * Z * Z :=
  (numTags_added s, max_tag s, max_line s).

(** The pattern cache holds the pattern of the line at its position. *)
Definition cacheSound (e : env) (s : tagFile) : Prop :=
  patternCacheValid s = true ->
  exists line seek,
    readLineFromBypass e (cached_location s) = Some (line, seek)
    /\ line <> [] /\ cached_pattern s = patternOf e line.

(** The pattern of a tag, built from its line without the cache. *)
Definition patternText (e : env) (tag : tagEntryInfo) : result cstr :=
  match readLineFromBypass e (filePosition tag) with
  | None => Fatal (lit "bad tag in " ++ getInputFileName e)
  | Some (line0, _) =>
      match patternLine tag line0 with
      | [] => Undefined
      | _ :: _ => Ok (patternOf e (patternLine tag line0))
      end
  end.

(** The third column of the line of a tag. *)
Definition addrText (e : env) (tag : tagEntryInfo) : result cstr :=
  if lineNumberEntry tag
  then if lineDirectives (opts e) then renderFieldLineNumber e tag
       else Ok (decimal (lineNumber tag))
  else match pattern tag with
       | Some pat => Ok pat
       | None => patternText e tag
       end.

(** The line of a tag in the ctags format. *)
Definition entryLine (e : env) (s : tagFile) (tag : tagEntryInfo)
  : result cstr :=
  nm ← renderFieldName e tag;
  addr ← addrText e tag;
  suffix ← (if includeExtensionFlags e then extensionSuffix e s tag
            else Ok []);
  Ok (nm ++ [TAB] ++ renderEscapedString (fileColumn e tag) ++ [TAB]
      ++ addr ++ suffix ++ [NEWLINE]).

(** A tag with a name and a kind that is no placeholder and names no
    scope in the queue. *)
Definition plainTag (tag : tagEntryInfo) : Prop :=
  placeholder tag = false /\ emptyName tag = false
  /\ scopeIndex (extensionFields tag) = SCOPE_NIL /\ kind tag <> None.

(** A slot of the queue whose line is [line], whatever the tag file. *)
Definition slotLine (e : env) (slot : tagEntryInfo) (line : cstr) : Prop :=
  placeholder slot = false /\ kind slot <> None
  /\ forall s, entryLine e s slot = Ok line.

(** *** Sessions of the cork *)

(** The calls on the cork and the writer that a parser makes. *)
Inductive sessionOp :=
| OpCork
| OpUncork
| OpMake (tag : tagEntryInfo).

(** The calls of a list, one after the other. *)
Fixpoint runOps (e : env) (ops : list sessionOp) (s : tagFile)
  : result tagFile :=
  match ops with
  | [] => Ok s
  | OpCork :: rest => runOps e rest (corkTagFile s)
  | OpUncork :: rest => s' ← uncorkTagFile e s; runOps e rest s'
  | OpMake tag :: rest => '(_, s') ← makeTagEntry e tag s; runOps e rest s'
  end.

(** The tags that the calls submit, in the order of the calls. *)
Fixpoint madeBy (ops : list sessionOp) : list tagEntryInfo :=
  match ops with
  | [] => []
  | OpMake tag :: rest => tag :: madeBy rest
  | _ :: rest => madeBy rest
  end.

(** The depth of the cork after the calls, [d] being the depth before:
    a counter that [corkTagFile] steps up and [uncorkTagFile] down. *)
Fixpoint depthAfter (d : Z) (ops : list sessionOp) : Z :=
  match ops with
  | [] => d
  | OpCork :: rest => depthAfter (d + 1) rest
  | OpUncork :: rest => depthAfter (d - 1) rest
  | OpMake _ :: rest => depthAfter d rest
  end.

(** No call of [uncorkTagFile] among the calls brings the depth, [d]
    before them, to zero: the session stays open. *)
Fixpoint staysOpen (d : Z) (ops : list sessionOp) : bool :=
  match ops with
  | [] => true
  | OpCork :: rest => staysOpen (d + 1) rest
  | OpUncork :: rest => (1 <? d) && staysOpen (d - 1) rest
  | OpMake _ :: rest => staysOpen d rest
  end.

(** A tag with the address of its line at hand: a line number or a
    pattern. *)
Definition addressed (tag : tagEntryInfo) : Prop :=
  lineNumberEntry tag = true \/ pattern tag <> None.

(** The tags of a list that are written: those that are no
    placeholders. *)
Definition written (tags : list tagEntryInfo) : list tagEntryInfo :=
  filter (fun t => placeholder t = false) tags.

End EntryNotions.

(** ** Example data *)

Module EntryExamples.
Import CStr Options Outcome Entry EntryNotions.

Definition optL (limit : Z) : options :=
  mkOptions 2 SO_UNSORTED false false false false limit false false false None.

Definition envL (limit : Z) (line : cstr) : env :=
  mkEnv (optL limit) (fun t => fd_enabled (fieldDescs t)) (lit "UCTAGS")
        (fun p => if p =? 10 then Some (line, 10) else None)
        (fun _ _ => None) false (lit "a.c") (fun _ _ => []) 1.

Definition tagAt10 : tagEntryInfo :=
  mkTag false false false false false 1 None (Some (lit "C")) 10
        (lit "a.c") (lit "main") None
        (mkExt None None None None None None None None None 0 0) None None 0.

Definition mainLine : cstr := lit "int main(void) {" ++ [NEWLINE].

(** An input file of three lines, read at the positions 10, 20 and 30. *)
Definition exampleSource (p : Z) : option (cstr * Z) :=
  if p =? 10 then Some (mainLine, 10)
  else if p =? 20 then Some (lit "class Foo {" ++ [NEWLINE], 20)
  else if p =? 30 then Some (lit "  void bar() {}" ++ [NEWLINE], 30)
  else None.

(** The extended format with the fields enabled as the table of field.c
    has them: the kind letter, the scope, the file scope marker, the
    inheritance, the signature and the type reference. *)
Definition exampleEnv : env :=
  mkEnv (optL 96) (fun t => fd_enabled (fieldDescs t)) (lit "UCTAGS")
        exampleSource (fun _ _ => None) false (lit "a.c") (fun _ _ => []) 1.

Definition kindFunction : kindOption :=
  mkKind true "f" (Some (lit "function")) None false [].

Definition kindClass : kindOption :=
  mkKind true "c" (Some (lit "class")) None false [].

Definition noExtension : extensionFieldsT :=
  mkExt None None None None None None None None None 0 0.

Definition inScope (i : Z) : extensionFieldsT :=
  mkExt None None None None None None None None None i 0.

Definition tagMain : tagEntryInfo :=
  mkTag false false false false false 1 None (Some (lit "C")) 10
        (lit "a.c") (lit "main") (Some kindFunction) noExtension None None 0.

Definition tagFoo : tagEntryInfo :=
  mkTag false false false false false 2 None (Some (lit "C++")) 20
        (lit "a.cc") (lit "Foo") (Some kindClass) noExtension None None 0.

Definition tagBar : tagEntryInfo :=
  mkTag false false false false false 3 None (Some (lit "C++")) 30
        (lit "a.cc") (lit "bar") (Some kindFunction) (inScope 1) None None 0.

(** A class that is a placeholder, with a member. *)
Definition tagHidden : tagEntryInfo :=
  mkTag false false false false true 2 None (Some (lit "C++")) 20
        (lit "a.cc") (lit "Foo") (Some kindClass) noExtension None None 0.

(** A namespace as PHP names it, with a backslash. *)
Definition kindNamespace : kindOption :=
  mkKind true "n" (Some (lit "namespace")) None false [].

Definition tagNamespace : tagEntryInfo :=
  mkTag false false false false false 2 None (Some (lit "PHP")) 20
        (lit "a.cc") (lit "App\Models") (Some kindNamespace) noExtension
        None None 0.

(** A tag without a name. *)
Definition tagNull : tagEntryInfo :=
  mkTag false false false false false 1 None (Some (lit "C")) 10
        (lit "a.c") [] (Some kindFunction) noExtension None None 0.

(** The tag file after [tags] were made in a cork session opened on the
    empty tag file. *)
Definition corked (tags : list tagEntryInfo) : tagFile :=
  match makeTagEntries exampleEnv tags (corkTagFile TagFile0) with
  | Ok (_, s) => s
  | _ => TagFile0
  end.

(** The text of the tag file after the session is closed. *)
Definition flushed (tags : list tagEntryInfo) : option cstr :=
  match uncorkTagFile exampleEnv (corked tags) with
  | Ok s => Some (fp s)
  | _ => None
  end.

(** The program as the build names it, for examples. *)
Definition exampleProgram : programInfo :=
  mkProgram (lit "Universal Ctags Team") (lit "Universal Ctags")
            (lit "https://ctags.io/") (lit "0.0.0") None None.

End EntryExamples.

(* ###################################################################### *)
(** * Part II: the properties *)
(* ###################################################################### *)

(** ** The field registry *)

Module FieldProps.
Import CStr Field FieldNotions.

Lemma init_fixed_ok prefix : Forall fixed_ok (fieldObjects (initFieldObjects prefix)).
Proof.
  unfold initFieldObjects; simpl.
  repeat constructor; unfold fixed_ok; simpl; intros; try discriminate; split; try reflexivity; discriminate.
Qed.

Lemma getFieldObject_Some r type o :
  getFieldObject r type = Some o ->
  0 <= type /\ fieldObjects r !! Z.to_nat type = Some o.
Proof.
  unfold getFieldObject. destruct (type <? 0) eqn:E; [discriminate|].
  apply Z.ltb_ge in E. auto.
Qed.

Lemma updateSiblingField_loop_shape i type nm objs :
  Forall2 (fun a b => def b = def a /\ fixed b = fixed a) objs
          (updateSiblingField_loop i type nm objs).
Proof.
  induction i as [|j IH]; simpl.
  - apply Forall2_same_length_lookup. split; [done|]. intros k a b H1 H2. rewrite H1 in H2. by inversion H2.
  - destruct (objs !! j) as [fobj|] eqn:E; [|exact IH].
    destruct (same_name _ _); [|exact IH].
    apply Forall2_same_length_lookup. split; [by rewrite length_insert|].
    intros k a b H1 H2.
    destruct (decide (j = k)) as [->|Hne].
    + rewrite list_lookup_insert_eq in H2 by (eapply lookup_lt_Some; eauto).
      rewrite E in H1. inversion H1; inversion H2; subst. done.
    + rewrite list_lookup_insert_ne in H2 by done. rewrite H1 in H2. by inversion H2.
Qed.

Lemma reachable_fixed_ok prefix r :
  reachable prefix r -> Forall fixed_ok (fieldObjects r).
Proof.
  induction 1 as [|r type state w old r' Hr IH He|r d lang t r' Hr IH Hd].
  - apply init_fixed_ok.
  - unfold enableField in He.
    destruct (getFieldObject r type) as [fobj|] eqn:G; [|discriminate].
    apply getFieldObject_Some in G as [_ G].
    destruct (fixed fobj) eqn:F.
    + destruct (negb state && w); inversion He; subst; clear He;
        [unfold warn; destruct (fixedFieldWarning _)|]; exact IH.
    + inversion He; subst; clear He. simpl.
      apply Forall_insert; [exact IH|].
      unfold fixed_ok. simpl. rewrite F. discriminate.
  - unfold defineField in Hd.
    destruct (name d) as [nm|]; [|discriminate].
    inversion Hd; subst; clear Hd. simpl.
    eapply Forall2_Forall_r; [apply updateSiblingField_loop_shape|].
    apply Forall_app. split.
    + eapply Forall_impl; [exact IH|].
      intros a Ha b [Hdef Hfix]. unfold fixed_ok in *. rewrite Hdef, Hfix. exact Ha.
    + constructor; [|constructor].
      intros b [Hdef Hfix]. unfold fixed_ok. rewrite Hfix. simpl. discriminate.
Qed.

Lemma enableField_nonfixed r type state w o :
  getFieldObject r type = Some o -> fixed o = false ->
  exists r',
    enableField type state w r = Some (enabled (def o), r')
    /\ getFieldObject r' type = Some (set_enabled state o)
    /\ warnings r' = warnings r.
Proof.
  intros G F. unfold enableField. rewrite G, F.
  eexists. split; [reflexivity|]. split; [|reflexivity].
  apply getFieldObject_Some in G as [H0 G].
  unfold getFieldObject. simpl.
  destruct (type <? 0) eqn:E; [apply Z.ltb_lt in E; lia|].
  apply list_lookup_insert_eq. eapply lookup_lt_Some; eauto.
Qed.

Lemma toggle3_nonfixed r type w o :
  getFieldObject r type = Some o -> fixed o = false ->
  toggle3 type w r = Some true.
Proof.
  intros G F. unfold toggle3.
  destruct (enableField_nonfixed r type true w o G F) as (r1 & E1 & G1 & _).
  rewrite E1. simpl.
  destruct (enableField_nonfixed r1 type false w _ G1 F) as (r2 & E2 & G2 & _).
  rewrite E2. simpl.
  destruct (enableField_nonfixed r2 type true w _ G2 F) as (r3 & E3 & G3 & _).
  rewrite E3. simpl.
  unfold isFieldEnabled. rewrite G3. reflexivity.
Qed.

(** C7: on a registry the program can reach, [enableField] returns the
    state the field had before the call.  For a field that is not fixed
    the field is then in the state asked for, so that enabling,
    disabling and enabling it again leaves it enabled, whatever it was at
    first.  For a fixed field the state stays [true] and the registry is
    unchanged but for the warning, which is logged exactly when the call
    asks to disable the field and the warn flag is set. *)
Theorem C7_enableField prefix r type o state w :
  reachable prefix r ->
  getFieldObject r type = Some o ->
  exists r',
    enableField type state w r = Some (enabled (def o), r')
    /\ isFieldEnabled r type = Some (enabled (def o))
    /\ (fixed o = false ->
        isFieldEnabled r' type = Some state
        /\ toggle3 type w r = Some true)
    /\ (fixed o = true ->
        isFieldEnabled r' type = Some true
        /\ fieldObjects r' = fieldObjects r
        /\ if negb state && w
           then exists m, warnings r' = warnings r ++ [m]
           else warnings r' = warnings r).
Proof.
  intros Hr G.
  assert (Hq : isFieldEnabled r type = Some (enabled (def o)))
    by (unfold isFieldEnabled; rewrite G; reflexivity).
  destruct (fixed o) eqn:F.
  - pose proof (reachable_fixed_ok _ _ Hr) as Hall.
    pose proof G as G'. apply getFieldObject_Some in G' as [_ G'].
    rewrite Forall_lookup in Hall. specialize (Hall _ _ G' F) as [Hen Hw].
    unfold enableField. rewrite G, F.
    destruct (negb state && w) eqn:C.
    + destruct (fixedFieldWarning (def o)) as [m|] eqn:W; [|done].
      eexists. split; [reflexivity|]. split; [exact Hq|].
      split; [discriminate|]. intros _. simpl.
      split; [|split; [reflexivity|eauto]].
      unfold isFieldEnabled, getFieldObject in *. simpl. rewrite Hq, Hen. reflexivity.
    + eexists. split; [reflexivity|]. split; [exact Hq|].
      split; [discriminate|]. intros _.
      split; [rewrite Hq, Hen; reflexivity|done].
  - destruct (enableField_nonfixed r type state w o G F) as (r' & E & G1 & _).
    exists r'. split; [exact E|]. split; [exact Hq|].
    split; [|discriminate]. intros _. split.
    + unfold isFieldEnabled. rewrite G1. reflexivity.
    + eapply toggle3_nonfixed; eauto.
Qed.

Lemma C7_enableField_witness :
  exists r',
    enableField 0 false true (initFieldObjects (lit "UCTAGS"))
      = Some (true, r')
    /\ isFieldEnabled r' 0 = Some true.
Proof.
  destruct (C7_enableField (lit "UCTAGS") (initFieldObjects (lit "UCTAGS")) 0
              (mkObj (DEFINE_FIELD "N" (Some "name"%string) true) true
                     (Some (lit "name")) LANG_IGNORE FIELD_UNKNOWN)
              false true (reach_init _) eq_refl)
    as (r' & E & _ & _ & Hf).
  exists r'. split; [exact E|]. apply Hf. reflexivity.
Defined.

(** The access field (letter [a]) is disabled at first and not fixed:
    after enabling, disabling and enabling, the query returns [true], not
    the initial [false]. *)
Lemma C7_initially_disabled_field_ends_enabled :
  option_map (fun o => (letter (def o), fixed o))
    (getFieldObject (initFieldObjects (lit "UCTAGS")) 4)
  = Some ("a"%char, false)
  /\ isFieldEnabled (initFieldObjects (lit "UCTAGS")) 4 = Some false
  /\ toggle3 4 false (initFieldObjects (lit "UCTAGS")) = Some true.
Proof. repeat split; reflexivity. Qed.

End FieldProps.

(** ** Recognising a tag file *)

Module CheckProps.
Import CStr Options TagFileCheck CheckNotions.

Lemma span_spec p s m r :
  span p s = (m, r) ->
  s = m ++ r /\ forallb p m = true
  /\ (r = [] \/ exists c r', r = c :: r' /\ p c = false).
Proof.
  revert m r. induction s as [|x s IH]; intros m r H; simpl in H.
  - inversion H; subst. auto.
  - destruct (p x) eqn:P.
    + destruct (span p s) as [m' r'] eqn:S. inversion H; subst.
      destruct (IH _ _ eq_refl) as (E & F & R). subst s. simpl. rewrite P. auto.
    + inversion H; subst. split; [done|]. split; [done|]. right. eauto.
Qed.

Lemma span_app p m r :
  forallb p m = true ->
  (r = [] \/ exists c r', r = c :: r' /\ p c = false) ->
  span p (m ++ r) = (m, r).
Proof.
  intros F R. induction m as [|x m IH]; simpl in *.
  - destruct R as [->|(c & r' & -> & P)]; simpl; [done|]. by rewrite P.
  - apply andb_true_iff in F as [Px F]. rewrite Px, IH by done. done.
Qed.

Lemma scanset_spec p s m r :
  scanset p s = Some (m, r) ->
  s = m ++ r /\ m <> [] /\ forallb p m = true
  /\ (r = [] \/ exists c r', r = c :: r' /\ p c = false).
Proof.
  unfold scanset. destruct (span p s) as [m' r'] eqn:S.
  destruct m' as [|x m']; [discriminate|]. intros H; inversion H; subst.
  destruct (span_spec _ _ _ _ S) as (E & F & R). done.
Qed.

Lemma scanset_app p m r :
  m <> [] -> forallb p m = true ->
  (r = [] \/ exists c r', r = c :: r' /\ p c = false) ->
  scanset p (m ++ r) = Some (m, r).
Proof.
  intros N F R. unfold scanset. rewrite span_app by done.
  destruct m; done.
Qed.

Lemma forallb_not_in (c : ascii) (s : cstr) :
  forallb (fun x => negb (Ascii.eqb x c)) s = true <-> ~ In c s.
Proof.
  induction s as [|x s IH]; simpl; [tauto|].
  rewrite andb_true_iff, IH, negb_true_iff, Ascii.eqb_neq. intuition congruence.
Qed.

Lemma notEol_forallb (s : cstr) :
  forallb notEol s = true <-> ~ In CRETURN s /\ ~ In NEWLINE s.
Proof.
  induction s as [|x s IH]; simpl; [tauto|].
  rewrite andb_true_iff, IH. unfold notEol. rewrite negb_true_iff, orb_false_iff, !Ascii.eqb_neq.
  intuition congruence.
Qed.

Lemma mem_In c set : mem c set = true <-> In c set.
Proof.
  unfold mem. rewrite existsb_exists. split.
  - intros (x & Hx & E). apply Ascii.eqb_eq in E. by subst.
  - intros H. exists c. split; [done|]. apply Ascii.eqb_refl.
Qed.

Lemma all_in_Forall accept s : all_in accept s = true <-> Forall (fun c => In c accept) s.
Proof.
  unfold all_in. rewrite forallb_forall, Forall_forall.
  split; intros H x Hx.
  - apply mem_In, H. by apply list_elem_of_In.
  - apply mem_In, H. by apply list_elem_of_In.
Qed.

Lemma digit_notSemiOrNewline c : digit c -> notSemiOrNewline c = true.
Proof.
  unfold digit. simpl. intros H.
  repeat (destruct H as [<-|H]; [reflexivity|]). destruct H.
Qed.

Lemma digit_not_search c : digit c -> mem c (lit "/?") = false.
Proof.
  unfold digit. simpl. intros H.
  repeat (destruct H as [<-|H]; [reflexivity|]). destruct H.
Qed.

Lemma isValidTagAddress_spec excmd :
  excmd <> [] -> ~ In NEWLINE excmd ->
  isValidTagAddress excmd = true <-> acceptableExcmd excmd.
Proof.
  intros Hne Hnl. destruct excmd as [|c0 excmd0]; [done|]. clear Hne.
  unfold isValidTagAddress, acceptableExcmd.
  destruct (mem c0 (lit "/?")) eqn:M.
  - split; [|done]. intros _. left. exists c0, excmd0. split; [done|].
    apply mem_In in M. simpl in M. intuition.
  - simpl scan_fields.
    destruct (scanset notSemiOrNewline (c0 :: excmd0)) as [[address r]|] eqn:S.
    + apply scanset_spec in S as (E & N & F & R).
      rewrite Z.eqb_refl. simpl. rewrite all_in_Forall. split.
      * intros D. right. exists address, r. repeat split; try done.
        destruct R as [->|(c & r' & -> & P)]; [by left|right].
        exists r'. f_equal. unfold notSemiOrNewline in P.
        apply negb_false_iff, orb_true_iff in P as [P|P]; apply Ascii.eqb_eq in P; [done|].
        subst c. exfalso. apply Hnl. rewrite E. apply in_or_app. right. by left.
      * intros [(c & rest & Ec & Hc)|(digits & rest & Ed & Nd & Fd & Rd)].
        { inversion Ec; subst. exfalso.
          assert (In c (lit "/?")) as I by (simpl; intuition).
          apply mem_In in I. congruence. }
        assert (scanset notSemiOrNewline (c0 :: excmd0) = Some (digits, rest)) as S'.
        { rewrite Ed. apply scanset_app; [done| |].
          - apply forallb_forall. intros x Hx. apply digit_notSemiOrNewline.
            rewrite Forall_forall in Fd. apply Fd. by apply list_elem_of_In.
          - destruct Rd as [->|(rest' & ->)]; [by left|right]. eauto. }
        assert (scanset notSemiOrNewline (c0 :: excmd0) = Some (address, r)) as S''.
        { rewrite E. apply scanset_app; done. }
        rewrite S' in S''. inversion S''; subst. done.
    + split; [done|].
      intros [(c & rest & Ec & Hc)|(digits & rest & Ed & Nd & Fd & Rd)].
      * inversion Ec; subst. exfalso.
        assert (In c (lit "/?")) as I by (simpl; intuition).
        apply mem_In in I. congruence.
      * exfalso.
        assert (scanset notSemiOrNewline (c0 :: excmd0) = Some (digits, rest)) as S'.
        { rewrite Ed. apply scanset_app; [done| |].
          - apply forallb_forall. intros x Hx. apply digit_notSemiOrNewline.
            rewrite Forall_forall in Fd. apply Fd. by apply list_elem_of_In.
          - destruct Rd as [->|(rest' & ->)]; [by left|right]. eauto. }
        congruence.
Qed.

Lemma at_index_head (s : cstr) (c : ascii) :
  s <> [] -> (Ascii.eqb (at_index s 0) c = false <-> head s <> Some c).
Proof.
  destruct s as [|x s]; [done|]. intros _. simpl.
  rewrite Ascii.eqb_neq. split; intros H E; apply H; [by inversion E|by subst].
Qed.

Lemma at_index_last (s : cstr) (c : ascii) :
  s <> [] ->
  (Ascii.eqb (at_index s (length s - 1)) c = false <-> last s <> Some c).
Proof.
  intros N. rewrite last_lookup. unfold at_index. rewrite nth_lookup.
  replace (Init.Nat.pred (length s)) with (length s - 1)%nat by lia.
  destruct (s !! (length s - 1)%nat) as [x|] eqn:E.
  - simpl. rewrite Ascii.eqb_neq.
    split; intros H E'; apply H; [by inversion E'|by subst].
  - apply lookup_ge_None in E. destruct s; [done|]. simpl in E. lia.
Qed.

Lemma isTab_run (m : cstr) :
  forallb isTab m = true -> length m = 1%nat -> m = [TAB].
Proof.
  destruct m as [|x [|y m]]; try done. simpl. intros H _.
  apply andb_true_iff in H as [H _]. apply Ascii.eqb_eq in H. by subst.
Qed.

Lemma notTab_forallb (s : cstr) : forallb notTab s = true <-> ~ In TAB s.
Proof. apply forallb_not_in. Qed.

Lemma scan_fields_cons p sets m r :
  scanset p (m ++ r) = Some (m, r) ->
  scan_fields (p :: sets) (m ++ r) = m :: scan_fields sets r.
Proof. intros H. simpl. by rewrite H. Qed.

Lemma isCtagsLine_spec line : isCtagsLine line = true <-> ctagsLine line.
Proof.
  unfold isCtagsLine. split.
  - simpl scan_fields.
    destruct (scanset notTab line) as [[tag r1]|] eqn:S1; [|done].
    destruct (scanset isTab r1) as [[tab1 r2]|] eqn:S2; [|done].
    destruct (scanset notTab r2) as [[file r3]|] eqn:S3; [|done].
    destruct (scanset isTab r3) as [[tab2 r4]|] eqn:S4; [|done].
    destruct (scanset notEol r4) as [[excmd rest]|] eqn:S5; [|done].
    apply scanset_spec in S1 as (E1 & N1 & F1 & R1).
    apply scanset_spec in S2 as (E2 & N2 & F2 & R2).
    apply scanset_spec in S3 as (E3 & N3 & F3 & R3).
    apply scanset_spec in S4 as (E4 & N4 & F4 & R4).
    apply scanset_spec in S5 as (E5 & N5 & F5 & R5).
    rewrite !andb_true_iff, !negb_true_iff. intros (((((_ & L1) & L2) & H1) & H2) & H3).
    apply Nat.eqb_eq in L1, L2.
    apply isTab_run in F2; [|done]. apply isTab_run in F4; [|done]. subst tab1 tab2.
    apply notEol_forallb in F5 as [F5a F5b].
    exists tag, file, excmd, rest. subst. repeat split; try done.
    + by apply notTab_forallb.
    + by apply at_index_head.
    + by apply notTab_forallb.
    + by apply at_index_last.
    + destruct R5 as [->|(c & r' & -> & P)]; [by left|right].
      exists c, r'. split; [done|]. unfold notEol in P.
      apply negb_false_iff, orb_true_iff in P as [P|P]; apply Ascii.eqb_eq in P; auto.
    + by apply isValidTagAddress_spec.
  - intros (tag & file & excmd & rest & E & N1 & T1 & H1 & N2 & T2 & H2 & N3 & C3 & L3 & R & A).
    assert (Hfile : exists c file', file = c :: file' /\ isTab c = false).
    { destruct file as [|c file']; [done|]. exists c, file'. split; [done|].
      apply Ascii.eqb_neq. intros ->. apply T2. by left. }
    assert (Hex : exists c excmd', excmd = c :: excmd' /\ isTab c = false).
    { destruct excmd as [|c excmd']; [done|]. exists c, excmd'. split; [done|].
      apply Ascii.eqb_neq. intros ->.
      destruct A as [(c & r & Ec & [Hc|Hc])|(d & r & Ed & Nd & Fd & _)].
      - inversion Ec; subst. discriminate.
      - inversion Ec; subst. discriminate.
      - destruct d as [|x d]; [done|]. inversion Ed; subst.
        apply Forall_cons in Fd as [Fd _]. unfold digit in Fd. simpl in Fd.
        intuition discriminate. }
    assert (SF : scan_fields [notTab; isTab; notTab; isTab; notEol] line
                 = [tag; [TAB]; file; [TAB]; excmd]).
    { rewrite E.
      rewrite (scan_fields_cons notTab _ tag ([TAB] ++ file ++ [TAB] ++ excmd ++ rest)).
      2:{ apply scanset_app; [done|by apply notTab_forallb|].
          right. eexists _, _. split; reflexivity. }
      rewrite (scan_fields_cons isTab _ [TAB] (file ++ [TAB] ++ excmd ++ rest)).
      2:{ apply scanset_app; [done|done|]. right.
          destruct Hfile as (c & file' & -> & P). eexists _, _. split; [reflexivity|done]. }
      rewrite (scan_fields_cons notTab _ file ([TAB] ++ excmd ++ rest)).
      2:{ apply scanset_app; [done|by apply notTab_forallb|].
          right. eexists _, _. split; reflexivity. }
      rewrite (scan_fields_cons isTab _ [TAB] (excmd ++ rest)).
      2:{ apply scanset_app; [done|done|]. right.
          destruct Hex as (c & excmd' & -> & P). eexists _, _. split; [reflexivity|done]. }
      rewrite (scan_fields_cons notEol _ excmd rest).
      2:{ apply scanset_app; [done|by apply notEol_forallb|].
          destruct R as [->|(c & r' & -> & [->| ->])]; [by left|right|right];
            eexists _, _; split; done. }
      reflexivity. }
    cbv zeta. rewrite SF.
    assert (sscanf_result line [tag; [TAB]; file; [TAB]; excmd] = NUM_FIELDS) as ->.
    { rewrite E. destruct tag; done. }
    rewrite Z.eqb_refl.
    apply at_index_head in H1; [|done]. apply at_index_last in H2; [|done].
    rewrite H1, H2. simpl. by apply isValidTagAddress_spec.
Qed.

Lemma isEtagsLine_spec line : isEtagsLine line = true <-> etagsLine line.
Proof.
  unfold isEtagsLine, etagsLine. split.
  - destruct line as [|a [|b rest]]; unfold at_index; simpl.
    + done.
    + destruct (Ascii.eqb a FORMFEED); done.
    + destruct (Ascii.eqb a FORMFEED) eqn:A; [|done].
      apply Ascii.eqb_eq in A. subst a. rewrite orb_true_iff, !Ascii.eqb_eq.
      intros H. exists b, rest. done.
  - intros (c & rest & -> & H). simpl.
    destruct H as [-> | ->]; reflexivity.
Qed.

(** C6: [openTagFile] refuses to overwrite exactly when the destination
    is a named file that exists and either cannot be opened for reading
    (for a reason other than its absence) or has a first line that is
    neither a ctags line nor an etags line.  A file that is absent, and a
    file that exists and is empty, are not refused. *)
Theorem C6_openTagFile_refuses opt d :
  openTagFile opt d = Refused
  <-> toStdout d = false
      /\ fileExists d = true
      /\ (forReading d = OpenFailed
          \/ exists line, forReading d = Opened (Some line)
                          /\ ~ ctagsLine line /\ ~ etagsLine line).
Proof.
  unfold openTagFile.
  destruct (toStdout d).
  { split; [done|]. intros (H & _); done. }
  destruct (fileExists d); simpl.
  2:{ split; [|intros (_ & H & _); done].
      destruct (forWriting d); simpl; [|done].
      destruct (etags opt), (append opt); done. }
  assert (T : isTagFile (forReading d) = false
              <-> forReading d = OpenFailed
                  \/ exists line, forReading d = Opened (Some line)
                                  /\ ~ ctagsLine line /\ ~ etagsLine line).
  { destruct (forReading d) as [| |[line|]]; simpl.
    - split; [done|]. intros [H|(l & H & _)]; done.
    - split; [auto|done].
    - rewrite orb_false_iff, <- !not_true_iff_false, isCtagsLine_spec, isEtagsLine_spec.
      split.
      + intros [H1 H2]. right. exists line. done.
      + intros [H|(l & H & H1 & H2)]; [done|]. inversion H; subst. done.
    - split; [done|]. intros [H|(l & H & _)]; done. }
  destruct (isTagFile (forReading d)) eqn:I; simpl.
  - split; [|intros (_ & _ & H); apply T in H; done].
    destruct (forWriting d); simpl; [|done].
    destruct (etags opt), (append opt); done.
  - split; [|done]. intros _. split; [done|]. split; [done|]. by apply T.
Qed.

(** A file that exists and cannot be read is refused, without any first
    line having been looked at. *)
Lemma C6_unreadable_file_is_refused :
  openTagFile defaultOptions unreadable = Refused
  /\ forall line, forReading unreadable <> Opened (Some line).
Proof. split; [reflexivity|discriminate]. Qed.

End CheckProps.

(** ** The sorted flag of an existing tag file *)

Module StreamProps.
Import CStr Options Stream StreamNotions.

Lemma eqb_code (a b : ascii) : (code a =? code b) = Ascii.eqb a b.
Proof.
  unfold code. destruct (Ascii.eqb a b) eqn:E.
  - apply Ascii.eqb_eq in E. subst. apply Z.eqb_refl.
  - apply Z.eqb_neq. intros H. apply Ascii.eqb_neq in E. apply E.
    apply N2Z.inj in H. rewrite <- (ascii_N_embedding a), <- (ascii_N_embedding b). congruence.
Qed.

Lemma strchr_Some s c k :
  strchr s c = Some k ->
  s !! k = Some c /\ strchr (take k s) c = None.
Proof.
  revert k. induction s as [|x s IH]; intros k H; simpl in H; [discriminate|].
  destruct (Ascii.eqb x c) eqn:E.
  - inversion H; subst. apply Ascii.eqb_eq in E. subst. done.
  - destruct (strchr s c) as [j|] eqn:S; [|discriminate]. inversion H; subst.
    destruct (IH j eq_refl) as [H1 H2]. simpl. rewrite E, H2. done.
Qed.

Lemma skip_loop_found pre post p :
  strchr pre TAB = None -> strchr pre NEWLINE = None ->
  skip_loop (pre ++ TAB :: post) p = Some (code TAB, (p + length pre + 1)%nat).
Proof.
  revert p. induction pre as [|x pre IH]; intros p HT HN; simpl.
  - f_equal. f_equal. lia.
  - simpl in HT, HN.
    destruct (Ascii.eqb x TAB) eqn:E1; [discriminate|].
    destruct (Ascii.eqb x NEWLINE) eqn:E2; [discriminate|].
    rewrite !eqb_code, E1, E2. simpl.
    destruct (strchr pre TAB); [discriminate|]. destruct (strchr pre NEWLINE); [discriminate|].
    rewrite IH by done. f_equal. f_equal. lia.
Qed.

Lemma skip_loop_pos rest p c q :
  skip_loop rest p = Some (c, q) -> (p < q <= p + length rest)%nat.
Proof.
  revert p. induction rest as [|x rest IH]; intros p H; simpl in H; [discriminate|].
  destruct (_ || _).
  - inversion H; subst. simpl. lia.
  - apply IH in H. simpl. lia.
Qed.

Lemma agrees_scan f start line tab :
  agrees_up_to_tab f start line -> strchr line TAB = Some tab ->
  skipToTabOrNewline (set_pos start f)
  = Some (code TAB, set_pos (start + tab + 1) f).
Proof.
  intros A T. destruct (A tab T) as [Hpre Hnl].
  destruct (strchr_Some _ _ _ T) as [Hk Hnt].
  unfold skipToTabOrNewline. simpl.
  assert (Hl : (tab < length line)%nat) by (eapply lookup_lt_Some; eauto).
  assert (Ht : take (S tab) line = take tab line ++ [TAB]).
  { erewrite take_S_r by eauto. done. }
  rewrite <- (take_drop (S tab) (drop start (bytes f))).
  rewrite Hpre, Ht, <- app_assoc. simpl.
  rewrite skip_loop_found by done.
  rewrite length_take. replace (tab `min` length line)%nat with tab by lia.
  done.
Qed.

Lemma isFlag01_code c : isFlag01 (code c) = true -> c = "0"%char \/ c = "1"%char.
Proof.
  unfold isFlag01. rewrite !eqb_code. intros H.
  apply orb_true_iff in H as [H|H]; apply Ascii.eqb_eq in H; auto.
Qed.

(** What one call changes, whatever the line handed in. *)
Lemma updateSortedFlag_frame sorted line fp start fp' ws :
  updateSortedFlag sorted line fp start = Some (fp', ws) ->
  length (bytes fp') = length (bytes fp)
  /\ pos fp' = pos fp
  /\ forall i, bytes fp' !! i <> bytes fp !! i ->
       (exists c, lineFlag line = Some c /\ (c = "0"%char \/ c = "1"%char))
       /\ (exists d, bytes fp !! i = Some d /\ (d = "0"%char \/ d = "1"%char))
       /\ bytes fp' !! i = Some (sortedFlag sorted)
       /\ skipToTabOrNewline (set_pos start fp)
          = Some (code TAB, set_pos i fp).
Proof.
  unfold updateSortedFlag, lineFlag.
  destruct (strchr line TAB) as [tab|] eqn:T.
  2:{ intros H; inversion H; subst. repeat split; try done. }
  destruct (isFlag01 (code (at_index line (S tab)))) eqn:F.
  2:{ intros H; inversion H; subst. repeat split; try done. }
  destruct (seekable fp) eqn:Sk; simpl.
  2:{ intros H; inversion H; subst. repeat split; try done. }
  destruct (skipToTabOrNewline (set_pos start fp)) as [[c fp1]|] eqn:K; [|discriminate].
  unfold skipToTabOrNewline in K. simpl in K.
  destruct (skip_loop (drop start (bytes fp)) start) as [[c' q]|] eqn:L; [|discriminate].
  inversion K; subst c' fp1; clear K.
  unfold fgetc. simpl.
  destruct (bytes fp !! q) as [dch|] eqn:D.
  - destruct ((c =? code TAB) && isFlag01 (code dch) && negb (code dch =? sortType_int sorted)) eqn:C.
    + intros H; inversion H; subst; clear H. unfold fputc. simpl.
      assert (Hq : (q < length (bytes fp))%nat) by (eapply lookup_lt_Some; eauto).
      destruct (q <? length (bytes fp))%nat eqn:Q; [|apply Nat.ltb_ge in Q; lia].
      simpl. rewrite length_insert. repeat split; try done.
      all: destruct (decide (q = i)) as [->|Hne];
        [|rewrite list_lookup_insert_ne in H by done; done].
      * exists (at_index line (S tab)). split; [done|]. by apply isFlag01_code.
      * exists dch. split; [done|].
        apply andb_true_iff in C as [C _]. apply andb_true_iff in C as [_ C].
        by apply isFlag01_code.
      * apply list_lookup_insert_eq. done.
      * apply andb_true_iff in C as [C _]. apply andb_true_iff in C as [C _].
        apply Z.eqb_eq in C. subst c. done.
    + intros H; inversion H; subst; clear H. simpl. repeat split; try done.
  - destruct ((c =? code TAB) && isFlag01 EOF && negb (EOF =? sortType_int sorted)) eqn:C.
    + apply andb_true_iff in C as [C _]. apply andb_true_iff in C as [_ C]. discriminate.
    + intros H; inversion H; subst; clear H. simpl. repeat split; try done.
Qed.

(** When the line handed to [updateSortedFlag] is the line of the file at
    [start] (up to its first tab), the call returns, the file keeps its
    length, and the only byte that can differ afterwards is the one
    immediately after the first tab of that line. *)
Lemma updateSortedFlag_in_place sorted line fp start :
  agrees_up_to_tab fp start line ->
  exists fp' ws,
    updateSortedFlag sorted line fp start = Some (fp', ws)
    /\ length (bytes fp') = length (bytes fp)
    /\ forall i, bytes fp' !! i <> bytes fp !! i ->
         exists tab, strchr line TAB = Some tab /\ i = (start + tab + 1)%nat.
Proof.
  intros A.
  assert (exists r, updateSortedFlag sorted line fp start = Some r) as [[fp' ws] E].
  { unfold updateSortedFlag.
    destruct (strchr line TAB) as [tab|] eqn:T; [|eauto].
    destruct (isFlag01 _); [|eauto].
    destruct (seekable fp); simpl; [|eauto].
    rewrite (agrees_scan _ _ _ _ A T).
    destruct (fgetc _) as [d fp2]. eauto. }
  exists fp', ws. split; [exact E|].
  destruct (updateSortedFlag_frame _ _ _ _ _ _ E) as (Hlen & _ & Hfr).
  split; [exact Hlen|]. intros i Hi.
  destruct (Hfr i Hi) as ((c & Hc & _) & _ & _ & Hs).
  unfold lineFlag in Hc. destruct (strchr line TAB) as [tab|] eqn:T; [|discriminate].
  exists tab. split; [done|].
  rewrite (agrees_scan _ _ _ _ A T) in Hs. inversion Hs. lia.
Qed.

Lemma headerFile_agrees flag : agrees_up_to_tab (headerFile flag) 38 (headerLine flag).
Proof.
  intros tab H. vm_compute in H. inversion H; subst. split; reflexivity.
Qed.

Example updateSortedFlag_in_place_header :
  exists fp' ws,
    updateSortedFlag SO_SORTED (headerLine "0") (headerFile "0") 38 = Some (fp', ws)
    /\ length (bytes fp') = length (bytes (headerFile "0"))
    /\ forall i, bytes fp' !! i <> bytes (headerFile "0") !! i ->
         exists tab, strchr (headerLine "0") TAB = Some tab /\ i = (38 + tab + 1)%nat.
Proof.
  exact (updateSortedFlag_in_place SO_SORTED (headerLine "0") (headerFile "0") 38
           (headerFile_agrees "0")).
Qed.

Example header_flag_rewritten :
  option_map (fun r => bytes (fst r))
    (updateSortedFlag SO_SORTED (headerLine "0") (headerFile "0") 38)
  = Some (bytes (headerFile "1")).
Proof. vm_compute. reflexivity. Qed.

(** The same through [updatePseudoTags], on the file opened at its start. *)
Example header_flag_rewritten_by_updatePseudoTags :
  option_map (fun r => (fst (fst r), bytes (snd (fst r)), snd r))
    (updatePseudoTags lineReader SO_SORTED 4 (set_pos 0 (headerFile "0")))
  = Some (3, bytes (headerFile "1"), []).
Proof. vm_compute. reflexivity. Qed.

(** C8: [updatePseudoTags] sets [startOfLine] before its loop and after
    the lines that begin with [!_TAG_FILE] only.  On a file whose first
    line is another pseudo-tag, [!_TAG_EXTRA<tab>0<tab>/none/], followed by
    the [!_TAG_FILE_SORTED] line with flag ['0'], the call made for the
    sorted line scans from the start of the file: the byte changed is the
    one after the first tab of the first line (offset 12), and the
    [!_TAG_FILE_SORTED] line, flag included, stays as it was.  (The first
    line is a ctags line, so that [openTagFile] takes the file.) *)
Theorem C8_stale_start_of_line :
  exists fp',
    updatePseudoTags lineReader SO_SORTED 4 extraFile = Some (3, fp', [])
    /\ TagFileCheck.isCtagsLine extraLine = true
    /\ bytes extraFile !! 12%nat = Some "0"%char
    /\ bytes fp' = <[12%nat := "1"%char]> (bytes extraFile)
    /\ take 55 (drop 21 (bytes extraFile)) = headerLine "0"
    /\ drop 21 (bytes fp') = drop 21 (bytes extraFile).
Proof.
  eexists. split; [vm_compute; reflexivity|].
  repeat split; vm_compute; reflexivity.
Qed.

(** C10: [updateSortedFlag] writes to the file only when the flag
    character after the first tab of the [!_TAG_FILE_SORTED] line is ['0']
    or ['1'] (the byte it overwrites is then ['0'] or ['1'] too); with any
    other flag character, such as the ['2'] that the program writes
    for a fold-sorted file, the call returns with the file, the position
    and the warnings as they were. *)
Theorem C10_flag_other_than_0_or_1 sorted line fp start :
  ((forall c, lineFlag line = Some c -> c <> "0"%char /\ c <> "1"%char) ->
   updateSortedFlag sorted line fp start = Some (fp, []))
  /\ (forall fp' ws i,
        updateSortedFlag sorted line fp start = Some (fp', ws) ->
        bytes fp' !! i <> bytes fp !! i ->
        (lineFlag line = Some "0"%char \/ lineFlag line = Some "1"%char)
        /\ (bytes fp !! i = Some "0"%char \/ bytes fp !! i = Some "1"%char))
  /\ sortedFlag SO_FOLDSORTED = "2"%char.
Proof.
  split; [|split; [|reflexivity]].
  - intros H. unfold updateSortedFlag, lineFlag in *.
    destruct (strchr line TAB) as [tab|]; [|done].
    destruct (isFlag01 _) eqn:F; [|done].
    apply isFlag01_code in F. destruct (H _ eq_refl) as [H0 H1].
    destruct F; done.
  - intros fp' ws i E Hi.
    destruct (updateSortedFlag_frame _ _ _ _ _ _ E) as (_ & _ & Hfr).
    destruct (Hfr i Hi) as ((c & Hc & [->| ->]) & (d & Hd & [->| ->]) & _);
      auto.
Qed.

Lemma C10_flag_other_than_0_or_1_witness :
  updateSortedFlag SO_SORTED (headerLine "2") (headerFile "2") 38
  = Some (headerFile "2", []).
Proof.
  apply (C10_flag_other_than_0_or_1 SO_SORTED (headerLine "2") (headerFile "2") 38).
  intros c H. vm_compute in H. inversion H; subst. split; discriminate.
Defined.

End StreamProps.

(** ** Tag entries: patterns, extension fields, the cork queue *)

Module EntryProps.
Import CStr Options Outcome Entry EntryNotions EntryExamples.

(** *** The outcome monad *)

Lemma bind_Ok {A B : Type} (m : result A) (k : A -> result B) (b : B) :
  m ≫= k = Ok b -> exists a, m = Ok a /\ k a = Ok b.
Proof. destruct m; simpl; intros H; try discriminate. eauto. Qed.

Tactic Notation "inv_bind" hyp(H) "as" simple_intropattern(p) :=
  let X := fresh in
  pose proof (bind_Ok _ _ _ H) as X; clear H; destruct X as p.

Ltac inv_ok :=
  repeat match goal with
  | H : Ok _ = Ok _ |- _ => inversion H; subst; clear H
  | H : Fatal _ = Ok _ |- _ => discriminate H
  | H : Undefined = Ok _ |- _ => discriminate H
  | H : Diverges = Ok _ |- _ => discriminate H
  | H : _ ≫= _ = Ok _ |- _ =>
      let a := fresh "a" in let Ha := fresh "Hb" in let X := fresh in
      pose proof (bind_Ok _ _ _ H) as X; clear H; destruct X as (a & Ha & H)
  | H : (let '(_, _) := ?x in _) = Ok _ |- _ => destruct x eqn:?
  | H : (if ?x then _ else _) = Ok _ |- _ => destruct x eqn:?
  | H : match ?x with _ => _ end = Ok _ |- _ => destruct x eqn:?
  end.

Lemma bind_assoc {A B C : Type} (m : result A) (k : A -> result B)
  (h : B -> result C) :
  (m ≫= k) ≫= h = m ≫= (fun a => k a ≫= h).
Proof. destruct m; reflexivity. Qed.

Lemma bind_ret_l {A B : Type} (a : A) (k : A -> result B) : Ok a ≫= k = k a.
Proof. reflexivity. Qed.

Lemma bind_ext {A B : Type} (m : result A) (k k' : A -> result B) :
  (forall a, k a = k' a) -> m ≫= k = m ≫= k'.
Proof. intros H. destruct m; simpl; auto. Qed.


Lemma mapM_length {A B : Type} (f : A -> result B) l r :
  mapM f l = Ok r -> length r = length l.
Proof.
  revert r. induction l as [|x l IH]; intros r H; simpl in H.
  - inversion H. reflexivity.
  - destruct (f x); try discriminate. simpl in H.
    destruct (mapM f l); try discriminate. inversion H; subst.
    simpl. f_equal. by apply IH.
Qed.

Lemma mapM_Forall2 {A B : Type} (f : A -> result B) l r :
  mapM f l = Ok r -> Forall2 (fun x y => f x = Ok y) l r.
Proof.
  revert r. induction l as [|x l IH]; intros r H; simpl in H.
  - inversion H. constructor.
  - destruct (f x) eqn:E; try discriminate. simpl in H.
    destruct (mapM f l); try discriminate. inversion H; subst.
    constructor; [done|by apply IH].
Qed.

(** *** Null tags *)

(** C5: given a tag whose name is the empty string and whose placeholder
    flag is not set, [makeTagEntry] returns SCOPE_NIL, which is 0, and
    the tag is neither written nor queued: the text of the tag file and
    of the etags file, the counters of the tags, the depth of the cork,
    the queue with its length and its count, and the pattern cache are
    as they were.  A warning is issued exactly when the input language
    does not allow null tags: then the log of the warnings has one more
    entry at its end, the warning that names the input file and the line
    of the tag, and else it is as it was, as is the whole tag file. *)
Theorem C5_null_tag e tag s :
  name tag = [] -> placeholder tag = false ->
  exists s',
    makeTagEntry e tag s = Ok (SCOPE_NIL, s')
    /\ SCOPE_NIL = 0
    /\ fp s' = fp s /\ etags_fp s' = etags_fp s
    /\ etags_byteCount s' = etags_byteCount s
    /\ numTags_added s' = numTags_added s
    /\ max_tag s' = max_tag s /\ max_line s' = max_line s
    /\ cork s' = cork s
    /\ corkQueue_queue s' = corkQueue_queue s
    /\ corkQueue_length s' = corkQueue_length s
    /\ corkQueue_count s' = corkQueue_count s
    /\ patternCacheValid s' = patternCacheValid s
    /\ cached_pattern s' = cached_pattern s
    /\ cached_location s' = cached_location s
    /\ warnings s'
       = warnings s
         ++ (if doesInputLanguageAllowNullTag e then []
             else [lit "ignoring null tag in " ++ getInputFileName e
                   ++ lit "(line: " ++ decimal (lineNumber tag) ++ lit ")"])
    /\ (doesInputLanguageAllowNullTag e = true -> s' = s)
    /\ (doesInputLanguageAllowNullTag e = false ->
        warnings s' <> warnings s /\ length (warnings s')
                                     = S (length (warnings s))).
Proof.
  intros N P. unfold makeTagEntry. rewrite N, P. simpl.
  destruct (doesInputLanguageAllowNullTag e) eqn:A; simpl.
  - exists s. rewrite app_nil_r. repeat split; try done.
  - eexists. split; [reflexivity|]. simpl. repeat split; try done.
    + intros E. apply (f_equal length) in E.
      rewrite length_app in E. simpl in E. lia.
    + rewrite length_app. simpl. lia.
Qed.

Lemma C5_null_tag_witness :
  exists s',
    makeTagEntry exampleEnv tagNull TagFile0 = Ok (0, s')
    /\ fp s' = [] /\ corkQueue_queue s' = [] /\ corkQueue_count s' = 0
    /\ numTags_added s' = 0
    /\ warnings s' = [lit "ignoring null tag in a.c(line: 1)"].
Proof.
  destruct (C5_null_tag exampleEnv tagNull TagFile0 eq_refl eq_refl)
    as (s' & E & _ & F & _ & _ & A & _ & _ & _ & Q & _ & N & _ & _ & _ & W & _).
  exists s'. repeat split; assumption.
Defined.


(** *** Patterns *)

Lemma makePatternStringCommon_frame e tag pr s text n s' :
  makePatternStringCommon e tag pr s = Ok (text, n, s') ->
  corkState s' = corkState s /\ fp s' = fp s /\ etags_fp s' = etags_fp s
  /\ warnings s' = warnings s.
Proof.
  unfold makePatternStringCommon. intros H. inv_ok; done.
Qed.

Lemma escapeName_frame e tag f s v s' :
  escapeName e tag f s = Ok (v, s') ->
  corkState s' = corkState s /\ fp s' = fp s /\ etags_fp s' = etags_fp s
  /\ warnings s' = warnings s.
Proof.
  destruct f; simpl; intros H; inv_ok; try done.
  unfold renderFieldPattern, makePatternString in *. inv_ok.
  eapply makePatternStringCommon_frame; eauto.
Qed.

Lemma appendInputLine_cut e line len :
  appendInputLine e line len
  = let '(body, omitted) :=
      cut (patternLengthLimit (opts e)) len (units (searchChar e) line) in
    (body, omitted, len + Z.of_nat (length body)).
Proof.
  revert len. induction line as [|c rest IH]; intros len; simpl.
  - f_equal. lia.
  - unfold isEol. destruct (Ascii.eqb c CRETURN || Ascii.eqb c NEWLINE) eqn:E.
    + simpl. f_equal. lia.
    + simpl. destruct (len >=? patternLengthLimit (opts e)) eqn:L.
      * f_equal. simpl. lia.
      * unfold quoted, isEol.
        rewrite (orb_comm (Ascii.eqb (at_index rest 0) CRETURN)).
        destruct (_ || _ || _); rewrite IH; simpl;
          destruct (cut _ _ _) as [body omitted]; simpl; f_equal; lia.
Qed.

Lemma cut_spec limit us :
  forall len body omitted,
    cut limit len us = (body, omitted) ->
    exists emitted rest,
      us = emitted ++ rest /\ body = concat emitted
      /\ (forall pre u post, emitted = pre ++ u :: post ->
            len + Z.of_nat (length (concat pre)) < limit)
      /\ (omitted = false -> rest = [])
      /\ (omitted = true ->
            rest <> [] /\ limit <= len + Z.of_nat (length body)).
Proof.
  induction us as [|u us IH]; intros len body omitted H; simpl in H.
  - inversion H; subst. exists [], []. repeat split; try done.
    intros pre u post E. by destruct pre.
  - destruct (len >=? limit) eqn:L.
    + inversion H; subst. exists [], (u :: us). repeat split; try done.
      * intros pre u0 post E. by destruct pre.
      * simpl. apply Z.geb_le in L. lia.
    + destruct (cut limit (len + Z.of_nat (length u)) us) as [b o] eqn:C.
      inversion H; subst.
      destruct (IH _ _ _ C) as (em & rest & E & B & P & O1 & O2).
      exists (u :: em), rest. subst. repeat split; try done.
      * intros pre u0 post E. destruct pre as [|x pre]; simpl in *.
        { rewrite Z.geb_leb in L. apply Z.leb_gt in L. lia. }
        inversion E; subst. specialize (P pre u0 post eq_refl).
        rewrite length_app. lia.
      * by apply O2.
      * simpl. rewrite length_app. apply O2 in H0 as [_ H0]. lia.
Qed.

(** C2: when the pattern of a tag is built from its source line, it is
    the search delimiter ([/], or [?] for a backward search), then [^],
    then the characters of the line before its first line feed or carriage
    return, each as it is or after a backslash (a backslash, the
    delimiter, a dollar just before the line end).  A character is emitted
    only while the length emitted before it is below patternLengthLimit.
    When a character is left out for that reason, the closing delimiter
    follows at once; otherwise a [$] anchor is emitted if the line ends in
    a line feed, and then the closing delimiter. *)
Theorem C2_pattern_of_line e tag puts_ret s line0 seek :
  builtFromLine tag s ->
  readLineFromBypass e (filePosition tag) = Some (line0, seek) ->
  patternLine tag line0 <> [] ->
  let line := patternLine tag line0 in
  let d := searchChar e in
  let limit := patternLengthLimit (opts e) in
  (exists n s',
      makePatternStringCommon e tag puts_ret s = Ok (patternOf e line, n, s'))
  /\ d = (if backward (opts e) then "?"%char else "/"%char)
  /\ exists emitted rest,
       units d line = emitted ++ rest
       /\ (forall pre u post, emitted = pre ++ u :: post ->
             Z.of_nat (length (concat pre)) < limit)
       /\ ((rest = []
            /\ patternOf e line
               = [d; "^"%char] ++ concat emitted
                 ++ (if Ascii.eqb (last_char line) NEWLINE
                     then lit "$" else [])
                 ++ [d])
           \/ (rest <> [] /\ limit <= Z.of_nat (length (concat emitted))
               /\ patternOf e line = [d; "^"%char] ++ concat emitted ++ [d])).
Proof.
  intros Hmiss Hread Hne line d limit. split; [|split; [reflexivity|]].
  - unfold makePatternStringCommon. unfold builtFromLine in Hmiss.
    rewrite Hmiss, Hread. fold (patternLine tag line0). fold line.
    destruct line as [|c l] eqn:El; [done|]. rewrite <- El.
    rewrite appendInputLine_cut. unfold patternOf. fold d. fold limit.
    destruct (cut limit 0 (units d line)) as [body omitted].
    destruct (truncateLine tag); eauto.
  - unfold patternOf. fold d. fold limit.
    destruct (cut limit 0 (units d line)) as [body omitted] eqn:C.
    destruct (cut_spec _ _ _ _ _ C) as (em & rest & E & B & P & O1 & O2).
    exists em, rest. split; [done|]. split.
    { intros pre u post Epre. specialize (P pre u post Epre). lia. }
    destruct omitted.
    + right. destruct (O2 eq_refl) as [R L]. subst body.
      split; [done|]. split; [lia|reflexivity].
    + left. subst body. split; [by apply O1|reflexivity].
Qed.

Lemma C2_pattern_of_line_witness :
  exists n s',
    makePatternStringCommon (envL 96 mainLine) tagAt10 vstring_puts TagFile0
    = Ok (lit "/^int main(void) {$/", n, s').
Proof.
  apply (C2_pattern_of_line (envL 96 mainLine) tagAt10 vstring_puts TagFile0
           mainLine 10); [reflexivity|reflexivity|discriminate].
Defined.

(** A last line without a line feed gets no anchor although the limit is
    far; and with a limit of 1 the anchor of the line [ab] is left out
    although the one character emitted does not exceed the limit. *)
Lemma C2_anchor_left_out :
  option_map fst
    (match makePatternString (envL 96 (lit "abc")) tagAt10 TagFile0 with
     | Ok r => Some r
     | _ => None
     end)
  = Some (lit "/^abc/")
  /\ option_map fst
       (match makePatternString (envL 1 (lit "ab" ++ [NEWLINE])) tagAt10
                TagFile0 with
        | Ok r => Some r
        | _ => None
        end)
     = Some (lit "/^a/").
Proof. split; reflexivity. Qed.


(** *** Extension fields *)

(** The reading of the queue does not depend on what has been written. *)
Lemma getEntryInCorkQueue_with_fp x s n :
  getEntryInCorkQueue (with_fp x s) n = getEntryInCorkQueue s n.
Proof. reflexivity. Qed.

Lemma scopeNames_pure fuel e scope s :
  scopeNames fuel e scope s = (l ← scopeNamesOf fuel e s scope; Ok (l, s)).
Proof.
  revert scope. induction fuel as [|fuel IH]; intros [sc|]; simpl; try reflexivity.
  destruct (placeholder sc); simpl.
  - rewrite IH. destruct (scopeNamesOf _ _ _ _); reflexivity.
  - destruct (renderFieldName e sc); simpl; try reflexivity.
    rewrite IH. destruct (scopeNamesOf _ _ _ _); reflexivity.
Qed.

Lemma scopeNamesOf_with_fp fuel e x s scope :
  scopeNamesOf fuel e (with_fp x s) scope = scopeNamesOf fuel e s scope.
Proof.
  revert scope. induction fuel as [|fuel IH]; intros [sc|]; simpl; try reflexivity.
  rewrite getEntryInCorkQueue_with_fp, IH. reflexivity.
Qed.

Lemma getFullQualifiedScopeName_pure e scope s :
  getFullQualifiedScopeNameFromCorkQueue e scope s
  = (p ← scopePath e s scope; Ok (p, s)).
Proof.
  unfold getFullQualifiedScopeNameFromCorkQueue, scopePath.
  rewrite scopeNames_pure. destruct (scopeNamesOf _ _ _ _); reflexivity.
Qed.

Lemma scopePath_with_fp e x s scope :
  scopePath e (with_fp x s) scope = scopePath e s scope.
Proof.
  unfold scopePath.
  change (corkQueue_count (with_fp x s)) with (corkQueue_count s).
  rewrite scopeNamesOf_with_fp. reflexivity.
Qed.

Lemma fieldText_with_fp e x s tag f :
  fieldText e (with_fp x s) tag f = fieldText e s tag f.
Proof.
  destruct f; try reflexivity. simpl.
  rewrite getEntryInCorkQueue_with_fp, scopePath_with_fp. reflexivity.
Qed.

Lemma emitted_with_fp e x s tag f :
  emitted e (with_fp x s) tag f = emitted e s tag f.
Proof. destruct f; reflexivity. Qed.

Lemma with_state_acc_state a : with_state (acc_state a) a = a.
Proof. destruct a as [[first len] s]. reflexivity. Qed.

Lemma keyPrefix_Ok e t :
  fd_name (fieldDescs t) <> None -> exists k, keyPrefix e t = Ok k.
Proof.
  unfold keyPrefix, getFieldName. intros H.
  destruct (fieldEnabled e t); [|eauto].
  destruct (fd_name (fieldDescs t)); [|done].
  destruct (_ && _); simpl; eauto.
Qed.

Lemma bool_decide_present {A : Type} `{EqDecision (option A)} (p : option A) :
  bool_decide (p <> None) = present p.
Proof. destruct p; reflexivity. Qed.

Lemma statement_step e tag f a :
  (f = XKind -> kind tag <> None) -> statement f e tag a = step e tag f a.
Proof.
  intros K. destruct a as [[first len] s].
  destruct f; unfold statement, step, emitted; simpl.
  - (* kind *)
    unfold extKind. destruct (keyPrefix_Ok e FIELD_KIND_KEY) as [k ->]; [done|]. simpl.
    destruct (kind tag) as [kd|]; [|by destruct K]. simpl.
    rewrite andb_true_r, !andb_false_r, !orb_false_r.
    destruct (kind_name kd) as [nm|]; simpl.
    + destruct (fieldEnabled e FIELD_KIND_LONG), (fieldEnabled e FIELD_KIND); reflexivity.
    + destruct (fieldEnabled e FIELD_KIND_LONG), (fieldEnabled e FIELD_KIND); reflexivity.
  - unfold extLine. rewrite andb_true_r.
    destruct (fieldEnabled e FIELD_LINE_NUMBER); reflexivity.
  - unfold extLanguage, putEscaped.
    destruct (fieldEnabled e FIELD_LANGUAGE); simpl; [|reflexivity].
    destruct (language tag); simpl; reflexivity.
  - unfold extScope.
    destruct (keyPrefix_Ok e FIELD_SCOPE_KEY) as [k ->]; [done|]. simpl.
    destruct (fieldEnabled e FIELD_SCOPE); simpl; [|reflexivity].
    destruct (scopeKind (extensionFields tag)) as [sk|], (scopeName (extensionFields tag)) as [sn|]; simpl;
      try (destruct (str_arg (kind_name sk)); simpl; try reflexivity;
           destruct (renderFieldScope e tag); reflexivity);
      destruct (negb _ && _); try reflexivity;
      rewrite getFullQualifiedScopeName_pure; simpl;
      (destruct (scopePath e s _); simpl; try reflexivity);
      (destruct (getEntryInCorkQueue s _) as [sc|]; simpl; try reflexivity);
      (destruct (kind sc) as [k0|]; simpl; try reflexivity);
      destruct (kind_name k0); reflexivity.
  - unfold extTyperef.
    destruct (fieldEnabled e FIELD_TYPE_REF); simpl; [|reflexivity].
    destruct (typeRef0 (extensionFields tag)), (typeRef1 (extensionFields tag)); simpl; try reflexivity.
    destruct (renderFieldTyperef e tag); reflexivity.
  - unfold extFileScope.
    destruct (fieldEnabled e FIELD_FILE_SCOPE), (isFileScope tag); reflexivity.
  - unfold extInheritance, putEscaped.
    destruct (fieldEnabled e FIELD_INHERITANCE); simpl; [|reflexivity].
    destruct (inheritance (extensionFields tag)); simpl; reflexivity.
  - unfold extAccess.
    destruct (fieldEnabled e FIELD_ACCESS); simpl; [|reflexivity].
    destruct (access (extensionFields tag)); simpl; reflexivity.
  - unfold extImplementation.
    destruct (fieldEnabled e FIELD_IMPLEMENTATION); simpl; [|reflexivity].
    destruct (implementation (extensionFields tag)); simpl; reflexivity.
  - unfold extSignature, putEscaped.
    destruct (fieldEnabled e FIELD_SIGNATURE); simpl; [|reflexivity].
    destruct (signature (extensionFields tag)); simpl; reflexivity.
  - unfold extRole, putEscaped.
    destruct (fieldEnabled e FIELD_ROLE); simpl; [|reflexivity].
    destruct (negb _); simpl; [|reflexivity].
    destruct (renderFieldRole tag); reflexivity.
Qed.

Lemma addExtensionFields_steps e tag s :
  kind tag <> None ->
  addExtensionFields e tag s
  = (a ← steps e tag fixedOrder (true, 0, s);
     let '(_, len, s') := a in Ok (len, s')).
Proof.
  intros K. unfold addExtensionFields, fixedOrder. simpl steps.
  do 11 (rewrite ?bind_assoc;
         match goal with
         | |- _ = step e tag ?f ?a ≫= _ =>
             rewrite <- (statement_step e tag f a) by done;
             apply bind_ext; intros ?
         end).
  reflexivity.
Qed.

Lemma with_fp_same s : with_fp (fp s) s = s.
Proof. destruct s; reflexivity. Qed.

Lemma with_fp_with_fp x y s : with_fp x (with_fp y s) = with_fp x s.
Proof. reflexivity. Qed.

Lemma steps_spec e s tag fields :
  forall first out,
    steps e tag fields (first, Z.of_nat (length out), with_fp (fp s ++ out) s)
    = (texts ← mapM (fieldText e s tag)
                 (filter (fun f => emitted e s tag f = true) fields);
       let out' :=
         out ++ (if first
                 then match texts with [] => [] | _ :: _ => separator end
                 else [])
             ++ concat texts in
       Ok (first && bool_decide (texts = []),
           Z.of_nat (length out'), with_fp (fp s ++ out') s)).
Proof.
  induction fields as [|f fs IH]; intros first out.
  - simpl. rewrite andb_true_r.
    destruct first; simpl; rewrite app_nil_r; reflexivity.
  - simpl steps. unfold step at 1.
    change (acc_state (first, Z.of_nat (length out), with_fp (fp s ++ out) s))
      with (with_fp (fp s ++ out) s).
    rewrite emitted_with_fp, fieldText_with_fp.
    destruct (emitted e s tag f) eqn:E.
    + rewrite filter_cons_True by done. simpl mapM.
      destruct (fieldText e s tag f) as [t| | |]; try reflexivity.
      simpl. unfold fprintf. simpl.
      specialize (IH false (out ++ (if first then separator else []) ++ t)).
      rewrite <- !app_assoc in *.
      replace (Z.of_nat (length out) + Z.of_nat (length ((if first then separator else []) ++ t)))
        with (Z.of_nat (length (out ++ (if first then separator else []) ++ t)))
        by (rewrite !length_app; lia).
      rewrite with_fp_with_fp, IH, bind_assoc.
      destruct (mapM _ _) as [ts| | |]; try reflexivity. simpl.
      destruct first; simpl; rewrite <- ?app_assoc; reflexivity.
    + rewrite filter_cons_False by (rewrite E; done). simpl. apply IH.
Qed.

Lemma addExtensionFields_suffix e tag s :
  kind tag <> None ->
  addExtensionFields e tag s
  = (suffix ← extensionSuffix e s tag;
     Ok (Z.of_nat (length suffix), with_fp (fp s ++ suffix) s)).
Proof.
  intros K. rewrite addExtensionFields_steps by done.
  pose proof (steps_spec e s tag fixedOrder true []) as H.
  simpl length in H. rewrite app_nil_r, with_fp_same in H.
  change (Z.of_nat 0) with 0 in H. rewrite H. clear H.
  unfold extensionSuffix.
  destruct (mapM _ _) as [texts| | |]; try reflexivity.
  simpl. destruct texts; reflexivity.
Qed.

Lemma sameCork_refl s : sameCork s s.
Proof. done. Qed.

Lemma sameCork_trans s1 s2 s3 :
  sameCork s1 s2 -> sameCork s2 s3 -> sameCork s1 s3.
Proof. intros [A B] [C D]. split; congruence. Qed.

Lemma makePatternStringCommon_sameCork e tag pr s text n s' :
  makePatternStringCommon e tag pr s = Ok (text, n, s') ->
  sameCork s s' /\ fp s' = fp s.
Proof. intros H. apply makePatternStringCommon_frame in H. repeat split; tauto. Qed.

Lemma escapeName_sameCork e tag f s v s' :
  escapeName e tag f s = Ok (v, s') -> sameCork s s' /\ fp s' = fp s.
Proof. intros H. apply escapeName_frame in H. repeat split; tauto. Qed.

Lemma fieldText_ext e s1 s2 tag f :
  corkQueue_queue s1 = corkQueue_queue s2 ->
  corkQueue_count s1 = corkQueue_count s2 ->
  fieldText e s1 tag f = fieldText e s2 tag f.
Proof.
  intros Q C.
  assert (G : forall n, getEntryInCorkQueue s1 n = getEntryInCorkQueue s2 n).
  { intros n. unfold getEntryInCorkQueue. rewrite Q, C. reflexivity. }
  assert (N : forall fuel scope, scopeNamesOf fuel e s1 scope = scopeNamesOf fuel e s2 scope).
  { induction fuel as [|fuel IH]; intros [sc|]; simpl; try reflexivity.
    rewrite G, IH. reflexivity. }
  destruct f; try reflexivity. simpl.
  unfold scopePath. rewrite G, C, N. reflexivity.
Qed.

Lemma extensionSuffix_ext e s1 s2 tag :
  corkQueue_queue s1 = corkQueue_queue s2 ->
  corkQueue_count s1 = corkQueue_count s2 ->
  extensionSuffix e s1 tag = extensionSuffix e s2 tag.
Proof.
  intros Q C. unfold extensionSuffix.
  assert (E : forall f, emitted e s1 tag f = emitted e s2 tag f).
  { intros f. unfold emitted. destruct f; simpl; rewrite ?C; reflexivity. }
  assert (filter (fun f => emitted e s1 tag f = true) fixedOrder
          = filter (fun f => emitted e s2 tag f = true) fixedOrder) as ->.
  { apply list_filter_iff. intros f. rewrite E. done. }
  f_equal. clear E.
  generalize (filter (fun f => emitted e s2 tag f = true) fixedOrder).
  induction l as [|f l IH]; [reflexivity|].
  simpl. rewrite (fieldText_ext e s1 s2) by done. rewrite IH. reflexivity.
Qed.

Lemma addExtensionFields_Ok e tag s n s' :
  addExtensionFields e tag s = Ok (n, s') ->
  exists suffix,
    extensionSuffix e s tag = Ok suffix
    /\ n = Z.of_nat (length suffix)
    /\ s' = with_fp (fp s ++ suffix) s.
Proof.
  intros H.
  destruct (kind tag) as [k|] eqn:K.
  - rewrite addExtensionFields_suffix in H by (rewrite K; done).
    inv_bind H as (suffix & E & H). inversion H; subst. eauto.
  - unfold addExtensionFields, extKind in H. rewrite K in H.
    destruct (keyPrefix e FIELD_KIND_KEY); discriminate.
Qed.

Lemma writeLineNumberEntry_Ok e tag s n s' :
  writeLineNumberEntry e tag s = Ok (n, s') ->
  exists text, s' = with_fp (fp s ++ text) s.
Proof.
  unfold writeLineNumberEntry. intros H. inv_ok; eauto.
  simpl in Hb. inv_ok. eauto.
Qed.

Lemma writePatternEntry_Ok e tag s n s' :
  writePatternEntry e tag s = Ok (n, s') ->
  exists text, fp s' = fp s ++ text /\ sameCork s s'.
Proof.
  unfold writePatternEntry. intros H. inv_ok.
  apply makePatternStringCommon_sameCork in Hb as [[C W] F].
  eexists. split; [simpl; rewrite F; reflexivity|]. split; simpl; done.
Qed.

(** The line that [writeCtagsEntry] writes ends in the suffix of
    extension fields and a line feed. *)
Lemma writeCtagsEntry_Ok e tag s n s' :
  writeCtagsEntry e tag s = Ok (n, s') ->
  exists head suffix,
    fp s' = fp s ++ head ++ suffix ++ [NEWLINE]
    /\ (if includeExtensionFlags e
        then extensionSuffix e s tag = Ok suffix
        else suffix = [])
    /\ sameCork s s' /\ etags_fp s' = etags_fp s.
Proof.
  unfold writeCtagsEntry. intros H.
  inv_bind H as ([nm s1] & H1 & H).
  inv_bind H as ([file s2] & H2 & H).
  simpl in H1, H2.
  inv_bind H1 as (nm' & _ & H1). inversion H1; subst nm' s1; clear H1.
  inversion H2; subst file s2; clear H2.
  set (file := renderEscapedString _) in *. clearbody file.
  unfold fprintf at 1 in H. cbv zeta in H.
  set (s1 := with_fp _ s) in H.
  inv_bind H as ([n1 s2] & Haddr & H).
  assert (exists addr, fp s2 = fp s1 ++ addr /\ sameCork s1 s2
                       /\ etags_fp s2 = etags_fp s1)
    as (addr & Faddr & Caddr & Eaddr).
  { destruct (lineNumberEntry tag).
    - apply writeLineNumberEntry_Ok in Haddr as (text & ->). by exists text.
    - destruct (pattern tag) as [pat|].
      + inversion Haddr; subst. by exists pat.
      + unfold writePatternEntry in Haddr.
        inv_bind Haddr as ([[text n'] s''] & Hp & Haddr).
        inversion Haddr; subst.
        apply makePatternStringCommon_frame in Hp as (C & F & E & W).
        exists text. simpl. rewrite F. done. }
  inv_bind H as ([n2 s3] & Hext & H).
  unfold fprintf in H. inversion H; subst n s'; clear H.
  destruct Caddr as [Cq Cw].
  assert (corkQueue_queue s2 = corkQueue_queue s
          /\ corkQueue_count s2 = corkQueue_count s)
    as [Q2 C2] by (unfold corkState in Cq; simpl in Cq; inversion Cq; done).
  exists (nm ++ [TAB] ++ file ++ [TAB] ++ addr).
  destruct (includeExtensionFlags e) eqn:I.
  - apply addExtensionFields_Ok in Hext as (suffix & Es & _ & ->).
    rewrite (extensionSuffix_ext e s2 s) in Es by done.
    exists suffix. split; [|split; [done|]].
    + simpl. rewrite Faddr. unfold s1. simpl.
      repeat (progress (simpl; rewrite <- ?app_assoc)). reflexivity.
    + split; [|done]. split; simpl; [exact Cq|exact Cw].
  - inversion Hext; subst n2 s3; clear Hext.
    exists []. split; [|split; [done|]].
    + simpl. rewrite Faddr. unfold s1. simpl.
      repeat (progress (simpl; rewrite <- ?app_assoc)). reflexivity.
    + split; [|done]. split; simpl; [exact Cq|exact Cw].
Qed.

(** C1: [addExtensionFields] appends to the tag file the suffix of
    extension fields and returns its length; on a tag written by
    [writeCtagsEntry] in the extended format (tagFileFormat = 2) the line
    ends in that suffix: the separator, then the texts of the fields that
    are emitted, listed in the fixed order kind, line, language, scope,
    typeref, file scope marker, inheritance, access, implementation,
    signature, role; and a field is among them exactly when its
    descriptor is enabled and its value is available on the tag. *)
Theorem C1_extension_fields e tag s :
  kind tag <> None ->
  addExtensionFields e tag s
  = (suffix ← extensionSuffix e s tag;
     Ok (Z.of_nat (length suffix), with_fp (fp s ++ suffix) s))
  /\ (forall n s',
        tagFileFormat (opts e) = 2 ->
        writeCtagsEntry e tag s = Ok (n, s') ->
        exists head texts,
          fp s' = fp s ++ head
                  ++ match texts with
                     | [] => []
                     | _ :: _ => separator ++ concat texts
                     end
                  ++ [NEWLINE]
          /\ Forall2 (fun f text => fieldText e s tag f = Ok text)
                     (filter (fun f => emitted e s tag f = true) fixedOrder)
                     texts)
  /\ (forall f,
        f ∈ filter (fun f => emitted e s tag f = true) fixedOrder
        <-> descriptorEnabled e f = true /\ valueAvailable s tag f = true).
Proof.
  intros K. split; [by apply addExtensionFields_suffix|]. split.
  - intros n s' F2 H.
    apply writeCtagsEntry_Ok in H as (head & suffix & F & E & _).
    unfold includeExtensionFlags in E. rewrite F2 in E. simpl in E.
    unfold extensionSuffix in E.
    inv_bind E as (texts & M & E). inversion E; subst suffix; clear E.
    exists head, texts. split; [exact F|]. by apply mapM_Forall2.
  - intros f. rewrite list_elem_of_filter. unfold emitted.
    rewrite andb_true_iff. split; [tauto|]. intros H. split; [exact H|].
    apply list_elem_of_In. destruct f; simpl; tauto.
Qed.

Lemma C1_extension_fields_witness :
  addExtensionFields exampleEnv tagMain TagFile0
  = Ok (4, with_fp (separator ++ [TAB] ++ lit "f") TagFile0)
  /\ option_map (fun r => fp (snd r))
       (match writeCtagsEntry exampleEnv tagMain TagFile0 with
        | Ok r => Some r
        | _ => None
        end)
     = Some (lit "main" ++ [TAB] ++ lit "a.c" ++ [TAB]
             ++ lit "/^int main(void) {$/" ++ separator ++ [TAB] ++ lit "f"
             ++ [NEWLINE]).
Proof.
  destruct (C1_extension_fields exampleEnv tagMain TagFile0) as (H & _).
  { discriminate. }
  split; [rewrite H|]; vm_compute; reflexivity.
Defined.

Lemma writeTagEntry_sameCork e tag s s' :
  writeTagEntry e tag s = Ok s' ->
  sameCork s s' /\ exists text, fp s' = fp s ++ text.
Proof.
  unfold writeTagEntry. intros H.
  destruct (placeholder tag).
  { inversion H; subst. split; [done|]. exists []. by rewrite app_nil_r. }
  inv_bind H as ([len s1] & Hw & H). inversion H; subst s'; clear H.
  assert (sameCork s s1 /\ exists text, fp s1 = fp s ++ text) as [C F].
  { destruct (xref (opts e)).
    - unfold writeXrefEntry in Hw.
      destruct (customXfmt (opts e));
        [|destruct (isFileEntry tag); [|destruct (_ =? 1)]];
        inversion Hw; subst; (split; [done|]);
        try (exists []; by rewrite app_nil_r);
        simpl; rewrite <- app_assoc; eexists; reflexivity.
    - destruct (etags (opts e)).
      + unfold writeEtagsEntry in Hw.
        destruct (isFileEntry tag).
        * inversion Hw; subst. split; [done|]. exists []. simpl. by rewrite app_nil_r.
        * destruct (readLineFromBypassAnyway e tag) as [[line0 seek]|].
          -- inv_bind Hw as (line & _ & Hw). inversion Hw; subst.
             split; [done|]. exists []. simpl. by rewrite app_nil_r.
          -- inversion Hw; subst. split; [done|]. exists []. by rewrite app_nil_r.
      + apply writeCtagsEntry_Ok in Hw as (head & suffix & F & _ & C & _).
        split; [done|]. eauto. }
  split; [|done].
  destruct C as [C W]. split; [exact C|exact W].
Qed.


(** *** Scopes taken from the cork queue *)

Lemma joinFromLast_dotJoin l : joinFromLast l = dotJoin l.
Proof.
  induction l as [|x l IH]; [reflexivity|].
  simpl. rewrite IH. destruct l; [apply app_nil_r|reflexivity].
Qed.

Lemma to_uint_small n : 0 <= n < 2 ^ 32 -> to_uint n = n.
Proof. intros H. unfold to_uint. apply Z.mod_small. lia. Qed.

Lemma getEntryInCorkQueue_lookup s i :
  queue_wf s -> corkQueue_count s < 2 ^ 32 -> 0 <= i < corkQueue_count s ->
  getEntryInCorkQueue s i
  = if 0 <? i then corkQueue_queue s !! Z.to_nat i else None.
Proof.
  intros [W _] B H. unfold getEntryInCorkQueue, SCOPE_NIL.
  rewrite to_uint_small by lia.
  destruct (0 <? i); [|reflexivity].
  destruct (i <? corkQueue_count s) eqn:E; [reflexivity|].
  apply Z.ltb_ge in E. lia.
Qed.

Lemma scopeNamesOf_chain e s :
  queue_wf s -> corkQueue_count s < 2 ^ 32 ->
  scopes_wf (corkQueue_queue s) ->
  forall n m i,
    0 <= i < corkQueue_count s ->
    (Z.to_nat i <= n)%nat -> (Z.to_nat i <= m)%nat ->
    scopeNamesOf n e s (getEntryInCorkQueue s i)
    = mapM (renderFieldName e)
        (filter (fun t => placeholder t = false)
                (parentChain m (corkQueue_queue s) i)).
Proof.
  intros W B S. induction n as [|n IH]; intros m i Hi Hn Hm.
  - assert (i = 0) as -> by lia.
    rewrite getEntryInCorkQueue_lookup by first [done|lia]. simpl.
    destruct m; reflexivity.
  - rewrite getEntryInCorkQueue_lookup by done.
    destruct (0 <? i) eqn:P.
    2:{ simpl. destruct m; simpl; [reflexivity|]. rewrite P. reflexivity. }
    apply Z.ltb_lt in P.
    destruct m as [|m]; [lia|]. simpl parentChain. rewrite (proj2 (Z.ltb_lt 0 i) P).
    destruct (corkQueue_queue s !! Z.to_nat i) as [t|] eqn:L.
    2:{ reflexivity. }
    assert (0 <= scopeIndex (extensionFields t) < i) as Ht.
    { specialize (S (Z.to_nat i) t ltac:(lia) L). lia. }
    simpl scopeNamesOf.
    rewrite (IH m) by lia.
    destruct (placeholder t) eqn:PH.
    + rewrite filter_cons_False by (rewrite PH; done). simpl.
      destruct (mapM _ _); reflexivity.
    + rewrite filter_cons_True by done. simpl.
      destruct (renderFieldName e t); reflexivity.
Qed.

Lemma span_plain (s : cstr) :
  plainName s ->
  span (fun c => negb (isControl c || Ascii.eqb c BACKSLASH)) s = (s, []).
Proof.
  induction 1 as [|c s [Hc Hb] _ IH]; [reflexivity|].
  simpl. rewrite Hc. apply Ascii.eqb_neq in Hb. rewrite Hb. simpl.
  rewrite IH. reflexivity.
Qed.

Lemma renderFieldName_plain e t :
  plainName (name t) -> renderFieldName e t = Ok (name t).
Proof.
  intros P. unfold renderFieldName, renderEscapedName.
  rewrite span_plain by done. reflexivity.
Qed.

Lemma escapeChar_nonempty c : escapeChar c <> [].
Proof. unfold escapeChar. destruct (_ || _); done. Qed.

Lemma renderFieldName_nonempty e t v :
  renderFieldName e t = Ok v -> name t <> [] -> v <> [].
Proof.
  unfold renderFieldName, renderEscapedName.
  destruct (span _ (name t)) as [base rest] eqn:Sp.
  destruct rest as [|c rest].
  - intros H; inversion H; subst. done.
  - intros H N.
    assert (v = base ++ renderEscapedString (c :: rest)) as ->.
    { destruct (isControl c); [|by inversion H].
      destruct (language t); simpl in H; [|done].
      destruct (kind t); [|done].
      destruct (fatalWarnings (opts e)); [done|by inversion H]. }
    simpl. intros E. apply app_eq_nil in E as [_ E].
    apply app_eq_nil in E as [E _]. by apply escapeChar_nonempty in E.
Qed.

Lemma dotJoin_nonempty l :
  Forall (fun x => x <> []) l -> (dotJoin l <> [] <-> l <> []).
Proof.
  intros F. destruct F as [|x l Hx F]; [done|].
  split; [done|]. intros _. simpl.
  destruct l; [done|]. destruct x; done.
Qed.

(** C4: in a cork queue where parents come before their children, for a
    tag without an explicit scope whose [scopeIndex] is the index of a
    queued entry, and with the scope field enabled, the scope column
    printed is the name of the kind of that entry, a colon, and the
    rendered names of the entries of the parent chain that are not
    placeholders, joined with dots from the outermost to the innermost.
    A name without control characters and backslashes is rendered as it
    is.  The joined name is not empty exactly when the chain has an
    entry that is not a placeholder (names being non-empty). *)
Theorem C4_scope_from_queue e s tag first len :
  queue_wf s -> corkQueue_count s < 2 ^ 32 ->
  scopes_wf (corkQueue_queue s) ->
  fieldEnabled e FIELD_SCOPE = true ->
  scopeKind (extensionFields tag) = None
  \/ scopeName (extensionFields tag) = None ->
  0 < scopeIndex (extensionFields tag) < corkQueue_count s ->
  let q := corkQueue_queue s in
  let chain :=
    filter (fun t => placeholder t = false)
           (parentChain (length q) q (scopeIndex (extensionFields tag))) in
  extScope e tag (first, len, s)
  = (scopeKey ← keyPrefix e FIELD_SCOPE_KEY;
     names ← mapM (renderFieldName e) chain;
     parent ← match q !! Z.to_nat (scopeIndex (extensionFields tag)) with
              | Some t => Ok t
              | None => Undefined
              end;
     k ← match kind parent with Some k => Ok k | None => Undefined end;
     kn ← str_arg (kind_name k);
     Ok (put (TAB :: scopeKey ++ kn ++ lit ":" ++ dotJoin (rev names))
             (first, len, s)))
  /\ (Forall (fun t => plainName (name t)) chain ->
      mapM (renderFieldName e) chain = Ok (map name chain))
  /\ (forall names,
        mapM (renderFieldName e) chain = Ok names ->
        Forall (fun t => name t <> []) chain ->
        (dotJoin (rev names) <> [] <-> chain <> [])).
Proof.
  intros W B S En Ex Ix q chain. split; [|split].
  - change (extScope e tag (first, len, s))
      with (statement XScope e tag (first, len, s)).
    rewrite statement_step by done.
    unfold step, emitted. simpl descriptorEnabled. rewrite En.
    change (acc_state (first, len, s)) with s.
    assert (valueAvailable s tag XScope = true) as ->.
    { simpl. apply orb_true_iff. right. apply andb_true_iff. split.
      - apply negb_true_iff, Z.eqb_neq. unfold SCOPE_NIL. lia.
      - apply Z.gtb_lt. lia. }
    simpl andb. cbv iota.
    assert (fieldText e s tag XScope
            = (scopeKey ← keyPrefix e FIELD_SCOPE_KEY;
               path ← scopePath e s (getEntryInCorkQueue s (scopeIndex (extensionFields tag)));
               sc ← match getEntryInCorkQueue s (scopeIndex (extensionFields tag)) with
                    | Some sc => Ok sc | None => Undefined end;
               k ← match kind sc with Some k => Ok k | None => Undefined end;
               kn ← str_arg (kind_name k);
               Ok (TAB :: scopeKey ++ kn ++ lit ":" ++ path))) as ->.
    { simpl. destruct Ex as [-> | ->]; [reflexivity|].
      destruct (scopeKind (extensionFields tag)); reflexivity. }
    rewrite bind_assoc. apply bind_ext. intros scopeKey.
    unfold scopePath.
    rewrite (scopeNamesOf_chain e s W B S _ (length q))
      by (destruct W; unfold q; lia).
    fold q. fold chain.
    rewrite !bind_assoc. apply bind_ext. intros names. simpl.
    rewrite getEntryInCorkQueue_lookup by first [done|lia].
    rewrite (proj2 (Z.ltb_lt 0 _)) by lia. fold q.
    rewrite joinFromLast_dotJoin.
    destruct (q !! _) as [t|]; [|reflexivity]. simpl.
    destruct (kind t) as [k|]; [|reflexivity]. simpl.
    destruct (kind_name k); reflexivity.
  - intros P. induction chain as [|t l IH]; [reflexivity|].
    apply Forall_cons in P as [Pt Pl]. simpl.
    rewrite renderFieldName_plain by done. simpl. rewrite IH by done. reflexivity.
  - intros names M N.
    assert (Forall (fun x : cstr => x <> []) (rev names)) as F.
    { apply Forall_rev.
      apply mapM_Forall2 in M. clear -M N.
      induction M as [|t v l r Htv M IH]; [constructor|].
      apply Forall_cons in N as [Nt Nl].
      constructor; [by eapply renderFieldName_nonempty|by apply IH]. }
    rewrite (dotJoin_nonempty _ F).
    apply mapM_length in M.
    split; intros H E.
    + subst chain. rewrite E in M. destruct names; [|done]. by apply H.
    + apply (f_equal (@length _)) in E. rewrite length_rev in E. simpl in E.
      destruct chain; [done|]. simpl in M. lia.
Qed.

Lemma corked_Foo_scopes_wf : scopes_wf (corkQueue_queue (corked [tagFoo])).
Proof.
  intros i t Hi L.
  assert (i < 2)%nat as Hlt by (apply lookup_lt_Some in L; exact L).
  assert (i = 1%nat) as -> by lia.
  vm_compute in L. inversion L; subst t. vm_compute. split; [discriminate|reflexivity].
Qed.

Lemma C4_scope_from_queue_witness :
  extScope exampleEnv tagBar (true, 0, corked [tagFoo])
  = Ok (put (TAB :: lit "class:Foo") (true, 0, corked [tagFoo])).
Proof.
  destruct (C4_scope_from_queue exampleEnv (corked [tagFoo]) tagBar true 0)
    as (H & _).
  - split; [reflexivity|vm_compute; discriminate].
  - reflexivity.
  - exact corked_Foo_scopes_wf.
  - reflexivity.
  - left. reflexivity.
  - split; reflexivity.
  - rewrite H. vm_compute. reflexivity.
Defined.

(** A parent that is a placeholder gives a scope column whose name is
    empty, at the flush too; and the name of a parent is written with
    its backslash doubled, not as it is. *)
Lemma C4_placeholder_parent_gives_empty_scope :
  placeholder tagHidden = true
  /\ scopeIndex (extensionFields tagBar) = 1
  /\ scopeName (extensionFields tagBar) = None
  /\ fieldText exampleEnv (corked [tagHidden]) tagBar XScope
     = Ok (TAB :: lit "class:")
  /\ flushed [tagHidden; tagBar]
     = Some (lit "bar" ++ [TAB] ++ lit "a.cc" ++ [TAB]
             ++ lit "/^  void bar() {}$/" ++ separator ++ [TAB] ++ lit "f"
             ++ [TAB] ++ lit "class:" ++ [NEWLINE])
  /\ fieldText exampleEnv (corked [tagNamespace]) tagBar XScope
     = Ok (TAB :: lit "namespace:App\\Models").
Proof. repeat split; vm_compute; reflexivity. Qed.

(** *** The cork queue *)

Lemma makePatternString_total e tag s :
  lineReadable e tag ->
  exists pat s', makePatternString e tag s = Ok (pat, s')
                 /\ sameCork s s' /\ fp s' = fp s.
Proof.
  intros (line & seek & R & N).
  assert (exists text n s', makePatternStringCommon e tag vstring_puts s = Ok (text, n, s'))
    as (text & n & s' & H).
  { unfold makePatternStringCommon.
    destruct (_ && _ && _); [eauto|].
    rewrite R. fold (patternLine tag line).
    destruct (patternLine tag line) as [|c l] eqn:E; [done|].
    destruct (appendInputLine e (c :: l) 0) as [[body omitted] k].
    destruct (truncateLine tag); eauto. }
  unfold makePatternString. rewrite H. simpl.
  exists text, s'. split; [done|].
  by apply makePatternStringCommon_sameCork in H.
Qed.

Lemma set_pattern_same tag : set_pattern (pattern tag) tag = tag.
Proof. destruct tag; reflexivity. Qed.

Lemma recordTagEntryInQueue_total e tag s :
  pattern tag <> None \/ lineNumberEntry tag = true \/ lineReadable e tag ->
  exists slot s',
    recordTagEntryInQueue e tag s = Ok (slot, s')
    /\ copyOf slot tag /\ sameCork s s' /\ fp s' = fp s.
Proof.
  intros H. unfold recordTagEntryInQueue, copyOf.
  destruct (pattern tag) as [pat|] eqn:P.
  { exists tag, s. rewrite P, <- P, set_pattern_same. done. }
  destruct (lineNumberEntry tag) eqn:L; simpl.
  { exists tag, s. rewrite P at 2. rewrite <- P, set_pattern_same. done. }
  destruct H as [H|[H|H]]; [done|done|].
  destruct (makePatternString_total e tag s H) as (pat & s' & E & C & F).
  rewrite E. simpl. exists (set_pattern (Some pat) tag), s'. done.
Qed.

Lemma to_int_small n : 0 <= n < 2 ^ 31 -> to_int n = n.
Proof.
  intros H. unfold to_int. destruct (n <? 2 ^ 31) eqn:E; [done|].
  apply Z.ltb_ge in E. lia.
Qed.

Lemma store_slot_end (q : list tagEntryInfo) v :
  store_slot q (length q) v = q ++ [v].
Proof.
  unfold store_slot. rewrite Nat.ltb_irrefl, Nat.sub_diag. reflexivity.
Qed.

(** Queueing a tag appends its copy to the queue and returns the count
    there was. *)
Lemma queueTagEntry_spec e tag s :
  queue_wf s -> corkQueue_count s < 2 ^ 31 - 1 ->
  pattern tag <> None \/ lineNumberEntry tag = true \/ lineReadable e tag ->
  exists slot s',
    queueTagEntry e tag s = Ok (corkQueue_count s, s')
    /\ copyOf slot tag
    /\ corkQueue_queue s' = corkQueue_queue s ++ [slot]
    /\ corkQueue_count s' = corkQueue_count s + 1
    /\ cork s' = cork s /\ fp s' = fp s /\ warnings s' = warnings s.
Proof.
  intros [W1 W2] B R. unfold queueTagEntry.
  set (len := if negb _ then _ else _).
  set (s1 := with_corkQueue _ _ _ s).
  destruct (recordTagEntryInQueue_total e tag s1 R) as (slot & s2 & E & Cp & [C Wn] & F).
  rewrite E. simpl.
  unfold corkState in C. simpl in C. inversion C as [[Hc Hq Hl Hn]].
  exists slot. eexists. split; [reflexivity|]. simpl.
  split; [done|].
  rewrite Hq, Hn, W1, Nat2Z.id, store_slot_end.
  rewrite to_uint_small by lia.
  repeat split; done.
Qed.

Lemma makeTagEntry_queued e tag s :
  in_session s -> corkQueue_count s < 2 ^ 31 - 1 -> queueable e tag ->
  exists slot s',
    makeTagEntry e tag s = Ok (corkQueue_count s, s')
    /\ copyOf slot tag
    /\ corkQueue_queue s' = corkQueue_queue s ++ [slot]
    /\ corkQueue_count s' = corkQueue_count s + 1
    /\ cork s' = cork s /\ fp s' = fp s /\ warnings s' = warnings s.
Proof.
  intros [Hc W] B [Hn R].
  destruct (queueTagEntry_spec e tag s W B R) as (slot & s' & E & H).
  exists slot, s'. split; [|exact H].
  unfold makeTagEntry.
  assert (Ascii.eqb (at_index (name tag) 0) NUL && negb (placeholder tag) = false) as ->.
  { destruct Hn as [Hn|Hn]; [unfold emptyName in Hn; by rewrite Hn|].
    rewrite Hn. apply andb_false_r. }
  assert ((cork s =? 0) = false) as -> by (apply Z.eqb_neq; lia).
  simpl. rewrite E. simpl. rewrite to_int_small by (destruct W; lia). reflexivity.
Qed.

Lemma writeAll_app e l1 l2 s :
  writeAll e (l1 ++ l2) s = (s' ← writeAll e l1 s; writeAll e l2 s').
Proof.
  revert s. induction l1 as [|t l1 IH]; intros s; simpl; [reflexivity|].
  destruct (writeTagEntry e t s); simpl; try reflexivity. apply IH.
Qed.

Lemma writeAll_sameCork e l s s' :
  writeAll e l s = Ok s' -> sameCork s s' /\ exists text, fp s' = fp s ++ text.
Proof.
  revert s. induction l as [|t l IH]; intros s H; simpl in H.
  - inversion H; subst. split; [done|]. exists []. by rewrite app_nil_r.
  - inv_bind H as (s1 & H1 & H).
    apply writeTagEntry_sameCork in H1 as [C1 [t1 F1]].
    apply IH in H as [C2 [t2 F2]].
    split; [by eapply sameCork_trans|].
    exists (t1 ++ t2). rewrite F2, F1, app_assoc. reflexivity.
Qed.

(** The loop of [uncorkTagFile] writes the slots from [i] on, in the
    order of the queue. *)
Lemma uncork_write_loop_writeAll e n :
  forall i s,
    corkQueue_count s = Z.of_nat (length (corkQueue_queue s)) ->
    0 <= i -> corkQueue_count s - i <= Z.of_nat n ->
    uncork_write_loop n e i s
    = writeAll e (drop (Z.to_nat i) (corkQueue_queue s)) s.
Proof.
  induction n as [|n IH]; intros i s W Hi Hn.
  - simpl. rewrite drop_ge by lia. reflexivity.
  - simpl. destruct (i <? corkQueue_count s) eqn:L.
    + apply Z.ltb_lt in L.
      destruct (corkQueue_queue s !! Z.to_nat i) as [tag|] eqn:E.
      2:{ apply lookup_ge_None in E. lia. }
      rewrite (drop_S _ _ _ E). simpl.
      destruct (writeTagEntry e tag s) as [s'| | |] eqn:Wr; try reflexivity.
      simpl.
      apply writeTagEntry_sameCork in Wr as [[C _] _].
      unfold corkState in C. inversion C as [[Hc Hq Hl Hk]].
      rewrite IH by (rewrite ?Hq, ?Hk; lia).
      rewrite Hq. replace (Z.to_nat (i + 1)) with (S (Z.to_nat i)) by lia.
      reflexivity.
    + apply Z.ltb_ge in L. rewrite drop_ge by lia. reflexivity.
Qed.

Lemma makeTagEntries_queued e tags :
  forall s,
    in_session s ->
    corkQueue_count s + Z.of_nat (length tags) < 2 ^ 31 ->
    Forall (queueable e) tags ->
    exists slots s',
      makeTagEntries e tags s
      = Ok (seqZ (corkQueue_count s) (Z.of_nat (length tags)), s')
      /\ Forall2 copyOf slots tags
      /\ corkQueue_queue s' = corkQueue_queue s ++ slots
      /\ corkQueue_count s' = corkQueue_count s + Z.of_nat (length tags)
      /\ cork s' = cork s /\ fp s' = fp s /\ warnings s' = warnings s.
Proof.
  induction tags as [|t ts IH]; intros s S B Q.
  - exists [], s. simpl. rewrite app_nil_r, Z.add_0_r. repeat split; done.
  - apply Forall_cons in Q as [Qt Qs]. simpl length in B.
    destruct (makeTagEntry_queued e t s S ltac:(lia) Qt)
      as (slot & s1 & E & Cp & Hq & Hn & Hc & Hf & Hw).
    assert (in_session s1) as S1.
    { destruct S as [Sc [W1 W2]]. split; [lia|]. split; [|lia].
      rewrite Hn, Hq, length_app, W1. simpl. lia. }
    destruct (IH s1 S1 ltac:(lia) Qs)
      as (slots & s2 & E2 & Cps & Hq2 & Hn2 & Hc2 & Hf2 & Hw2).
    exists (slot :: slots), s2. split.
    { rewrite (seqZ_cons (corkQueue_count s)) by (simpl length; lia).
      replace (Z.pred (Z.of_nat (length (t :: ts))))
        with (Z.of_nat (length ts)) by (simpl length; lia).
      replace (Z.succ (corkQueue_count s)) with (corkQueue_count s1) by lia.
      simpl makeTagEntries. rewrite E. simpl. rewrite E2. reflexivity. }
    split; [by constructor|].
    rewrite Hq2, Hq, <- app_assoc, Hn2, Hn, Hc2, Hc, Hf2, Hf, Hw2, Hw.
    simpl length. repeat split; try done. lia.
Qed.

Lemma corkTagFile_fresh s0 :
  cork s0 = 0 ->
  in_session (corkTagFile s0)
  /\ corkQueue_queue (corkTagFile s0) = [zeroTag]
  /\ corkQueue_count (corkTagFile s0) = 1
  /\ fp (corkTagFile s0) = fp s0 /\ cork (corkTagFile s0) = 1.
Proof.
  intros H. unfold corkTagFile. simpl. rewrite H. simpl.
  repeat split; done.
Qed.

Lemma uncorkTagFile_spec e s :
  corkQueue_count s = Z.of_nat (length (corkQueue_queue s)) ->
  uncorkTagFile e s
  = if cork s - 1 >? 0 then Ok (with_cork (cork s - 1) s)
    else (s' ← writeAll e (drop 1 (corkQueue_queue s)) (with_cork (cork s - 1) s);
          Ok (with_corkQueue [] 0 0 s')).
Proof.
  intros W. unfold uncorkTagFile. simpl.
  destruct (cork s - 1 >? 0); [reflexivity|].
  rewrite uncork_write_loop_writeAll by (simpl; lia).
  reflexivity.
Qed.

Lemma getEntryInCorkQueue_none s n :
  0 <= n < 2 ^ 32 -> n = 0 \/ corkQueue_count s <= n ->
  getEntryInCorkQueue s n = None.
Proof.
  intros R H. unfold getEntryInCorkQueue. rewrite to_uint_small by done.
  destruct H as [->|H]; [reflexivity|].
  destruct (n <? corkQueue_count s) eqn:E; [apply Z.ltb_lt in E; lia|].
  rewrite andb_false_r. reflexivity.
Qed.

(** *** Sessions *)

Lemma addExtensionFields_kind e tag s r :
  addExtensionFields e tag s = Ok r -> kind tag <> None.
Proof.
  unfold addExtensionFields. intros H K.
  inv_bind H as (a & Hk & _). unfold extKind in Hk.
  inv_bind Hk as (k & _ & Hk). rewrite K in Hk. discriminate.
Qed.

(** The line that [writeCtagsEntry] writes for a tag that has its
    address at hand. *)
Lemma writeCtagsEntry_addressed e tag s n s' :
  addressed tag ->
  writeCtagsEntry e tag s = Ok (n, s') ->
  exists line, entryLine e s tag = Ok line /\ fp s' = fp s ++ line.
Proof.
  intros A H. unfold writeCtagsEntry in H.
  inv_bind H as ([nm s1] & H1 & H).
  inv_bind H as ([file s2] & H2 & H).
  simpl in H1, H2.
  inv_bind H1 as (nm' & Hn & H1). inversion H1; subst nm' s1; clear H1.
  inversion H2; subst file s2; clear H2.
  fold (fileColumn e tag) in H.
  unfold fprintf at 1 in H. cbv zeta in H.
  set (s1 := with_fp _ s) in H.
  inv_bind H as ([n1 s2] & Haddr & H).
  inv_bind H as ([n2 s3] & Hext & H).
  unfold fprintf in H. inversion H; subst n s'; clear H.
  assert (exists addr, addrText e tag = Ok addr
                       /\ s2 = with_fp (fp s1 ++ addr) s1)
    as (addr & Ha & ->).
  { unfold addrText. destruct (lineNumberEntry tag) eqn:Ln.
    - unfold writeLineNumberEntry in Haddr.
      destruct (lineDirectives (opts e)).
      + inv_bind Haddr as ([v s'] & Hv & Haddr). simpl in Hv.
        inv_bind Hv as (v' & Hr & Hv). inversion Hv; subst v' s'; clear Hv.
        inversion Haddr; subst. by exists v.
      + inversion Haddr; subst. eauto.
    - destruct A as [A|A]; [congruence|].
      destruct (pattern tag) as [pat|]; [|done].
      inversion Haddr; subst. by exists pat. }
  unfold entryLine. rewrite Hn, Ha. simpl.
  destruct (includeExtensionFlags e).
  - pose proof (addExtensionFields_kind _ _ _ _ Hext) as K.
    rewrite addExtensionFields_suffix in Hext by done.
    inv_bind Hext as (suffix & Es & Hext). inversion Hext; subst n2 s3.
    rewrite (extensionSuffix_ext e _ s) in Es by done.
    rewrite Es. simpl. eexists. split; [reflexivity|].
    unfold s1. simpl. repeat (rewrite <- ?app_assoc; simpl). reflexivity.
  - inversion Hext; subst n2 s3. simpl. eexists. split; [reflexivity|].
    unfold s1. simpl. repeat (rewrite <- ?app_assoc; simpl). reflexivity.
Qed.

Lemma entryLine_ext e s1 s2 tag :
  corkQueue_queue s1 = corkQueue_queue s2 ->
  corkQueue_count s1 = corkQueue_count s2 ->
  entryLine e s1 tag = entryLine e s2 tag.
Proof.
  intros Q C. unfold entryLine.
  by rewrite (extensionSuffix_ext e s1 s2 tag Q C).
Qed.

(** In the ctags format what [writeAll] appends is the lines of the
    tags that are no placeholders, one after the other. *)
Lemma writeAll_lines_addressed e l :
  xref (opts e) = false -> etags (opts e) = false ->
  Forall addressed l ->
  forall s s',
    writeAll e l s = Ok s' ->
    exists lines,
      mapM (entryLine e s) (written l) = Ok lines
      /\ fp s' = fp s ++ concat lines.
Proof.
  intros X E F. induction F as [|t l A F IH]; intros s s' H.
  - inversion H; subst. exists []. simpl. by rewrite app_nil_r.
  - simpl in H. inv_bind H as (s1 & Hw & H).
    pose proof (writeTagEntry_sameCork _ _ _ _ Hw) as [[Q _] _].
    unfold corkState in Q. inversion Q as [[Q1 Q2 Q3 Q4]].
    destruct (IH s1 s' H) as (lines & M & Fl).
    assert (mapM (entryLine e s) (written l) = Ok lines) as M'.
    { rewrite <- M. unfold written.
      generalize (filter (fun t => placeholder t = false) l). intros l'.
      clear - Q2 Q4.
      induction l' as [|a l' IHl]; [reflexivity|]. simpl.
      rewrite (entryLine_ext e s s1 a) by congruence. by rewrite IHl. }
    unfold written. rewrite filter_cons.
    unfold writeTagEntry in Hw.
    destruct (placeholder t) eqn:P.
    + inversion Hw; subst s1. destruct (decide (true = false)); [done|].
      exists lines. done.
    + rewrite X, E in Hw.
      inv_bind Hw as ([len s0] & Hc & Hw). inversion Hw; subst s1; clear Hw.
      apply writeCtagsEntry_addressed in Hc as (line & L & Fc); [|done].
      destruct (decide (false = false)); [|done].
      exists (line :: lines). simpl. rewrite L. simpl.
      fold (written l). rewrite M'. simpl.
      split; [reflexivity|].
      rewrite Fl. simpl. rewrite Fc, <- app_assoc. reflexivity.
Qed.

(** The copy that goes to the queue has its address at hand. *)
Lemma recordTagEntryInQueue_addressed e tag s slot s' :
  recordTagEntryInQueue e tag s = Ok (slot, s') -> addressed slot.
Proof.
  unfold recordTagEntryInQueue, addressed. intros H.
  destruct (pattern tag) as [pat|] eqn:P.
  { inversion H; subst. right. by rewrite P. }
  destruct (lineNumberEntry tag) eqn:L; simpl in H.
  { inversion H; subst. by left. }
  inv_bind H as ([p s1] & _ & H). inversion H; subst. by right.
Qed.

Lemma makeTagEntry_addressed e tag s i s' slot :
  in_session s -> corkQueue_count s < 2 ^ 31 - 1 ->
  (emptyName tag = false \/ placeholder tag = true) ->
  makeTagEntry e tag s = Ok (i, s') ->
  corkQueue_queue s' = corkQueue_queue s ++ [slot] ->
  addressed slot.
Proof.
  intros [Hc [W1 W2]] B N H Q. unfold makeTagEntry in H.
  fold (emptyName tag) in H.
  assert (emptyName tag && negb (placeholder tag) = false) as Z.
  { destruct N as [N|N]; rewrite N; [done|apply andb_false_r]. }
  rewrite Z in H.
  assert ((cork s =? 0) = false) as Z0 by (apply Z.eqb_neq; lia).
  rewrite Z0 in H. simpl in H.
  inv_bind H as ([j s1] & Hq & H). inversion H; subst; clear H.
  unfold queueTagEntry in Hq.
  inv_bind Hq as ([slot0 s2] & Hr & Hq). inversion Hq; subst; clear Hq.
  pose proof (recordTagEntryInQueue_addressed _ _ _ _ _ Hr) as A.
  pose proof (recordTagEntryInQueue_total e tag) as T.
  assert (corkState s2
          = corkState (with_corkQueue (corkQueue_queue s)
                         (if negb (corkQueue_count s <? corkQueue_length s)
                          then to_uint ((if corkQueue_length s =? 0 then 1
                                         else corkQueue_length s) * 2)
                          else corkQueue_length s)
                         (to_uint (corkQueue_count s + 1)) s)) as C.
  { clear - Hr. unfold recordTagEntryInQueue in Hr.
    destruct (pattern tag); [by inversion Hr|].
    destruct (lineNumberEntry tag); simpl in Hr; [by inversion Hr|].
    inv_bind Hr as ([pat s1] & Hp & Hr). inversion Hr; subst.
    unfold makePatternString in Hp.
    inv_bind Hp as ([[text n] s3] & Hc & Hp). inversion Hp; subst.
    by apply makePatternStringCommon_frame in Hc as (C & _). }
  unfold corkState in C. simpl in C. inversion C as [[C1 C2 C3 C4]].
  simpl in Q. rewrite C2, W1, Nat2Z.id, store_slot_end in Q.
  apply app_inj_tail in Q as [_ <-]. exact A.
Qed.

(** While a session stays open the calls write nothing: the copies of
    the tags go to the end of the queue in the order of the calls, and
    the depth counts the calls of [corkTagFile] that are not matched. *)
Lemma runOps_open e ops :
  forall s,
    in_session s -> staysOpen (cork s) ops = true ->
    corkQueue_count s + Z.of_nat (length (madeBy ops)) < 2 ^ 31 ->
    Forall (queueable e) (madeBy ops) ->
    exists slots s',
      runOps e ops s = Ok s'
      /\ Forall2 copyOf slots (madeBy ops)
      /\ Forall addressed slots
      /\ corkQueue_queue s' = corkQueue_queue s ++ slots
      /\ corkQueue_count s'
         = corkQueue_count s + Z.of_nat (length (madeBy ops))
      /\ cork s' = depthAfter (cork s) ops
      /\ 0 < cork s'
      /\ fp s' = fp s /\ etags_fp s' = etags_fp s
      /\ numTags_added s' = numTags_added s
      /\ warnings s' = warnings s.
Proof.
  induction ops as [|op ops IH]; intros s S O B Q.
  - exists [], s. simpl. rewrite app_nil_r, Z.add_0_r.
    destruct S as [Sc _]. repeat split; try done.
  - destruct S as [Sc [W1 W2]].
    destruct op as [| |tag]; simpl in O, B, Q |- *.
    + assert (corkTagFile s = with_cork (cork s + 1) s) as ->.
      { unfold corkTagFile. simpl.
        destruct (cork s + 1 =? 1) eqn:E; [|reflexivity].
        apply Z.eqb_eq in E. lia. }
      destruct (IH (with_cork (cork s + 1) s)) as (slots & s' & H);
        [split; [simpl; lia|split; done]|exact O|exact B|exact Q|].
      exists slots, s'. exact H.
    + apply andb_true_iff in O as [Od O]. apply Z.ltb_lt in Od.
      rewrite uncorkTagFile_spec by done.
      assert ((cork s - 1 >? 0) = true) as ->.
      { rewrite Z.gtb_ltb. apply Z.ltb_lt. lia. }
      simpl.
      destruct (IH (with_cork (cork s - 1) s)) as (slots & s' & H);
        [split; [simpl; lia|split; done]|exact O|exact B|exact Q|].
      exists slots, s'. exact H.
    + apply Forall_cons in Q as [Qt Qs].
      assert (in_session s) as S by (split; [done|split; done]).
      destruct (makeTagEntry_queued e tag s S ltac:(lia) Qt) as
        (slot & s1 & E & Cp & Hq & Hn & Hc & Hf & Hw).
      assert (addressed slot) as A.
      { apply (makeTagEntry_addressed e tag s _ s1 slot S ltac:(lia)
                 (proj1 Qt) E Hq). }
      assert (etags_fp s1 = etags_fp s /\ numTags_added s1 = numTags_added s)
        as [He Ha].
      { clear - E Sc Qt. unfold makeTagEntry in E.
        fold (emptyName tag) in E.
        assert (emptyName tag && negb (placeholder tag) = false) as Z.
        { destruct Qt as [[N|N] _]; rewrite N; [done|apply andb_false_r]. }
        rewrite Z in E.
        assert ((cork s =? 0) = false) as Z0 by (apply Z.eqb_neq; lia).
        rewrite Z0 in E. simpl in E.
        inv_bind E as ([j s2] & Hq & E). inversion E; subst; clear E.
        unfold queueTagEntry in Hq.
        inv_bind Hq as ([slot0 s3] & Hr & Hq). inversion Hq; subst; clear Hq.
        simpl. unfold recordTagEntryInQueue in Hr.
        destruct (pattern tag); [by inversion Hr|].
        destruct (lineNumberEntry tag); simpl in Hr; [by inversion Hr|].
        inv_bind Hr as ([pat s1] & Hp & Hr). inversion Hr; subst.
        unfold makePatternString in Hp.
        inv_bind Hp as ([[text n] s4] & Hc & Hp). inversion Hp; subst.
        unfold makePatternStringCommon in Hc. inv_ok; done. }
      rewrite E. simpl.
      assert (in_session s1) as S1.
      { split; [lia|]. split; [|lia].
        rewrite Hn, Hq, length_app, W1. simpl. lia. }
      assert (staysOpen (cork s1) ops = true) as O1 by (by rewrite Hc).
      destruct (IH s1 S1 O1 ltac:(lia) Qs) as
        (slots & s' & R & Cps & As & Hq2 & Hn2 & Hc2 & Hp2 & Hf2 & He2
         & Ha2 & Hw2).
      exists (slot :: slots), s'. split; [done|].
      split; [by constructor|]. split; [by constructor|].
      split; [by rewrite Hq2, Hq, <- app_assoc|].
      split; [rewrite Hn2, Hn; simpl length; lia|].
      split; [by rewrite Hc2, Hc|].
      split; [exact Hp2|].
      rewrite Hf2, Hf, He2, He, Ha2, Ha, Hw2, Hw. done.
Qed.

Lemma runOps_app e ops1 ops2 s :
  runOps e (ops1 ++ ops2) s = (s' ← runOps e ops1 s; runOps e ops2 s').
Proof.
  revert s. induction ops1 as [|op ops1 IH]; intros s; [reflexivity|].
  destruct op as [| |tag]; simpl.
  - apply IH.
  - destruct (uncorkTagFile e s); simpl; try reflexivity. apply IH.
  - destruct (makeTagEntry e tag s) as [[i s1]| | |]; simpl; try reflexivity.
    apply IH.
Qed.

Lemma corkTagFile_nested s :
  cork s <> 0 -> corkTagFile s = with_cork (cork s + 1) s.
Proof.
  intros H. unfold corkTagFile. simpl.
  destruct (cork s + 1 =? 1) eqn:E; [|reflexivity].
  apply Z.eqb_eq in E. lia.
Qed.

Lemma corkTagFile_first s :
  cork s = 0 -> corkTagFile s = with_corkQueue [zeroTag] 1 1 (with_cork 1 s).
Proof. intros H. unfold corkTagFile. simpl. rewrite H. reflexivity. Qed.

(** A session from the first [corkTagFile] on, with the sessions nested
    in it. *)
Lemma session_spec e s ops :
  cork s = 0 -> staysOpen 1 ops = true ->
  Z.of_nat (length (madeBy ops)) < 2 ^ 31 - 1 ->
  Forall (queueable e) (madeBy ops) ->
  exists slots s1,
    runOps e (OpCork :: ops) s = Ok s1
    /\ Forall2 copyOf slots (madeBy ops)
    /\ corkQueue_queue s1 = zeroTag :: slots
    /\ cork s1 = depthAfter 1 ops /\ 0 < cork s1
    /\ fp s1 = fp s /\ etags_fp s1 = etags_fp s
    /\ numTags_added s1 = numTags_added s
    /\ (depthAfter 1 ops = 1 ->
        runOps e (OpCork :: ops ++ [OpUncork]) s
        = (s2 ← writeAll e slots (with_cork 0 s1);
           Ok (with_corkQueue [] 0 0 s2))
        /\ forall s2,
             runOps e (OpCork :: ops ++ [OpUncork]) s = Ok s2 ->
             cork s2 = 0 /\ corkQueue_queue s2 = []
             /\ corkQueue_length s2 = 0 /\ corkQueue_count s2 = 0
             /\ (exists text, fp s2 = fp s ++ text)
             /\ (xref (opts e) = false -> etags (opts e) = false ->
                 exists lines,
                   mapM (entryLine e s1) (written slots) = Ok lines
                   /\ fp s2 = fp s ++ concat lines)).
Proof.
  intros H O B Q.
  destruct (corkTagFile_fresh s H) as (S & Hq & Hn & Hf & Hc).
  assert (etags_fp (corkTagFile s) = etags_fp s
          /\ numTags_added (corkTagFile s) = numTags_added s) as [He Ha].
  { rewrite corkTagFile_first by done. done. }
  rewrite <- Hc in O.
  destruct (runOps_open e ops (corkTagFile s) S O ltac:(lia) Q)
    as (slots & s1 & R & Cp & As & Hq1 & Hn1 & Hc1 & Hp1 & Hf1 & He1 & Ha1
        & _).
  rewrite Hc in Hc1. rewrite Hq in Hq1.
  exists slots, s1. simpl runOps.
  split; [exact R|]. split; [exact Cp|]. split; [exact Hq1|].
  split; [exact Hc1|]. split; [exact Hp1|].
  split; [congruence|]. split; [congruence|]. split; [congruence|].
  intros D.
  assert (runOps e (ops ++ [OpUncork]) (corkTagFile s)
          = (s2 ← writeAll e slots (with_cork 0 s1);
             Ok (with_corkQueue [] 0 0 s2))) as U.
  { rewrite runOps_app, R. simpl.
    rewrite uncorkTagFile_spec.
    2:{ apply Forall2_length in Cp.
        rewrite Hn1, Hq1, Hn. simpl length. lia. }
    rewrite Hc1, D, Hq1. change (1 - 1) with 0.
    change (0 >? 0) with false. cbn iota.
    change (drop 1 ([zeroTag] ++ slots)) with slots.
    destruct (writeAll e slots (with_cork 0 s1)); reflexivity. }
  split; [exact U|].
  intros s2 H2. rewrite U in H2.
  inv_bind H2 as (s2' & W & H2). inversion H2; subst s2; clear H2.
  pose proof (writeAll_sameCork _ _ _ _ W) as [[Qc _] [text Ft]].
  assert (cork s2' = 0) as C0.
  { unfold corkState in Qc. simpl in Qc. congruence. }
  simpl. split; [exact C0|]. split; [reflexivity|].
  split; [reflexivity|]. split; [reflexivity|].
  split.
  { exists text. rewrite Ft. simpl. congruence. }
  intros X Et.
  destruct (writeAll_lines_addressed e slots X Et As _ _ W) as (lines & M & Fl).
  exists lines. split.
  - rewrite <- M. unfold written.
    generalize (filter (fun t => placeholder t = false) slots). intros l'.
    clear. induction l' as [|a l' IHl]; [reflexivity|]. simpl.
    rewrite (entryLine_ext e s1 (with_cork 0 s1) a) by done.
    by rewrite IHl.
  - rewrite Fl. simpl. congruence.
Qed.

(** C3: the cork is a counter.  [corkTagFile] adds one to the depth and
    touches the queue only when the depth was zero, when it makes the
    queue of the one empty slot at index 0.  [uncorkTagFile] takes one
    from the depth; when the depth stays above zero nothing else
    changes, and nothing is written.  When the depth becomes zero the
    entries of the queue from index 1 on are written by [writeTagEntry],
    one after the other in the order of the queue, and then the queue is
    given up (no array, length and count 0).  In a session opened by
    [corkTagFile] on a tag file that is not corked, whatever sessions
    are opened and closed inside it, no call writes anything as long
    as the depth stays above zero, and the queue holds behind its slot 0
    the copies of the tags in the order in which they were submitted.
    The call of [uncorkTagFile] that brings the depth to zero writes
    these copies in that order and leaves no queue; what it appends to
    the tag file comes behind what was there, and in the ctags format
    it is the lines of the copies that are no placeholders, one after
    the other. *)
Theorem C3_cork_uncork e s :
  corkQueue_count s = Z.of_nat (length (corkQueue_queue s)) ->
  (1 < cork s -> uncorkTagFile e s = Ok (with_cork (cork s - 1) s))
  /\ (cork s = 1 ->
      uncorkTagFile e s
      = (s' ← writeAll e (drop 1 (corkQueue_queue s)) (with_cork 0 s);
         Ok (with_corkQueue [] 0 0 s')))
  /\ (forall l1 l2 s1,
        writeAll e (l1 ++ l2) s1 = (s' ← writeAll e l1 s1; writeAll e l2 s'))
  /\ (forall tags,
        cork s = 0 ->
        Z.of_nat (length tags) < 2 ^ 31 - 1 ->
        Forall (queueable e) tags ->
        exists slots s1,
          makeTagEntries e tags (corkTagFile s)
          = Ok (seqZ 1 (Z.of_nat (length tags)), s1)
          /\ Forall2 copyOf slots tags
          /\ fp s1 = fp s
          /\ uncorkTagFile e s1
             = (s2 ← writeAll e slots (with_cork 0 s1);
                Ok (with_corkQueue [] 0 0 s2)))
  /\ (cork s <> 0 -> corkTagFile s = with_cork (cork s + 1) s)
  /\ (cork s = 0 ->
      corkTagFile s = with_corkQueue [zeroTag] 1 1 (with_cork 1 s))
  /\ (forall ops,
        cork s = 0 -> staysOpen 1 ops = true ->
        Z.of_nat (length (madeBy ops)) < 2 ^ 31 - 1 ->
        Forall (queueable e) (madeBy ops) ->
        exists slots s1,
          runOps e (OpCork :: ops) s = Ok s1
          /\ Forall2 copyOf slots (madeBy ops)
          /\ corkQueue_queue s1 = zeroTag :: slots
          /\ cork s1 = depthAfter 1 ops /\ 0 < cork s1
          /\ fp s1 = fp s /\ etags_fp s1 = etags_fp s
          /\ numTags_added s1 = numTags_added s
          /\ (depthAfter 1 ops = 1 ->
              runOps e (OpCork :: ops ++ [OpUncork]) s
              = (s2 ← writeAll e slots (with_cork 0 s1);
                 Ok (with_corkQueue [] 0 0 s2))
              /\ forall s2,
                   runOps e (OpCork :: ops ++ [OpUncork]) s = Ok s2 ->
                   cork s2 = 0 /\ corkQueue_queue s2 = []
                   /\ corkQueue_length s2 = 0 /\ corkQueue_count s2 = 0
                   /\ (exists text, fp s2 = fp s ++ text)
                   /\ (xref (opts e) = false -> etags (opts e) = false ->
                       exists lines,
                         mapM (entryLine e s1) (written slots) = Ok lines
                         /\ fp s2 = fp s ++ concat lines))).
Proof.
  intros W. split; [|split; [|split; [|split; [|split; [|split]]]]].
  - intros H. rewrite uncorkTagFile_spec by done.
    destruct (cork s - 1 >? 0) eqn:E; [reflexivity|].
    rewrite Z.gtb_ltb in E. apply Z.ltb_ge in E. lia.
  - intros H. rewrite uncorkTagFile_spec by done. rewrite H. reflexivity.
  - apply writeAll_app.
  - intros tags H B Q.
    destruct (corkTagFile_fresh s H) as (S & Hq & Hn & Hf & Hc).
    destruct (makeTagEntries_queued e tags (corkTagFile s) S ltac:(lia) Q)
      as (slots & s1 & E & Cp & Hq1 & Hn1 & Hc1 & Hf1 & _).
    exists slots, s1. rewrite Hn in E. split; [exact E|].
    split; [exact Cp|]. split; [congruence|].
    rewrite uncorkTagFile_spec.
    2:{ apply Forall2_length in Cp.
        rewrite Hn1, Hq1, Hn, Hq, length_app. simpl. lia. }
    rewrite Hc1, Hc, Hq1, Hq. reflexivity.
  - apply corkTagFile_nested.
  - apply corkTagFile_first.
  - intros ops. apply session_spec.
Qed.

Lemma queueable_Foo_bar : Forall (queueable exampleEnv) [tagFoo; tagBar].
Proof.
  assert (forall t l, queueable exampleEnv t -> Forall (queueable exampleEnv) l ->
                      Forall (queueable exampleEnv) (t :: l)) as C
    by (intros; by constructor).
  apply C; [|apply C; [|constructor]];
    (split; [left; reflexivity|]); right; right; eexists _, _;
    (split; [reflexivity|discriminate]).
Qed.

Lemma C3_cork_uncork_witness :
  exists slots s1,
    runOps exampleEnv
      [OpCork; OpMake tagFoo; OpCork; OpMake tagBar; OpUncork] TagFile0
    = Ok s1
    /\ Forall2 copyOf slots [tagFoo; tagBar]
    /\ corkQueue_queue s1 = zeroTag :: slots
    /\ cork s1 = 1 /\ fp s1 = []
    /\ runOps exampleEnv
         [OpCork; OpMake tagFoo; OpCork; OpMake tagBar; OpUncork; OpUncork]
         TagFile0
       = (s2 ← writeAll exampleEnv slots (with_cork 0 s1);
          Ok (with_corkQueue [] 0 0 s2)).
Proof.
  destruct (C3_cork_uncork exampleEnv TagFile0 eq_refl)
    as (_ & _ & _ & _ & _ & _ & H).
  destruct (H [OpMake tagFoo; OpCork; OpMake tagBar; OpUncork]
              eq_refl eq_refl eq_refl queueable_Foo_bar)
    as (slots & s1 & R & Cp & Hq & Hc & _ & Hf & _ & _ & F).
  exists slots, s1. split; [exact R|]. split; [exact Cp|].
  split; [exact Hq|]. split; [exact Hc|]. split; [exact Hf|].
  exact (proj1 (F eq_refl)).
Defined.

(** C9: in a cork session the tags that are queued get the indices 1, 2,
    3, ...: [makeTagEntry] returns the count of the queue before the
    insertion (the slot at index 0 included), the count grows by one, the
    index returned lies strictly between 0 and the new count,
    [getEntryInCorkQueue] returns at that index the copy of the tag, and
    the entries at the earlier indices stay.  [getEntryInCorkQueue]
    returns NULL for 0 and for an index that is not below the count. *)
Theorem C9_cork_indices e :
  (forall s tags,
      cork s = 0 ->
      Z.of_nat (length tags) < 2 ^ 31 - 1 ->
      Forall (queueable e) tags ->
      exists slots s1,
        makeTagEntries e tags (corkTagFile s)
        = Ok (seqZ 1 (Z.of_nat (length tags)), s1)
        /\ Forall2 copyOf slots tags
        /\ corkQueue_count s1 = 1 + Z.of_nat (length tags)
        /\ forall k slot,
             slots !! k = Some slot ->
             0 < 1 + Z.of_nat k < corkQueue_count s1
             /\ getEntryInCorkQueue s1 (1 + Z.of_nat k) = Some slot)
  /\ (forall s tag,
        in_session s -> corkQueue_count s < 2 ^ 31 - 1 -> queueable e tag ->
        exists slot s',
          makeTagEntry e tag s = Ok (corkQueue_count s, s')
          /\ copyOf slot tag
          /\ corkQueue_count s' = corkQueue_count s + 1
          /\ 0 < corkQueue_count s < corkQueue_count s'
          /\ getEntryInCorkQueue s' (corkQueue_count s) = Some slot
          /\ forall j, 0 < j < corkQueue_count s ->
               getEntryInCorkQueue s' j = getEntryInCorkQueue s j)
  /\ (forall s n,
        0 <= n < 2 ^ 32 -> n = 0 \/ corkQueue_count s <= n ->
        getEntryInCorkQueue s n = None).
Proof.
  split; [|split].
  - intros s tags H B Q.
    destruct (corkTagFile_fresh s H) as (Ses & Hq & Hn & Hf & Hc).
    destruct (makeTagEntries_queued e tags (corkTagFile s) Ses ltac:(lia) Q)
      as (slots & s1 & E & Cp & Hq1 & Hn1 & _).
    exists slots, s1. rewrite Hn in E, Hn1. split; [exact E|].
    split; [exact Cp|]. split; [exact Hn1|].
    intros k slot L.
    assert (k < length tags)%nat as Hk.
    { apply Forall2_length in Cp. rewrite <- Cp. eapply lookup_lt_Some; eauto. }
    split; [lia|].
    unfold getEntryInCorkQueue, SCOPE_NIL. rewrite to_uint_small by lia.
    rewrite Hn1.
    destruct (0 <? 1 + Z.of_nat k) eqn:A; [|apply Z.ltb_ge in A; lia].
    destruct (1 + Z.of_nat k <? 1 + Z.of_nat (length tags)) eqn:A2;
      [|apply Z.ltb_ge in A2; lia].
    simpl. rewrite Hq1, Hq.
    replace (Z.to_nat (1 + Z.of_nat k)) with (S k) by lia. exact L.
  - intros s tag S B Q.
    destruct (makeTagEntry_queued e tag s S B Q)
      as (slot & s' & E & Cp & Hq & Hn & _).
    exists slot, s'. split; [exact E|]. split; [exact Cp|].
    split; [exact Hn|].
    destruct S as [Sc [W1 W2]].
    split; [lia|]. split.
    + unfold getEntryInCorkQueue, SCOPE_NIL. rewrite to_uint_small by lia.
      rewrite Hn.
      destruct (0 <? corkQueue_count s) eqn:A; [|apply Z.ltb_ge in A; lia].
      destruct (corkQueue_count s <? corkQueue_count s + 1) eqn:A2;
        [|apply Z.ltb_ge in A2; lia].
      simpl. rewrite Hq, W1, Nat2Z.id.
      rewrite lookup_app_r by lia. rewrite Nat.sub_diag. reflexivity.
    + intros j Hj.
      unfold getEntryInCorkQueue, SCOPE_NIL. rewrite to_uint_small by lia.
      rewrite Hn, Hq.
      destruct (0 <? j) eqn:A; [|apply Z.ltb_ge in A; lia].
      destruct (j <? corkQueue_count s + 1) eqn:A2; [|apply Z.ltb_ge in A2; lia].
      destruct (j <? corkQueue_count s) eqn:A3; [|apply Z.ltb_ge in A3; lia].
      simpl. apply lookup_app_l. lia.
  - intros s n. apply getEntryInCorkQueue_none.
Qed.

Lemma C9_cork_indices_witness :
  exists slots s1,
    makeTagEntries exampleEnv [tagFoo; tagBar] (corkTagFile TagFile0)
    = Ok ([1; 2], s1)
    /\ Forall2 copyOf slots [tagFoo; tagBar]
    /\ corkQueue_count s1 = 3
    /\ forall k slot,
         slots !! k = Some slot ->
         0 < 1 + Z.of_nat k < corkQueue_count s1
         /\ getEntryInCorkQueue s1 (1 + Z.of_nat k) = Some slot.
Proof.
  destruct (C9_cork_indices exampleEnv) as (H & _).
  apply (H TagFile0 [tagFoo; tagBar]); [reflexivity|reflexivity|].
  exact queueable_Foo_bar.
Defined.

Example cork_session_flushed :
  flushed [tagFoo; tagBar]
  = Some (lit "Foo" ++ [TAB] ++ lit "a.cc" ++ [TAB] ++ lit "/^class Foo {$/"
          ++ separator ++ [TAB] ++ lit "c" ++ [NEWLINE]
          ++ lit "bar" ++ [TAB] ++ lit "a.cc" ++ [TAB]
          ++ lit "/^  void bar() {}$/" ++ separator ++ [TAB] ++ lit "f"
          ++ [TAB] ++ lit "class:Foo" ++ [NEWLINE]).
Proof. vm_compute. reflexivity. Qed.

(** The same tags, the second made in a session inside the first. *)
Example nested_session_flushed :
  match runOps exampleEnv
          [OpCork; OpMake tagFoo; OpCork; OpMake tagBar; OpUncork; OpUncork]
          TagFile0 with
  | Ok s => Some (fp s, cork s, corkQueue_count s)
  | _ => None
  end
  = Some (lit "Foo" ++ [TAB] ++ lit "a.cc" ++ [TAB] ++ lit "/^class Foo {$/"
          ++ separator ++ [TAB] ++ lit "c" ++ [NEWLINE]
          ++ lit "bar" ++ [TAB] ++ lit "a.cc" ++ [TAB]
          ++ lit "/^  void bar() {}$/" ++ separator ++ [TAB] ++ lit "f"
          ++ [TAB] ++ lit "class:Foo" ++ [NEWLINE], 0, 0).
Proof. vm_compute. reflexivity. Qed.

End EntryProps.

(** ** The registry of fields *)

Module FieldExtras.
Import CStr Field FieldNotions FieldProps.

Lemma streq_eq a b : streq a b = true <-> a = b.
Proof.
  revert b. induction a as [|x a IH]; intros [|y b]; simpl; try done.
  rewrite andb_true_iff, Ascii.eqb_eq, IH. split.
  - intros [-> ->]. done.
  - intros E. by inversion E.
Qed.

Lemma same_name_true a b :
  same_name a b = true <-> exists n, a = Some n /\ b = Some n.
Proof.
  destruct a as [x|], b as [y|]; simpl; try (split; [done|intros (n & H1 & H2); done]).
  rewrite streq_eq. split.
  - intros ->. eauto.
  - intros (n & H1 & H2). congruence.
Qed.

Lemma first_field_range p objs i :
  0 <= i ->
  first_field p objs i = FIELD_UNKNOWN
  \/ i <= first_field p objs i < i + Z.of_nat (length objs).
Proof.
  revert i. induction objs as [|o objs IH]; intros i Hi; simpl; [by left|].
  destruct (p o); [right; lia|].
  destruct (IH (i + 1) ltac:(lia)) as [H|H]; [by left|right; lia].
Qed.

(** What the search loop returns: the first index at which the test
    holds, or FIELD_UNKNOWN when it holds nowhere. *)
Lemma first_field_spec p objs i :
  0 <= i ->
  (first_field p objs i = FIELD_UNKNOWN /\ Forall (fun o => p o = false) objs)
  \/ exists k o,
       first_field p objs i = i + Z.of_nat k
       /\ objs !! k = Some o /\ p o = true
       /\ forall k' o', (k' < k)%nat -> objs !! k' = Some o' -> p o' = false.
Proof.
  revert i. induction objs as [|o objs IH]; intros i Hi; simpl.
  - left. split; [done|constructor].
  - destruct (p o) eqn:E.
    + right. exists 0%nat, o. split; [lia|]. split; [done|]. split; [done|].
      intros k' o' Hk. lia.
    + destruct (IH (i + 1) ltac:(lia)) as [[H F]|(k & o' & H & L & P & M)].
      * left. split; [done|]. by constructor.
      * right. exists (S k), o'. split; [lia|]. split; [done|]. split; [done|].
        intros [|k'] o'' Hk L'; simpl in L'.
        -- by inversion L'; subst.
        -- eapply M; [|exact L']. lia.
Qed.

Lemma first_field_ext p q objs objs' i :
  Forall2 (fun a b => p a = q b) objs objs' ->
  first_field p objs i = first_field q objs' i.
Proof.
  intros F. revert i. induction F as [|a b l l' H F IH]; intros i; simpl; [done|].
  rewrite H. destruct (q b); [done|apply IH].
Qed.

Lemma first_field_app p l1 l2 i :
  0 <= i ->
  first_field p (l1 ++ l2) i
  = if first_field p l1 i =? FIELD_UNKNOWN
    then first_field p l2 (i + Z.of_nat (length l1))
    else first_field p l1 i.
Proof.
  revert i. induction l1 as [|o l1 IH]; intros i Hi; simpl.
  - f_equal. lia.
  - destruct (p o).
    + destruct (i =? FIELD_UNKNOWN) eqn:E; [|done].
      apply Z.eqb_eq in E. unfold FIELD_UNKNOWN in E. lia.
    + rewrite IH by lia. replace (i + 1 + Z.of_nat (length l1)) with (i + Z.pos (Pos.of_succ_nat (length l1))) by lia.
      done.
Qed.

(** What [enableField] leaves of an object. *)
Lemma enableField_objects type state w r old r' :
  enableField type state w r = Some (old, r') ->
  Forall2 (fun a b => letter (def b) = letter (def a)
                      /\ name (def b) = name (def a)
                      /\ fixed b = fixed a
                      /\ nameWithPrefix b = nameWithPrefix a
                      /\ language b = language a
                      /\ sibling b = sibling a)
          (fieldObjects r) (fieldObjects r').
Proof.
  unfold enableField. intros H.
  assert (R : forall l : list fieldObject,
             Forall2 (fun a b => letter (def b) = letter (def a)
                      /\ name (def b) = name (def a)
                      /\ fixed b = fixed a
                      /\ nameWithPrefix b = nameWithPrefix a
                      /\ language b = language a
                      /\ sibling b = sibling a) l l).
  { intros l. apply Forall2_same_length_lookup. split; [done|].
    intros k a b H1 H2. rewrite H1 in H2. by inversion H2. }
  destruct (getFieldObject r type) as [fobj|] eqn:G; [|discriminate].
  apply getFieldObject_Some in G as [_ G].
  destruct (fixed fobj).
  - destruct (negb state && w); inversion H; subst; clear H;
      [unfold warn; destruct (fixedFieldWarning _)|]; apply R.
  - inversion H; subst; clear H. simpl.
    apply Forall2_same_length_lookup. split; [by rewrite length_insert|].
    intros k a b H1 H2.
    destruct (decide (Z.to_nat type = k)) as [<-|Hne].
    + rewrite list_lookup_insert_eq in H2 by (eapply lookup_lt_Some; eauto).
      rewrite G in H1. inversion H1; inversion H2; subst. done.
    + rewrite list_lookup_insert_ne in H2 by done. rewrite H1 in H2.
      by inversion H2.
Qed.

Lemma getFieldObject_lookup r t :
  getFieldObject r t = if t <? 0 then None else fieldObjects r !! Z.to_nat t.
Proof. reflexivity. Qed.

(** X1: [enableField] changes nothing but the enabled flag of the field
    it is called for (each field object having a definition of its own,
    as the registry holds them): the number of fields stays, every other
    field object stays as it was, and for every field, the one of the
    call included, [isFieldFixed], [nextSiblingField], [getFieldOwner]
    and [getFieldName] answer as before, and so do the lookups by letter
    and by name. *)
Theorem enableField_frame type state w r old r' :
  enableField type state w r = Some (old, r') ->
  countFields r' = countFields r
  /\ (forall t, t <> type -> getFieldObject r' t = getFieldObject r t)
  /\ (forall t, isFieldFixed r' t = isFieldFixed r t
                /\ nextSiblingField r' t = nextSiblingField r t
                /\ getFieldOwner r' t = getFieldOwner r t
                /\ forall b, getFieldName b r' t = getFieldName b r t)
  /\ (forall c, getFieldTypeForOption r' c = getFieldTypeForOption r c)
  /\ (forall init nm lang,
        fst (fst (getFieldTypeForNameAndLanguage init nm lang true r'))
        = fst (fst (getFieldTypeForNameAndLanguage init nm lang true r))).
Proof.
  intros H. pose proof (enableField_objects _ _ _ _ _ _ H) as F.
  split; [|split; [|split; [|split]]].
  - unfold countFields, fieldObjectUsed. apply Forall2_length in F. lia.
  - intros t Ht. unfold enableField in H.
    destruct (getFieldObject r type) as [fobj|] eqn:G; [|discriminate].
    apply getFieldObject_Some in G as [G0 G].
    destruct (fixed fobj).
    + destruct (negb state && w); inversion H; subst; clear H;
        [unfold warn; destruct (fixedFieldWarning _)|]; reflexivity.
    + inversion H; subst; clear H. unfold getFieldObject. simpl.
      destruct (t <? 0) eqn:E; [done|]. apply Z.ltb_ge in E.
      apply list_lookup_insert_ne. lia.
  - intros t. unfold isFieldFixed, nextSiblingField, getFieldOwner, getFieldName,
      getFieldObject.
    destruct (t <? 0); [done|].
    pose proof (proj1 (Forall2_lookup _ _ _) F (Z.to_nat t)) as Ft.
    destruct Ft as [a b (L & N & Fx & P & La & S)|]; simpl; [|done].
    rewrite Fx, S, La, P, N. done.
  - intros c. unfold getFieldTypeForOption. symmetry.
    apply first_field_ext. eapply Forall2_impl; [exact F|].
    intros a b (L & _). simpl. by rewrite L.
  - intros init nm lang. unfold getFieldTypeForNameAndLanguage.
    destruct nm as [nm|]; [|done].
    rewrite !andb_false_r. simpl. symmetry.
    apply first_field_ext. eapply Forall2_impl; [exact F|].
    intros a b (_ & N & _ & _ & La & _). simpl. by rewrite N, La.
Qed.

(** The loop of [updateSiblingField] sets the link of the last object
    before [i] that has the name, and of no other. *)
Lemma updateSiblingField_loop_spec i type nm objs :
  (updateSiblingField_loop i type nm objs = objs
   /\ forall k o, (k < i)%nat -> objs !! k = Some o ->
        same_name (name (def o)) (Some nm) = false)
  \/ exists j o,
       (j < i)%nat /\ objs !! j = Some o
       /\ same_name (name (def o)) (Some nm) = true
       /\ (forall k o', (j < k < i)%nat -> objs !! k = Some o' ->
             same_name (name (def o')) (Some nm) = false)
       /\ updateSiblingField_loop i type nm objs
          = <[j := set_sibling type o]> objs.
Proof.
  induction i as [|i IH]; simpl.
  - left. split; [done|]. intros k o Hk. lia.
  - destruct (objs !! i) as [fobj|] eqn:E.
    + destruct (same_name (name (def fobj)) (Some nm)) eqn:N.
      * right. exists i, fobj. split; [lia|]. split; [done|]. split; [done|].
        split; [|done]. intros k o' Hk. lia.
      * destruct IH as [[H1 H2]|(j & o & Hj & L & S & M & H)].
        -- left. split; [done|]. intros k o Hk L.
           destruct (decide (k = i)) as [->|]; [congruence|].
           eapply H2; [|exact L]. lia.
        -- right. exists j, o. split; [lia|]. split; [done|]. split; [done|].
           split; [|done]. intros k o' Hk L'.
           destruct (decide (k = i)) as [->|]; [congruence|].
           eapply M; [|exact L']. lia.
    + destruct IH as [[H1 H2]|(j & o & Hj & L & S & M & H)].
      * left. split; [done|]. intros k o Hk L.
        destruct (decide (k = i)) as [->|]; [congruence|].
        eapply H2; [|exact L]. lia.
      * right. exists j, o. split; [lia|]. split; [done|]. split; [done|].
        split; [|done]. intros k o' Hk L'.
        destruct (decide (k = i)) as [->|]; [congruence|].
        eapply M; [|exact L']. lia.
Qed.

(** All of an object but its link is kept by [updateSiblingField]. *)
Lemma updateSiblingField_loop_keeps i type nm objs :
  Forall2 (fun a b => def b = def a /\ fixed b = fixed a
                      /\ nameWithPrefix b = nameWithPrefix a
                      /\ language b = language a)
          objs (updateSiblingField_loop i type nm objs).
Proof.
  assert (R : Forall2 (fun a b => def b = def a /\ fixed b = fixed a
                      /\ nameWithPrefix b = nameWithPrefix a
                      /\ language b = language a) objs objs).
  { apply Forall2_same_length_lookup. split; [done|].
    intros k a b H1 H2. rewrite H1 in H2. by inversion H2. }
  destruct (updateSiblingField_loop_spec i type nm objs)
    as [[-> _]|(j & o & Hj & L & S & M & ->)]; [exact R|].
  apply Forall2_same_length_lookup. split; [by rewrite length_insert|].
  intros k a b H1 H2.
  destruct (decide (j = k)) as [->|Hne].
  - rewrite list_lookup_insert_eq in H2 by (eapply lookup_lt_Some; eauto).
    rewrite L in H1. inversion H1; inversion H2; subst. done.
  - rewrite list_lookup_insert_ne in H2 by done. rewrite H1 in H2.
    by inversion H2.
Qed.

Lemma first_field_none p objs i :
  Forall (fun o => p o = false) objs -> first_field p objs i = FIELD_UNKNOWN.
Proof.
  intros F. revert i. induction F as [|o l H F IH]; intros i; simpl; [done|].
  rewrite H. apply IH.
Qed.

Lemma first_field_unknown p objs i :
  0 <= i -> first_field p objs i = FIELD_UNKNOWN ->
  Forall (fun o => p o = false) objs.
Proof.
  intros Hi H.
  destruct (first_field_spec p objs i Hi) as [[_ F]|(k & o & E & _)]; [done|].
  rewrite H in E. unfold FIELD_UNKNOWN in E. lia.
Qed.

Lemma first_field_one p (o : fieldObject) i :
  first_field p [o] i = if p o then i else FIELD_UNKNOWN.
Proof. reflexivity. Qed.

(** X2: [defineField] returns the number of fields there were, which is
    the type of the new field, and the count grows by one.  The new field
    has no letter, is not fixed, belongs to the language given, has the
    prefixed name and no sibling, and no warning is issued.  The fields
    that were there keep their enabled flag, fixed flag, owner and names,
    the lookup by a letter other than NUL is unchanged, and the lookup of
    the new name for the language gives the field that it gave before,
    or the new field when there was none. *)
Theorem defineField_registers prefix d lang r t r' :
  defineField prefix d lang r = Some (t, r') ->
  exists nm,
    name d = Some nm
    /\ t = countFields r
    /\ countFields r' = countFields r + 1
    /\ warnings r' = warnings r
    /\ getFieldObject r' t
       = Some (mkObj (mkDef NUL_FIELD_LETTER (Some nm) (enabled d)) false
                     (Some (prefix ++ nm)) lang FIELD_UNKNOWN)
    /\ (forall i, 0 <= i < t ->
          isFieldEnabled r' i = isFieldEnabled r i
          /\ isFieldFixed r' i = isFieldFixed r i
          /\ getFieldOwner r' i = getFieldOwner r i
          /\ forall b, getFieldName b r' i = getFieldName b r i)
    /\ (forall c, c <> NUL_FIELD_LETTER ->
          getFieldTypeForOption r' c = getFieldTypeForOption r c)
    /\ (forall init,
          fst (fst (getFieldTypeForNameAndLanguage init (Some nm) lang true r'))
          = let old :=
              fst (fst (getFieldTypeForNameAndLanguage init (Some nm) lang
                          true r)) in
            if old =? FIELD_UNKNOWN then t else old).
Proof.
  unfold defineField. intros H.
  destruct (name d) as [nm|] eqn:N; [|discriminate].
  inversion H; subst t r'; clear H. exists nm.
  set (fobj := mkObj _ _ _ _ _).
  set (t := fieldObjectUsed r).
  pose proof (updateSiblingField_loop_keeps (Z.to_nat t) t nm
                (fieldObjects r ++ [fobj])) as K.
  fold (updateSiblingField t nm (fieldObjects r ++ [fobj])) in K.
  set (objs' := updateSiblingField t nm (fieldObjects r ++ [fobj])) in *.
  assert (Hlen : length objs' = S (length (fieldObjects r))).
  { apply Forall2_length in K. rewrite <- K, length_app. simpl. lia. }
  assert (Ht : Z.to_nat t = length (fieldObjects r))
    by (unfold t, fieldObjectUsed; lia).
  assert (Hnew : objs' !! length (fieldObjects r) = Some fobj).
  { unfold objs', updateSiblingField.
    destruct (updateSiblingField_loop_spec (Z.to_nat t) t nm
                (fieldObjects r ++ [fobj]))
      as [[-> _]|(j & o & Hj & L & S & M & ->)].
    - rewrite lookup_app_r by lia. by rewrite Nat.sub_diag.
    - rewrite list_lookup_insert_ne by lia.
      rewrite lookup_app_r by lia. by rewrite Nat.sub_diag. }
  split; [done|]. split; [done|].
  split; [unfold countFields, fieldObjectUsed; simpl; lia|].
  split; [done|]. split.
  { unfold getFieldObject. simpl.
    destruct (t <? 0) eqn:E; [apply Z.ltb_lt in E; unfold t, fieldObjectUsed in E; lia|].
    rewrite Ht. exact Hnew. }
  split.
  { intros i Hi.
    unfold isFieldEnabled, isFieldFixed, getFieldOwner, getFieldName,
      getFieldObject. simpl.
    destruct (i <? 0) eqn:E; [apply Z.ltb_lt in E; lia|].
    pose proof (proj1 (Forall2_lookup _ _ _) K (Z.to_nat i)) as Ki.
    rewrite lookup_app_l in Ki by lia.
    destruct Ki as [a b (D & F & P & L)|]; simpl; [|done].
    rewrite D, F, P, L. done. }
  split.
  { intros c Hc. unfold getFieldTypeForOption. simpl.
    rewrite <- (first_field_ext (fun o => Ascii.eqb (letter (def o)) c)
                  (fun o => Ascii.eqb (letter (def o)) c)
                  (fieldObjects r ++ [fobj]) objs' 0).
    2:{ eapply Forall2_impl; [exact K|]. intros a b (D & _). simpl. by rewrite D. }
    rewrite first_field_app, first_field_one by lia.
    change (letter (def fobj)) with NUL_FIELD_LETTER.
    destruct (Ascii.eqb NUL_FIELD_LETTER c) eqn:E;
      [apply Ascii.eqb_eq in E; congruence|].
    destruct (_ =? FIELD_UNKNOWN) eqn:U; [|done].
    apply Z.eqb_eq in U. by rewrite U. }
  intros init. unfold getFieldTypeForNameAndLanguage.
  rewrite !andb_false_r. simpl.
  set (p := fun o : fieldObject => _ && _).
  rewrite <- (first_field_ext p p (fieldObjects r ++ [fobj]) objs' 0).
  2:{ eapply Forall2_impl; [exact K|]. intros a b (D & _ & _ & L).
      unfold p. simpl. by rewrite D, L. }
  rewrite first_field_app, first_field_one by lia.
  destruct (first_field p (fieldObjects r) 0 =? FIELD_UNKNOWN); [|done].
  replace (p fobj) with true; [unfold t, fieldObjectUsed; done|].
  unfold p. simpl. symmetry. apply andb_true_iff. split.
  - apply streq_eq. done.
  - apply orb_true_iff. right. apply Z.eqb_refl.
Qed.

Lemma same_name_false_r a nm :
  same_name a (Some nm) = false -> same_name (Some nm) a = false.
Proof.
  intros H. apply not_true_iff_false. intros T.
  apply same_name_true in T as (n & E1 & E2).
  assert (same_name a (Some nm) = true) by (apply same_name_true; eauto).
  congruence.
Qed.

Lemma nextOfName_ext objs objs' i o o' :
  Forall2 (fun a b => name (def b) = name (def a)) objs objs' ->
  name (def o') = name (def o) ->
  nextOfName objs' i o' = nextOfName objs i o.
Proof.
  intros F N. unfold nextOfName. symmetry. apply first_field_ext.
  rewrite N. apply Forall2_drop.
  eapply Forall2_impl; [exact F|]. intros a b H. simpl. by rewrite H.
Qed.

Lemma init_siblings_linked prefix : siblings_linked (initFieldObjects prefix).
Proof.
  intros i o L.
  assert (i < 23)%nat as Hi by (apply lookup_lt_Some in L; exact L).
  do 23 (destruct i as [|i]; [inversion L; subst o; reflexivity|]). lia.
Qed.

Lemma enableField_siblings_linked type state w r old r' :
  enableField type state w r = Some (old, r') ->
  siblings_linked r -> siblings_linked r'.
Proof.
  intros H IH i o' L.
  pose proof (enableField_objects _ _ _ _ _ _ H) as F.
  pose proof (proj1 (Forall2_lookup _ _ _) F i) as Fi.
  rewrite L in Fi. inversion Fi as [o o'' (_ & N & _ & _ & _ & S) Lo|]; subst o''.
  rewrite S, (IH i o) by done.
  symmetry. apply nextOfName_ext; [|done].
  eapply Forall2_impl; [exact F|]. intros a b (_ & Hn & _). done.
Qed.

Lemma defineField_siblings_linked prefix d lang r t r' :
  defineField prefix d lang r = Some (t, r') ->
  siblings_linked r -> siblings_linked r'.
Proof.
  unfold defineField. intros H IH.
  destruct (name d) as [nm|] eqn:N; [|discriminate].
  inversion H; subst t r'; clear H.
  set (fobj := mkObj _ _ _ _ _).
  set (objs := fieldObjects r) in *.
  set (n := length objs).
  assert (Ht : Z.to_nat (fieldObjectUsed r) = n)
    by (unfold fieldObjectUsed; fold objs; lia).
  assert (Hu : fieldObjectUsed r = Z.of_nat n) by (unfold fieldObjectUsed; done).
  unfold siblings_linked. simpl fieldObjects.
  unfold updateSiblingField. rewrite Ht, Hu.
  pose proof (updateSiblingField_loop_keeps n (Z.of_nat n) nm (objs ++ [fobj])) as K.
  assert (Kn : Forall2 (fun a b => name (def b) = name (def a))
                 (objs ++ [fobj])
                 (updateSiblingField_loop n (Z.of_nat n) nm (objs ++ [fobj]))).
  { eapply Forall2_impl; [exact K|]. intros a b (D & _). by rewrite D. }
  (* the link expected in the longer list *)
  assert (Hnext : forall i o, objs !! i = Some o ->
            nextOfName (objs ++ [fobj]) i o
            = if sibling o =? FIELD_UNKNOWN
              then if same_name (Some nm) (name (def o)) then Z.of_nat n
                   else FIELD_UNKNOWN
              else sibling o).
  { intros i o L. rewrite (IH i o L). unfold nextOfName.
    assert (i < n)%nat by (eapply lookup_lt_Some; eauto).
    rewrite drop_app_le by (fold n; lia).
    rewrite first_field_app, first_field_one by lia.
    rewrite length_drop. fold n.
    replace (Z.of_nat (S i) + Z.of_nat (n - S i)) with (Z.of_nat n) by lia.
    reflexivity. }
  intros i o' L.
  destruct (decide (i = n)) as [->|Hin].
  { (* the new object *)
    assert (o' = fobj) as ->.
    { destruct (updateSiblingField_loop_spec n (Z.of_nat n) nm (objs ++ [fobj]))
        as [[E _]|(j & o & Hj & Lj & Sj & M & E)]; rewrite E in L.
      - rewrite lookup_app_r in L by (fold n; lia). fold n in L.
        rewrite Nat.sub_diag in L. by inversion L.
      - rewrite list_lookup_insert_ne in L by lia.
        rewrite lookup_app_r in L by (fold n; lia). fold n in L.
        rewrite Nat.sub_diag in L. by inversion L. }
    unfold nextOfName. rewrite drop_ge; [reflexivity|].
    apply Forall2_length in K. rewrite <- K, length_app. simpl. fold n. lia. }
  assert (i < n)%nat as Hi.
  { apply lookup_lt_Some in L. apply Forall2_length in K.
    rewrite <- K, length_app in L. simpl in L. fold n in L. lia. }
  destruct (objs !! i) as [o|] eqn:Lo; [|apply lookup_ge_None in Lo; fold n in Lo; lia].
  pose proof (proj1 (Forall2_lookup _ _ _) Kn i) as Ki.
  rewrite L, lookup_app_l, Lo in Ki by (fold n; lia).
  inversion Ki as [a b Nm|]; subst a b.
  rewrite (nextOfName_ext (objs ++ [fobj]) _ i o o' Kn Nm), (Hnext i o Lo).
  destruct (updateSiblingField_loop_spec n (Z.of_nat n) nm (objs ++ [fobj]))
    as [[E Hno]|(j & oj & Hj & Lj & Sj & M & E)]; rewrite E in L.
  - rewrite lookup_app_l, Lo in L by (fold n; lia). inversion L; subst o'.
    specialize (Hno i o Hi). rewrite lookup_app_l in Hno by (fold n; lia).
    rewrite (same_name_false_r _ _ (Hno Lo)).
    by destruct (sibling o =? FIELD_UNKNOWN) eqn:U; [apply Z.eqb_eq in U|].
  - rewrite lookup_app_l in Lj by (fold n; lia).
    destruct (decide (j = i)) as [->|Hne].
    + rewrite list_lookup_insert_eq in L by (rewrite length_app; simpl; lia).
      inversion L; subst o'. rewrite Lo in Lj. inversion Lj; subst oj.
      simpl.
      assert (sibling o = FIELD_UNKNOWN) as ->.
      { rewrite (IH i o Lo). unfold nextOfName. apply first_field_none.
        apply Forall_lookup. intros k x Lk. rewrite lookup_drop in Lk.
        apply same_name_true in Sj as (x0 & -> & Ex). inversion Ex; subst x0.
        assert (S i + k < n)%nat by (apply lookup_lt_Some in Lk; exact Lk).
        apply (M (S i + k)%nat x); [lia|].
        rewrite lookup_app_l by (fold n; lia). exact Lk. }
      simpl. apply same_name_true in Sj as (x0 & -> & Ex). inversion Ex; subst x0.
      simpl. by rewrite (proj2 (streq_eq nm nm) eq_refl).
    + rewrite list_lookup_insert_ne, lookup_app_l, Lo in L by (try done; fold n; lia).
      inversion L; subst o'.
      destruct (sibling o =? FIELD_UNKNOWN) eqn:U; [|done].
      apply Z.eqb_eq in U. rewrite U.
      destruct (same_name (Some nm) (name (def o))) eqn:Sn; [|done].
      exfalso. apply same_name_true in Sn as (x0 & Ex & En). inversion Ex; subst x0.
      destruct (decide (i < j)%nat) as [Hlt|Hge].
      * rewrite (IH i o Lo) in U. unfold nextOfName in U.
        apply first_field_unknown in U; [|lia].
        rewrite Forall_lookup in U.
        specialize (U (j - S i)%nat oj). rewrite lookup_drop in U.
        replace (S i + (j - S i))%nat with j in U by lia.
        specialize (U Lj). simpl in U. rewrite En in U. congruence.
      * specialize (M i o ltac:(lia)).
        rewrite lookup_app_l in M by (fold n; lia). specialize (M Lo).
        rewrite En in M. simpl in M. rewrite (proj2 (streq_eq nm nm) eq_refl) in M.
        discriminate.
Qed.

Lemma reachable_siblings_linked prefix r :
  reachable prefix r -> siblings_linked r.
Proof.
  induction 1 as [|r type state w old r' Hr IH He|r d lang t r' Hr IH Hd].
  - apply init_siblings_linked.
  - eapply enableField_siblings_linked; eauto.
  - eapply defineField_siblings_linked; eauto.
Qed.

Lemma defineField_shape prefix d lang r t r' :
  defineField prefix d lang r = Some (t, r') ->
  exists nm,
    name d = Some nm /\ t = fieldObjectUsed r /\ warnings r' = warnings r
    /\ Forall2 (fun a b => def b = def a /\ fixed b = fixed a
                           /\ nameWithPrefix b = nameWithPrefix a
                           /\ language b = language a)
               (fieldObjects r
                ++ [mkObj (mkDef NUL_FIELD_LETTER (Some nm) (enabled d)) false
                          (Some (prefix ++ nm)) lang FIELD_UNKNOWN])
               (fieldObjects r').
Proof.
  unfold defineField. intros H.
  destruct (name d) as [nm|] eqn:N; [|discriminate].
  inversion H; subst t r'; clear H. exists nm.
  split; [done|]. split; [done|]. split; [done|].
  apply updateSiblingField_loop_keeps.
Qed.

Lemma defineField_letters prefix d lang r t r' c :
  defineField prefix d lang r = Some (t, r') ->
  c <> NUL_FIELD_LETTER ->
  getFieldTypeForOption r' c = getFieldTypeForOption r c.
Proof.
  intros H Hc. apply defineField_shape in H as (nm & _ & _ & _ & K).
  unfold getFieldTypeForOption.
  rewrite <- (first_field_ext (fun o => Ascii.eqb (letter (def o)) c)
                (fun o => Ascii.eqb (letter (def o)) c) _ _ 0
                ltac:(eapply Forall2_impl; [exact K|];
                      intros a b (D & _); simpl; by rewrite D)).
  rewrite first_field_app, first_field_one by lia.
  cbn [letter def].
  destruct (Ascii.eqb NUL_FIELD_LETTER c) eqn:E;
    [apply Ascii.eqb_eq in E; congruence|].
  destruct (_ =? FIELD_UNKNOWN) eqn:U; [|done].
  apply Z.eqb_eq in U. by rewrite U.
Qed.

Lemma enableField_letters type state w r old r' c :
  enableField type state w r = Some (old, r') ->
  getFieldTypeForOption r' c = getFieldTypeForOption r c.
Proof.
  intros H. pose proof (enableField_objects _ _ _ _ _ _ H) as F.
  unfold getFieldTypeForOption. symmetry.
  apply first_field_ext. eapply Forall2_impl; [exact F|].
  intros a b (L & _). simpl. by rewrite L.
Qed.

(** What no call changes in the objects that are there. *)
Lemma reachable_builtin prefix r :
  reachable prefix r ->
  exists more,
    Forall2 (fun a b => letter (def b) = letter (def a)
                        /\ name (def b) = name (def a)
                        /\ fixed b = fixed a
                        /\ nameWithPrefix b = nameWithPrefix a
                        /\ language b = language a)
            (fieldObjects (initFieldObjects prefix) ++ more) (fieldObjects r)
    /\ Forall (fun o => letter (def o) = NUL_FIELD_LETTER /\ fixed o = false)
              more.
Proof.
  induction 1 as [|r type state w old r' Hr IH He|r d lang t r' Hr IH Hd].
  - exists []. rewrite app_nil_r. split; [|constructor].
    apply Forall2_same_length_lookup. split; [done|].
    intros k a b H1 H2. rewrite H1 in H2. by inversion H2.
  - destruct IH as (more & F & M). exists more. split; [|done].
    pose proof (enableField_objects _ _ _ _ _ _ He) as E.
    apply Forall2_same_length_lookup. split.
    { apply Forall2_length in F, E. lia. }
    intros k a b H1 H2.
    pose proof (proj1 (Forall2_lookup _ _ _) F k) as Fk.
    pose proof (proj1 (Forall2_lookup _ _ _) E k) as Ek.
    rewrite H1 in Fk. rewrite H2 in Ek.
    inversion Fk as [x y (A1 & A2 & A3 & A4 & A5) Ex Ey|]; subst x.
    inversion Ek as [x z (B1 & B2 & B3 & B4 & B5 & _) Ex' Ez|]; subst z.
    rewrite <- Ey in Ex'. inversion Ex'; subst x.
    rewrite B1, B2, B3, B4, B5. done.
  - destruct IH as (more & F & M).
    apply defineField_shape in Hd as (nm & N & _ & _ & K).
    eexists (more ++ [_]). split.
    + rewrite app_assoc.
      apply Forall2_same_length_lookup. split.
      { apply Forall2_length in F, K. rewrite !length_app in *. simpl in *. lia. }
      intros k a b H1 H2.
      pose proof (proj1 (Forall2_lookup _ _ _) K k) as Kk.
      rewrite H2 in Kk.
      inversion Kk as [x y (A1 & A2 & A3 & A4) Ex Ey|]; subst y.
      symmetry in Ex.
      destruct (decide (k < length (fieldObjects r))%nat) as [Hk|Hk].
      * rewrite lookup_app_l in Ex by done.
        rewrite lookup_app_l in H1
          by (apply Forall2_length in F; rewrite F; done).
        pose proof (proj1 (Forall2_lookup _ _ _) F k) as Fk.
        rewrite H1, Ex in Fk.
        inversion Fk as [x' y' (B1 & B2 & B3 & B4 & B5)|]; subst x' y'.
        rewrite A1, A2, A3, A4. done.
      * rewrite lookup_app_r in Ex by lia.
        rewrite lookup_app_r in H1
          by (apply Forall2_length in F; rewrite F; lia).
        apply Forall2_length in F. rewrite F in H1.
        rewrite Ex in H1. inversion H1; subst a.
        rewrite A1, A2, A3, A4. done.
    + apply Forall_app. split; [done|].
      constructor; [|constructor]. done.
Qed.

Lemma twoSections_reachable : reachable (lit "UCTAGS") twoSections.
Proof.
  apply (reach_define _ oneSection sectionField 7 24);
    [apply (reach_define _ (initFieldObjects (lit "UCTAGS")) sectionField 5 23);
       [apply reach_init|]|];
    vm_compute; reflexivity.
Qed.

(** X3: in every registry that [initFieldObjects], [enableField] and
    [defineField] lead to, [nextSiblingField] of a field is either
    FIELD_UNKNOWN, and then no later field has the name of the field, or
    the first later field of the same name: the sibling links chain the
    fields of one name in the order of their definition. *)
Theorem sibling_links_chain prefix r i o :
  reachable prefix r ->
  fieldObjects r !! i = Some o ->
  nextSiblingField r (Z.of_nat i) = Some (sibling o)
  /\ ((sibling o = FIELD_UNKNOWN
       /\ forall j o', (i < j)%nat -> fieldObjects r !! j = Some o' ->
            same_name (name (def o')) (name (def o)) = false)
      \/ exists j o',
           sibling o = Z.of_nat j /\ (i < j)%nat
           /\ fieldObjects r !! j = Some o'
           /\ name (def o') = name (def o) /\ name (def o) <> None
           /\ forall k o'', (i < k < j)%nat -> fieldObjects r !! k = Some o'' ->
                same_name (name (def o'')) (name (def o)) = false).
Proof.
  intros Hr L. split.
  { unfold nextSiblingField, getFieldObject.
    destruct (Z.of_nat i <? 0) eqn:E; [apply Z.ltb_lt in E; lia|].
    by rewrite Nat2Z.id, L. }
  rewrite (reachable_siblings_linked _ _ Hr i o L). unfold nextOfName.
  destruct (first_field_spec
              (fun o' => same_name (name (def o')) (name (def o)))
              (drop (S i) (fieldObjects r)) (Z.of_nat (S i)) ltac:(lia))
    as [[U F]|(k & o' & E & Lk & P & M)].
  - left. split; [done|]. intros j o' Hj Lj.
    rewrite Forall_lookup in F. apply (F (j - S i)%nat).
    rewrite lookup_drop. by replace (S i + (j - S i))%nat with j by lia.
  - right. exists (S i + k)%nat, o'. rewrite lookup_drop in Lk.
    split; [lia|]. split; [lia|]. split; [done|].
    apply same_name_true in P as (nm & E1 & E2).
    split; [congruence|]. split; [congruence|].
    intros k' o'' Hk Lk'. apply (M (k' - S i)%nat); [lia|].
    rewrite lookup_drop. by replace (S i + (k' - S i))%nat with k' by lia.
Qed.

Lemma sibling_links_chain_witness :
  nextSiblingField twoSections 23 = Some 24
  /\ nextSiblingField twoSections 24 = Some FIELD_UNKNOWN.
Proof.
  split.
  - destruct (sibling_links_chain (lit "UCTAGS") twoSections 23
                (mkObj (mkDef NUL_FIELD_LETTER (Some (lit "section")) false)
                       false (Some (lit "UCTAGSsection")) 5 24)
                twoSections_reachable eq_refl) as [H _].
    exact H.
  - reflexivity.
Defined.

(** X4: in every registry that [initFieldObjects], [enableField] and
    [defineField] lead to, the 23 built-in fields are still there: a
    letter other than NUL is looked up to the same field as at the start,
    and a built-in field keeps its fixed flag, its names and the owner
    LANG_IGNORE.  Every field after them, defined by a parser, is not
    fixed. *)
Theorem builtin_fields_stable prefix r :
  reachable prefix r ->
  23 <= countFields r
  /\ (forall c, c <> NUL_FIELD_LETTER ->
        getFieldTypeForOption r c
        = getFieldTypeForOption (initFieldObjects prefix) c)
  /\ (forall t, 0 <= t < 23 ->
        isFieldFixed r t = isFieldFixed (initFieldObjects prefix) t
        /\ getFieldOwner r t = Some LANG_IGNORE
        /\ forall b, getFieldName b r t
                     = getFieldName b (initFieldObjects prefix) t)
  /\ (forall t, 23 <= t < countFields r -> isFieldFixed r t = Some false).
Proof.
  intros Hr. destruct (reachable_builtin _ _ Hr) as (more & F & M).
  set (init := fieldObjects (initFieldObjects prefix)) in *.
  assert (Hinit : length init = 23%nat) by reflexivity.
  assert (Hlen : length (fieldObjects r) = (23 + length more)%nat).
  { apply Forall2_length in F. rewrite <- F, length_app, Hinit. done. }
  split; [unfold countFields, fieldObjectUsed; lia|].
  split; [|split].
  - intros c Hc. unfold getFieldTypeForOption. fold init.
    rewrite <- (first_field_ext (fun o => Ascii.eqb (letter (def o)) c)
                  (fun o => Ascii.eqb (letter (def o)) c) _ _ 0
                  ltac:(eapply Forall2_impl; [exact F|];
                        intros a b (D & _); simpl; by rewrite D)).
    rewrite first_field_app by lia.
    destruct (_ =? FIELD_UNKNOWN) eqn:U; [|done].
    apply Z.eqb_eq in U. rewrite U. apply first_field_none.
    eapply Forall_impl; [exact M|]. intros o [L _]. simpl. rewrite L.
    apply Ascii.eqb_neq. congruence.
  - intros t Ht.
    unfold isFieldFixed, getFieldOwner, getFieldName, getFieldObject.
    destruct (t <? 0) eqn:E; [apply Z.ltb_lt in E; lia|].
    pose proof (proj1 (Forall2_lookup _ _ _) F (Z.to_nat t)) as Ft.
    rewrite lookup_app_l in Ft by lia. fold init.
    inversion Ft as [a b (A1 & A2 & A3 & A4 & A5) Ea Eb|Ea Eb];
      [|symmetry in Ea; apply lookup_ge_None in Ea; lia].
    simpl. rewrite A2, A3, A4, A5. split; [done|]. split; [|done].
    f_equal. symmetry in Ea.
    assert (Forall (fun o => language o = LANG_IGNORE) init) as Hall
      by (unfold init, initFieldObjects; simpl; repeat constructor).
    rewrite Forall_lookup in Hall. eapply Hall; eauto.
  - intros t Ht. unfold countFields, fieldObjectUsed in Ht.
    unfold isFieldFixed, getFieldObject.
    destruct (t <? 0) eqn:E; [apply Z.ltb_lt in E; lia|].
    pose proof (proj1 (Forall2_lookup _ _ _) F (Z.to_nat t)) as Ft.
    rewrite lookup_app_r in Ft by lia.
    inversion Ft as [a b (A1 & A2 & A3 & A4 & A5) Ea Eb|Ea Eb];
      [|symmetry in Eb; apply lookup_ge_None in Eb; lia].
    simpl. rewrite A3. f_equal. symmetry in Ea.
    rewrite Forall_lookup in M. by destruct (M _ _ Ea).
Qed.

Lemma builtin_fields_stable_witness :
  getFieldTypeForOption twoSections "n" = 11
  /\ isFieldFixed twoSections 24 = Some false.
Proof.
  destruct (builtin_fields_stable (lit "UCTAGS") twoSections
              twoSections_reachable) as (_ & H & _ & H2).
  split; [rewrite H by discriminate; reflexivity|].
  apply H2. vm_compute. split; [discriminate|reflexivity].
Defined.

Lemma enableField_frame_witness :
  getFieldTypeForOption
    (match enableField 4 true false twoSections with
     | Some (_, r') => r'
     | None => twoSections
     end) "a"
  = 4.
Proof.
  destruct (enableField 4 true false twoSections) as [[old r']|] eqn:E;
    [|discriminate].
  destruct (enableField_frame 4 true false twoSections old r' E)
    as (_ & _ & _ & H & _).
  rewrite H. reflexivity.
Defined.

Lemma defineField_registers_witness :
  exists r',
    defineField (lit "UCTAGS") sectionField 5 (initFieldObjects (lit "UCTAGS"))
    = Some (23, r')
    /\ countFields r' = 24
    /\ isFieldEnabled r' 23 = Some false.
Proof.
  destruct (defineField (lit "UCTAGS") sectionField 5
              (initFieldObjects (lit "UCTAGS"))) as [[t r']|] eqn:E;
    [|discriminate].
  destruct (defineField_registers _ _ _ _ _ _ E)
    as (nm & N & -> & C & _ & G & _).
  exists r'. split; [reflexivity|]. split; [exact C|].
  unfold isFieldEnabled. change 23 with (countFields (initFieldObjects (lit "UCTAGS"))).
  rewrite G. reflexivity.
Defined.

End FieldExtras.

(** ** The lines of a tag file *)

Module CheckExtras.
Import CStr Options TagFileCheck CheckNotions CheckProps.

Lemma uint_digits d :
  Forall digit (list_ascii_of_string (NilEmpty.string_of_uint d)).
Proof.
  induction d; simpl; [constructor|..];
    (constructor; [unfold digit; simpl; tauto|assumption]).
Qed.

(** [%lu] and [%u] print a non-empty run of digits. *)
Lemma decimal_digits n :
  0 <= n -> decimal n <> [] /\ Forall digit (decimal n).
Proof.
  intros Hn. unfold decimal.
  destruct n as [|p|p]; [| |lia].
  - split; [done|]. vm_compute. repeat constructor.
  - simpl. unfold NilZero.string_of_uint.
    destruct (Pos.to_uint p) eqn:E;
      [split; [done|]; vm_compute; repeat constructor|..];
      (rewrite <- E; split; [|apply uint_digits]; rewrite E; simpl; done).
Qed.

Lemma span_app_all p (a b : cstr) :
  forallb p a = true ->
  span p (a ++ b) = let '(m, r) := span p b in (a ++ m, r).
Proof.
  induction a as [|x a IH]; simpl; intros H.
  - by destruct (span p b).
  - apply andb_true_iff in H as [Hx Ha]. rewrite Hx, IH by done.
    by destruct (span p b).
Qed.

Lemma digit_notEol c : digit c -> notEol c = true.
Proof.
  unfold digit. simpl. intros H.
  repeat (destruct H as [<-|H]; [reflexivity|]). done.
Qed.

(** The lines that [isCtagsLine] takes, from their parts. *)
Lemma ctagsLine_intro tag file text :
  tag <> [] -> ~ In TAB tag -> head tag <> Some "#"%char ->
  file <> [] -> ~ In TAB file -> last file <> Some ";"%char ->
  beginsWithExcmd text ->
  ctagsLine (tag ++ [TAB] ++ file ++ [TAB] ++ text).
Proof.
  intros T1 T2 T3 F1 F2 F3 X.
  destruct (span notEol text) as [excmd rest] eqn:Sp.
  pose proof Sp as Sp'. apply span_spec in Sp' as (E & Hx & Hr).
  exists tag, file, excmd, rest. subst text.
  split; [done|]. repeat (split; [done|]).
  apply notEol_forallb in Hx as [Hc Hn].
  assert (Hrest : rest = [] \/ exists c rest', rest = c :: rest'
                                 /\ (c = CRETURN \/ c = NEWLINE)).
  { destruct Hr as [->|(c & r' & -> & Hc')]; [by left|right].
    exists c, r'. split; [done|]. unfold notEol in Hc'.
    apply negb_false_iff, orb_true_iff in Hc'.
    rewrite !Ascii.eqb_eq in Hc'. done. }
  destruct X as [(c & more & E & Hcs)|(digits & tail & E & D1 & D2 & D3)].
  - destruct excmd as [|x excmd].
    + simpl in E. subst rest. simpl in Sp.
      assert (notEol c = true) as N by (destruct Hcs as [-> | ->]; reflexivity).
      rewrite N in Sp. by destruct (span notEol more).
    + simpl in E. inversion E; subst x.
      split; [done|]. split; [done|]. split; [done|]. split; [done|].
      left. eauto.
  - assert (Hd : forallb notEol digits = true).
    { apply forallb_forall. intros x Hx. apply digit_notEol.
      rewrite Forall_forall in D2. apply D2. by apply list_elem_of_In. }
    rewrite E, (span_app_all _ _ _ Hd) in Sp.
    destruct (span notEol tail) as [t1 t2] eqn:St. inversion Sp; subst excmd rest.
    split; [by destruct digits|]. split; [done|]. split; [done|].
    split; [done|]. right. exists digits, t1. split; [done|]. split; [done|].
    split; [done|].
    destruct D3 as [->|(c & tail' & -> & Hc3)].
    + simpl in St. inversion St. by left.
    + simpl in St. destruct (notEol c) eqn:N.
      * destruct (span notEol tail') as [m r]. inversion St; subst.
        right. exists m. destruct Hc3 as [->|[->| ->]]; done.
      * inversion St. by left.
Qed.

(** X5: [isCtagsLine] accepts exactly the lines made of a tag without
    tab that does not begin with [#], one tab, a file name without tab
    that does not end in [;], one tab and an acceptable ex command up to
    the end of the line; [isEtagsLine] accepts exactly the lines that
    begin with a form feed followed by a line feed or a carriage return.
    Neither accepts the empty line. *)
Theorem isCtagsLine_grammar line :
  (isCtagsLine line = true <-> ctagsLine line)
  /\ (isEtagsLine line = true <-> etagsLine line)
  /\ isCtagsLine [] = false /\ isEtagsLine [] = false.
Proof.
  split; [apply isCtagsLine_spec|]. split; [apply isEtagsLine_spec|].
  split; reflexivity.
Qed.

(** X6: [isValidTagAddress] accepts the empty command (the terminator
    of the command is found by [strchr] in ["/?"]).  A command that is
    not empty and holds no line feed is accepted exactly when it begins
    with [/] or [?], or with a line number that ends the command or is
    followed by [;].  A line number followed by a line feed is accepted
    whatever comes after. *)
Theorem isValidTagAddress_accepts :
  isValidTagAddress [] = true
  /\ (forall excmd,
        excmd <> [] -> ~ In NEWLINE excmd ->
        (isValidTagAddress excmd = true <-> acceptableExcmd excmd))
  /\ (forall digits rest,
        digits <> [] -> Forall digit digits ->
        isValidTagAddress (digits ++ NEWLINE :: rest) = true).
Proof.
  split; [reflexivity|]. split; [apply isValidTagAddress_spec|].
  intros digits rest N F.
  destruct digits as [|d ds]; [done|]. clear N.
  unfold isValidTagAddress. cbn [app].
  rewrite digit_not_search by (by inversion F).
  change (d :: ds ++ NEWLINE :: rest) with ((d :: ds) ++ NEWLINE :: rest).
  rewrite (scan_fields_cons notSemiOrNewline [] (d :: ds) (NEWLINE :: rest)).
  2:{ apply scanset_app; [done| |right; eauto].
      apply forallb_forall. intros x Hx. apply digit_notSemiOrNewline.
      rewrite Forall_forall in F. apply F. by apply list_elem_of_In. }
  cbn [scan_fields]. unfold sscanf_result. cbn [length Z.of_nat].
  apply andb_true_iff. split; [reflexivity|].
  by apply all_in_Forall.
Qed.

End CheckExtras.

(** ** The pseudo-tags of a tag file that is appended to *)

Module StreamExtras.
Import CStr Options Stream StreamNotions StreamProps.

Lemma flagsOnly_refl sorted b : flagsOnly sorted b b.
Proof. split; [done|]. intros i H. done. Qed.

Lemma option_ascii_dec (x y : option ascii) : {x = y} + {x <> y}.
Proof. decide equality. apply ascii_dec. Qed.

Lemma flagsOnly_trans sorted a b c :
  flagsOnly sorted a b -> flagsOnly sorted b c -> flagsOnly sorted a c.
Proof.
  intros [L1 H1] [L2 H2]. split; [congruence|]. intros i H.
  destruct (option_ascii_dec (b !! i) (a !! i)) as [E|N].
  - rewrite <- E in *. apply H2. done.
  - destruct (H1 i N) as [O F]. split; [done|].
    destruct (option_ascii_dec (c !! i) (b !! i)) as [E2|N2]; [congruence|].
    by destruct (H2 i N2).
Qed.

Local Arguments is_prefix : simpl never.
Local Arguments Ascii.eqb : simpl never.
Local Arguments update_line : simpl never.

Section Reader.
Variable readLineRaw : FILE -> option (cstr * nat).
Variable sorted : sortType.

Lemma read_line_bytes fp line fp' :
  read_line readLineRaw fp = (line, fp') -> bytes fp' = bytes fp.
Proof.
  unfold read_line. destruct (readLineRaw fp) as [[l p]|];
    intros H; inversion H; subst; reflexivity.
Qed.

Lemma skip_to_end_bytes fuel line fp n r fp' :
  skip_to_end readLineRaw fuel line fp n = Some (r, fp') ->
  bytes fp' = bytes fp.
Proof.
  revert line fp n. induction fuel as [|fuel IH]; intros line fp n; simpl.
  - destruct line; [done|]. intros H; by inversion H.
  - destruct line as [l|]; [|intros H; by inversion H].
    destruct (read_line readLineRaw fp) as [line' fp1] eqn:R.
    intros H. apply IH in H. rewrite H. eapply read_line_bytes; eauto.
Qed.

Lemma update_line_flagsOnly line fp start fp' ws :
  update_line sorted line fp start = Some (fp', ws) ->
  flagsOnly sorted (bytes fp) (bytes fp').
Proof.
  unfold update_line.
  destruct (scan_word15_char _) as [[classType tab]|];
    [|intros H; inversion H; apply flagsOnly_refl].
  destruct (_ && _); [|intros H; inversion H; apply flagsOnly_refl].
  intros H. destruct (updateSortedFlag_frame _ _ _ _ _ _ H) as (L & _ & F).
  split; [done|]. intros i Hi. destruct (F i Hi) as (_ & (d & Hd & D) & N & _).
  split; [|done]. rewrite Hd. destruct D as [-> | ->]; auto.
Qed.

Lemma pseudo_loop_flagsOnly fuel line fp start n ws r fp' ws' :
  pseudo_loop readLineRaw sorted fuel line fp start n ws = Some (r, fp', ws') ->
  flagsOnly sorted (bytes fp) (bytes fp').
Proof.
  revert line fp start n ws.
  induction fuel as [|fuel IH]; intros line fp start n ws; simpl.
  - destruct line as [l|]; [|intros H; inversion H; apply flagsOnly_refl].
    destruct (Ascii.eqb _ _); simpl; done.
  - destruct line as [l|]; [|intros H; inversion H; apply flagsOnly_refl].
    destruct (Ascii.eqb _ _).
    + destruct (is_prefix entry l).
      * destruct (update_line sorted l fp start) as [[fp1 w]|] eqn:U;
          simpl.
        2:{ done. }
        destruct (read_line readLineRaw fp1) as [line' fp2] eqn:R.
        intros H. apply IH in H.
        eapply flagsOnly_trans; [eapply update_line_flagsOnly; eauto|].
        by rewrite <- (read_line_bytes _ _ _ R).
      * simpl. destruct (read_line readLineRaw fp) as [line' fp2] eqn:R.
        intros H. apply IH in H. by rewrite <- (read_line_bytes _ _ _ R).
    + destruct (read_line readLineRaw fp) as [line' fp1] eqn:R.
      destruct (skip_to_end readLineRaw fuel line' fp1 (n + 1))
        as [[m fp2]|] eqn:K; simpl; [|done].
      intros H. inversion H; subst.
      apply skip_to_end_bytes in K. rewrite K, (read_line_bytes _ _ _ R).
      apply flagsOnly_refl.
Qed.

End Reader.

(** X17: [updatePseudoTags], whatever the lines that [readLineRaw]
    hands it, keeps the length of the file, and a byte that it changes
    was ['0'] or ['1'] and becomes the flag of the sort option. *)
Theorem updatePseudoTags_flagsOnly readLineRaw sorted fuel fp n fp' ws :
  updatePseudoTags readLineRaw sorted fuel fp = Some (n, fp', ws) ->
  length (bytes fp') = length (bytes fp)
  /\ forall i, bytes fp' !! i <> bytes fp !! i ->
       (bytes fp !! i = Some "0"%char \/ bytes fp !! i = Some "1"%char)
       /\ bytes fp' !! i = Some (sortedFlag sorted).
Proof.
  unfold updatePseudoTags.
  destruct (read_line readLineRaw fp) as [line fp1] eqn:R.
  intros H. apply pseudo_loop_flagsOnly in H.
  rewrite (read_line_bytes _ _ _ _ R) in H. exact H.
Qed.

Lemma updatePseudoTags_flagsOnly_witness :
  exists fp',
    updatePseudoTags lineReader SO_SORTED 4 (set_pos 0 (headerFile "0"))
    = Some (3, fp', [])
    /\ length (bytes fp') = length (bytes (headerFile "0")).
Proof.
  destruct (updatePseudoTags lineReader SO_SORTED 4 (set_pos 0 (headerFile "0")))
    as [[[n fp'] ws]|] eqn:E; [|discriminate].
  destruct (updatePseudoTags_flagsOnly _ _ _ _ _ _ _ E) as [L _].
  exists fp'. split; [|exact L].
  vm_compute in E. inversion E. reflexivity.
Defined.

End StreamExtras.

(** ** Copying bytes *)

Module CopyExtras.
Import CStr Stream Copy CopyNotions.

Lemma take_add_drop {A : Type} (l : list A) n m :
  take (n + m) l = take n l ++ take m (drop n l).
Proof.
  revert l. induction n as [|n IH]; intros [|x l]; simpl; try done.
  - by rewrite take_nil.
  - by rewrite IH.
Qed.

Lemma set_pos_set_pos f a b :
  set_pos (pos (set_pos a f) + b) (set_pos a f) = set_pos (a + b) f.
Proof. reflexivity. Qed.

Lemma copyBytes_loop_spec n :
  forall fuel f out remaining,
    (length (unread f) <= n)%nat -> (n < fuel)%nat ->
    copyBytes_loop fuel f out remaining
    = Some (set_pos (pos f + length (toCopy remaining (unread f))) f,
            out ++ toCopy remaining (unread f)).
Proof.
  induction n as [n IH] using lt_wf_ind.
  intros fuel f out r Hn Hf.
  destruct fuel as [|fuel]; [lia|].
  cbn [copyBytes_loop]. unfold fread. fold (unread f).
  set (a := unread f) in *.
  set (toRead := if (0 <? r) && (r <? BufferSize) then r else BufferSize).
  assert (HtR : 1 <= toRead <= BufferSize /\ (0 < r -> toRead <= r)
                /\ (toRead <> BufferSize -> toRead = r)).
  { unfold toRead, BufferSize.
    destruct (0 <? r) eqn:A; simpl; [|lia].
    destruct (r <? 1000) eqn:B; apply Z.ltb_lt in A;
      [apply Z.ltb_lt in B|apply Z.ltb_ge in B]; lia. }
  destruct HtR as (T1 & T2 & T3).
  remember (Z.to_nat toRead) as k eqn:Hk.
  cbv zeta.
  destruct (decide (k <= length a)%nat) as [Full|Short].
  - (* the buffer is filled *)
    assert (Lb : length (take k a) = k) by (rewrite length_take; lia).
    rewrite Lb. replace (Z.of_nat k =? toRead) with true
      by (symmetry; apply Z.eqb_eq; lia).
    cbn [andb].
    destruct (r >? 0) eqn:Pos.
    + apply Z.gtb_lt in Pos.
      destruct (r - Z.of_nat k =? 0) eqn:Z0; cbn [negb].
      * apply Z.eqb_eq in Z0. unfold toCopy.
        replace (r >? 0) with true by (symmetry; by apply Z.gtb_lt).
        replace (Z.to_nat r) with k by lia. by rewrite Lb.
      * apply Z.eqb_neq in Z0.
        assert (toRead = BufferSize) as TR
          by (destruct (decide (toRead = BufferSize)); [done|lia]).
        rewrite (IH (length a - 1)%nat); [|unfold BufferSize in *; lia| |lia].
        2:{ unfold unread. simpl. fold a. rewrite <- drop_drop.
            fold (unread f). fold a. rewrite length_drop.
            unfold BufferSize in *. lia. }
        assert (E : unread (set_pos (pos f + k) f) = drop k a)
          by (unfold unread; simpl; by rewrite <- drop_drop).
        rewrite E.
        assert (toCopy r a = take k a ++ toCopy (r - Z.of_nat k) (drop k a)) as ->.
        { unfold toCopy.
          replace (r >? 0) with true by (symmetry; by apply Z.gtb_lt).
          replace (r - Z.of_nat k >? 0) with true
            by (symmetry; apply Z.gtb_lt; lia).
          replace (Z.to_nat r) with (k + Z.to_nat (r - Z.of_nat k))%nat by lia.
          apply take_add_drop. }
        rewrite set_pos_set_pos, length_app, Lb, app_assoc, Nat.add_assoc.
        reflexivity.
    + rewrite Z.gtb_ltb in Pos. apply Z.ltb_ge in Pos.
      destruct (r =? 0) eqn:Z0; cbn [negb].
      * apply Z.eqb_eq in Z0. unfold toCopy. subst r.
        assert (toRead = BufferSize) as TR by (unfold toRead; done).
        change (0 >? 0) with false. change (0 =? 0) with true. cbn iota.
        replace (Z.to_nat BufferSize) with k by lia. by rewrite Lb.
      * apply Z.eqb_neq in Z0.
        assert (toRead = BufferSize) as TR.
        { unfold toRead. replace (0 <? r) with false; [done|].
          symmetry. apply Z.ltb_ge. lia. }
        rewrite (IH (length a - 1)%nat); [|unfold BufferSize in *; lia| |lia].
        2:{ unfold unread. simpl. fold a. rewrite <- drop_drop.
            fold (unread f). fold a. rewrite length_drop.
            unfold BufferSize in *. lia. }
        assert (E : unread (set_pos (pos f + k) f) = drop k a)
          by (unfold unread; simpl; by rewrite <- drop_drop).
        rewrite E.
        assert (forall l : cstr, toCopy r l = l) as TC.
        { intros l. unfold toCopy.
          replace (r >? 0) with false
            by (symmetry; rewrite Z.gtb_ltb; apply Z.ltb_ge; lia).
          by replace (r =? 0) with false by (symmetry; by apply Z.eqb_neq). }
        rewrite !TC, set_pos_set_pos, <- app_assoc, take_drop.
        replace (pos f + k + length (drop k a))%nat with (pos f + length a)%nat
          by (rewrite length_drop; lia).
        reflexivity.
  - (* the end of the file comes first *)
    assert (Hall : take k a = a) by (apply take_ge; lia).
    rewrite Hall.
    replace (Z.of_nat (length a) =? toRead) with false
      by (symmetry; apply Z.eqb_neq; lia).
    cbn [andb].
    assert (toCopy r a = a) as ->; [|done].
    unfold toCopy. destruct (r >? 0) eqn:Pos.
    + apply Z.gtb_lt in Pos. apply take_ge. specialize (T2 Pos). lia.
    + destruct (r =? 0); [|done]. apply take_ge. unfold BufferSize in *.
      assert (toRead = 1000); [|lia].
      unfold toRead. rewrite Z.gtb_ltb in Pos. apply Z.ltb_ge in Pos.
      replace (0 <? r) with false; [done|]. symmetry. apply Z.ltb_ge. lia.
Qed.

(** X19: [copyBytes] ends, and appends to the destination the bytes of
    the source from its position on: the first [size] of them when
    [size] is positive, all of them when it is negative, and at most one
    buffer of 1000 when it is 0.  The position of the source moves behind
    what was copied. *)
Theorem copyBytes_copies fuel fromFp toFp size :
  (length (unread fromFp) < fuel)%nat ->
  copyBytes fuel fromFp toFp size
  = Some (set_pos (pos fromFp + length (toCopy size (unread fromFp))) fromFp,
          toFp ++ toCopy size (unread fromFp))
  /\ (0 < size -> toCopy size (unread fromFp)
                  = take (Z.to_nat size) (unread fromFp))
  /\ (size < 0 -> toCopy size (unread fromFp) = unread fromFp)
  /\ (size = 0 -> toCopy size (unread fromFp)
                  = take 1000 (unread fromFp)).
Proof.
  intros H. split.
  - unfold copyBytes. by apply (copyBytes_loop_spec (length (unread fromFp))).
  - unfold toCopy. split; [|split].
    + intros P. by replace (size >? 0) with true by (symmetry; by apply Z.gtb_lt).
    + intros P.
      replace (size >? 0) with false
        by (symmetry; rewrite Z.gtb_ltb; apply Z.ltb_ge; lia).
      by replace (size =? 0) with false by (symmetry; apply Z.eqb_neq; lia).
    + intros ->. reflexivity.
Qed.

Lemma copyBytes_copies_witness :
  copyBytes 6 (mkFILE (lit "hello") 0 true) [] 3
  = Some (mkFILE (lit "hello") 3 true, lit "hel").
Proof.
  destruct (copyBytes_copies 6 (mkFILE (lit "hello") 0 true) [] 3) as [H _].
  - simpl. lia.
  - rewrite H. reflexivity.
Defined.

End CopyExtras.

(** ** Writing tags *)

Module EntryExtras.
Import CStr Options TagFileCheck CheckNotions CheckProps CheckExtras.
Import Outcome Entry EntryNotions EntryExamples EntryProps.

Ltac each_ascii c :=
  destruct c as [[] [] [] [] [] [] [] []].

Lemma escapeChar_no_control c :
  forallb (fun x => negb (isControl x)) (escapeChar c) = true.
Proof. each_ascii c; vm_compute; reflexivity. Qed.

Lemma unescapeChar_escapeChar c r :
  unescapeChar (escapeChar c ++ r) = Some (c, r).
Proof. each_ascii c; reflexivity. Qed.

Lemma renderEscapedString_cons c s :
  renderEscapedString (c :: s) = escapeChar c ++ renderEscapedString s.
Proof. reflexivity. Qed.

Lemma renderEscapedString_app a b :
  renderEscapedString (a ++ b) = renderEscapedString a ++ renderEscapedString b.
Proof. unfold renderEscapedString. apply flat_map_app. Qed.

(** X7: the text that [renderEscapedString] gives holds no control
    character (below 0x20, or 0x7F): no tab, no line feed and no carriage
    return, so that it cannot break the columns of a tag line. *)
Theorem renderEscapedString_no_control s :
  Forall (fun c => isControl c = false) (renderEscapedString s)
  /\ ~ In TAB (renderEscapedString s)
  /\ ~ In NEWLINE (renderEscapedString s)
  /\ ~ In CRETURN (renderEscapedString s).
Proof.
  assert (F : Forall (fun c => isControl c = false) (renderEscapedString s)).
  { induction s as [|c s IH]; [constructor|].
    rewrite renderEscapedString_cons. apply Forall_app. split; [|exact IH].
    pose proof (escapeChar_no_control c) as H.
    rewrite forallb_forall in H. apply Forall_forall. intros x Hx.
    apply list_elem_of_In in Hx. specialize (H x Hx).
    by destruct (isControl x). }
  split; [exact F|].
  rewrite Forall_forall in F.
  repeat split; intros H; apply list_elem_of_In in H; apply F in H; discriminate.
Qed.

Lemma renderEscapedString_plain s :
  forallb (fun c => negb (isControl c || Ascii.eqb c BACKSLASH)) s = true ->
  renderEscapedString s = s.
Proof.
  induction s as [|c s IH]; [reflexivity|]. simpl forallb.
  intros H. apply andb_true_iff in H as [Hc Hs].
  rewrite renderEscapedString_cons, IH by done.
  unfold escapeChar. apply negb_true_iff in Hc. by rewrite Hc.
Qed.

Lemma renderEscapedName_Ok e tag s v :
  renderEscapedName e tag s = Ok v -> v = renderEscapedString s.
Proof.
  unfold renderEscapedName.
  destruct (span _ s) as [base rest] eqn:Sp.
  apply CheckProps.span_spec in Sp as (-> & Hb & _).
  rewrite renderEscapedString_app, (renderEscapedString_plain base) by done.
  destruct rest as [|c rest].
  - intros H; inversion H; subst. by rewrite !app_nil_r.
  - destruct (isControl c); [|by intros H; inversion H].
    destruct (language tag); simpl; [|done].
    destruct (kind tag); [|done].
    destruct (fatalWarnings (opts e)); [done|by intros H; inversion H].
Qed.

Lemma forallb_plain_control (s : cstr) :
  Forall (fun c => isControl c = false) s ->
  forall base rest,
    span (fun c => negb (isControl c || Ascii.eqb c BACKSLASH)) s = (base, rest) ->
    match rest with [] => True | c :: _ => isControl c = false end.
Proof.
  intros F base rest Sp.
  apply CheckProps.span_spec in Sp as (-> & _ & _).
  destruct rest as [|c rest]; [done|].
  apply Forall_app in F as [_ F]. by inversion F.
Qed.

(** X9: when [renderEscapedName] returns, it returns what
    [renderEscapedString] gives.  It returns for every name without
    control character; for a name with one, of a tag with a language and
    a kind, it returns when warnings are not fatal, and it ends the
    program (the warning being fatal) when they are and the control
    character comes before any backslash. *)
Theorem renderEscapedName_agrees e tag s :
  (forall v, renderEscapedName e tag s = Ok v -> v = renderEscapedString s)
  /\ (Forall (fun c => isControl c = false) s ->
      renderEscapedName e tag s = Ok (renderEscapedString s))
  /\ (fatalWarnings (opts e) = false -> language tag <> None ->
      kind tag <> None ->
      renderEscapedName e tag s = Ok (renderEscapedString s))
  /\ (forall pre c post,
        s = pre ++ c :: post ->
        Forall (fun x => isControl x = false /\ x <> BACKSLASH) pre ->
        isControl c = true ->
        fatalWarnings (opts e) = true -> language tag <> None ->
        kind tag <> None ->
        renderEscapedName e tag s = Fatal (lit "Aborting")).
Proof.
  split; [intros v; apply renderEscapedName_Ok|].
  assert (G : forall base rest,
             span (fun c => negb (isControl c || Ascii.eqb c BACKSLASH)) s
             = (base, rest) ->
             s = base ++ rest
             /\ base ++ renderEscapedString rest = renderEscapedString s).
  { intros base rest Sp.
    apply CheckProps.span_spec in Sp as (-> & Hb & _). split; [done|].
    by rewrite renderEscapedString_app, (renderEscapedString_plain base). }
  split; [|split].
  - intros F. unfold renderEscapedName.
    destruct (span _ s) as [base rest] eqn:Sp.
    pose proof (forallb_plain_control s F base rest Sp) as Hc.
    destruct (G base rest eq_refl) as [G1 G2].
    destruct rest as [|c rest].
    + rewrite <- G2, G1. simpl. by rewrite !app_nil_r.
    + rewrite Hc. by rewrite G2.
  - intros Hf Hl Hk. unfold renderEscapedName.
    destruct (span _ s) as [base rest] eqn:Sp.
    destruct (G base rest eq_refl) as [G1 G2].
    destruct rest as [|c rest].
    + rewrite <- G2, G1. simpl. by rewrite !app_nil_r.
    + rewrite G2. destruct (language tag); [|done].
      destruct (kind tag); [|done].
      rewrite Hf. simpl. by destruct (isControl c).
  - intros pre c post -> Hp Hc Hf Hl Hk. unfold renderEscapedName.
    rewrite (CheckProps.span_app _ pre (c :: post)).
    + rewrite Hc. destruct (language tag); [|done]. destruct (kind tag); [|done].
      simpl. by rewrite Hf.
    + apply forallb_forall. intros x Hx. apply list_elem_of_In in Hx.
      rewrite Forall_forall in Hp. destruct (Hp x Hx) as [H1 H2].
      rewrite H1. apply Ascii.eqb_neq in H2. by rewrite H2.
    + right. exists c, post. split; [done|]. by rewrite Hc.
Qed.

Lemma renderEscapedName_agrees_witness :
  renderEscapedName exampleEnv tagMain (lit "a" ++ [TAB] ++ lit "b")
  = Ok (lit "a\tb").
Proof.
  destruct (renderEscapedName_agrees exampleEnv tagMain
              (lit "a" ++ [TAB] ++ lit "b")) as (_ & _ & H & _).
  rewrite H; [reflexivity|reflexivity|discriminate|discriminate].
Defined.

Lemma unescape_renderEscapedString s :
  forall n, (length (renderEscapedString s) <= n)%nat ->
            unescape n (renderEscapedString s) = Some s.
Proof.
  induction s as [|c s IH]; intros n H.
  - by destruct n.
  - rewrite renderEscapedString_cons in *.
    pose proof (escapeChar_nonempty c) as N.
    rewrite length_app in H.
    destruct (escapeChar c ++ renderEscapedString s) as [|x l] eqn:E.
    { apply app_eq_nil in E as [E _]. done. }
    destruct n as [|n].
    { destruct (escapeChar c); [done|simpl in H; lia]. }
    cbn [unescape]. rewrite <- E, unescapeChar_escapeChar.
    rewrite IH; [done|].
    destruct (escapeChar c); [done|simpl in H; lia].
Qed.

(** X8: [renderEscapedString] loses nothing: reading its escapes back
    ([\a \b \t \n \v \f \r \\] and [\xHH] with capital hexadecimal
    digits) gives the string that was rendered, and so two strings that
    are rendered to the same text are the same. *)
Theorem renderEscapedString_round_trip s :
  unescapeString (renderEscapedString s) = Some s
  /\ forall s', renderEscapedString s' = renderEscapedString s -> s' = s.
Proof.
  assert (forall t, unescapeString (renderEscapedString t) = Some t) as R.
  { intros t. by apply unescape_renderEscapedString. }
  split; [apply R|].
  intros s' H. apply (f_equal unescapeString) in H.
  rewrite !R in H. by inversion H.
Qed.

Lemma is_prefix_spec t s : is_prefix t s = true <-> exists r, s = t ++ r.
Proof.
  revert s. induction t as [|a t IH]; intros s; simpl.
  - split; [eauto|done].
  - destruct s as [|b s]; [split; [done|intros (r & H); done]|].
    rewrite andb_true_iff, Ascii.eqb_eq, IH. split.
    + intros [-> (r & ->)]. eauto.
    + intros (r & H). inversion H; subst. eauto.
Qed.

Lemma is_prefix_take t s n :
  (length t <= n)%nat -> is_prefix t (take n s) = is_prefix t s.
Proof.
  intros Hn. apply eq_true_iff_eq. rewrite !is_prefix_spec. split.
  - intros (r & H). exists (r ++ drop n s).
    rewrite <- (take_drop n s) at 1. rewrite H. by rewrite app_assoc.
  - intros (r & ->). exists (take (n - length t) r).
    by rewrite take_app_ge by lia.
Qed.

Lemma is_prefix_take_inv t s n :
  is_prefix t (take n s) = true -> is_prefix t s = true.
Proof.
  rewrite !is_prefix_spec. intros (r & H). exists (r ++ drop n s).
  rewrite <- (take_drop n s) at 1. rewrite H. by rewrite app_assoc.
Qed.

(** [strstr] finds the first place where the token begins. *)
Lemma strstr_Some s t i :
  strstr s t = Some i ->
  is_prefix t (drop i s) = true /\ (i <= length s)%nat
  /\ forall j, (j < i)%nat -> is_prefix t (drop j s) = false.
Proof.
  revert i. induction s as [|c s IH]; intros i; simpl.
  - destruct (is_prefix t []) eqn:P; [|done].
    intros H; inversion H; subst. split; [done|]. split; [done|]. intros j Hj. lia.
  - destruct (is_prefix t (c :: s)) eqn:P.
    + intros H; inversion H; subst. split; [done|]. split; [lia|]. intros j Hj. lia.
    + destruct (strstr s t) as [k|] eqn:E; [|done]. simpl.
      intros H; inversion H; subst. destruct (IH k eq_refl) as (H1 & H2 & H3).
      split; [done|]. split; [lia|]. intros [|j] Hj; [done|]. apply H3. lia.
Qed.

Lemma strstr_None s t :
  strstr s t = None -> forall j, is_prefix t (drop j s) = false.
Proof.
  induction s as [|c s IH]; simpl.
  - destruct (is_prefix t []) eqn:P; [done|]. intros _ j. by rewrite drop_nil.
  - destruct (is_prefix t (c :: s)) eqn:P; [done|].
    destruct (strstr s t) eqn:E; [done|]. intros _ [|j]; [done|]. by apply IH.
Qed.

Lemma strstr_first s t i :
  is_prefix t (drop i s) = true -> (i <= length s)%nat ->
  (forall j, (j < i)%nat -> is_prefix t (drop j s) = false) ->
  strstr s t = Some i.
Proof.
  revert i. induction s as [|c s IH]; intros i P L M.
  - simpl in L. assert (i = 0%nat) as -> by lia. simpl in *. by rewrite P.
  - destruct i as [|i].
    + simpl in *. by rewrite P.
    + pose proof (M 0%nat ltac:(lia)) as M0. simpl in M0.
      simpl. rewrite M0.
      rewrite (IH i); [done|done|simpl in L; lia|].
      intros j Hj. apply (M (S j)). lia.
Qed.

(** X10: [truncateTagLine] cuts the line and changes nothing else: what
    it leaves is a prefix of the line.  A line in which the token does
    not occur is left whole.  Otherwise the first occurrence of the token
    is kept, at its place, and at most one character is kept after it. *)
Theorem truncateTagLine_keeps_token line token d :
  (exists rest, line = truncateTagLine line token d ++ rest)
  /\ (strstr line token = None -> truncateTagLine line token d = line)
  /\ (forall i, strstr line token = Some i ->
        strstr (truncateTagLine line token d) token = Some i
        /\ (i + length token <= length (truncateTagLine line token d)
            <= i + length token + 1)%nat).
Proof.
  unfold truncateTagLine. split; [|split].
  - destruct (strstr line token) as [i|]; [|exists []; by rewrite app_nil_r].
    destruct (_ && _); eexists; symmetry; apply take_drop.
  - by intros ->.
  - intros i H. rewrite H.
    destruct (strstr_Some _ _ _ H) as (P & L & M).
    apply is_prefix_spec in P as (r & P).
    assert (Hlen : (i + length token <= length line)%nat).
    { rewrite <- (take_drop i line), P, !length_app, length_take. lia. }
    set (p := (i + length token)%nat) in *.
    assert (forall n, (p <= n)%nat -> strstr (take n line) token = Some i) as T.
    { intros n Hn. apply strstr_first.
      - replace n with (i + (n - i))%nat by lia.
        rewrite <- take_drop_commute, is_prefix_take by lia.
        apply is_prefix_spec. eauto.
      - rewrite length_take. lia.
      - intros j Hj. apply not_true_iff_false. intros Q.
        replace n with (j + (n - j))%nat in Q by lia.
        rewrite <- take_drop_commute in Q.
        apply is_prefix_take_inv in Q. by rewrite M in Q. }
    destruct (_ && _) eqn:C.
    + split; [apply T; lia|]. rewrite length_take.
      assert (p < length line)%nat; [|lia].
      destruct (decide (p < length line)%nat); [done|].
      apply andb_true_iff in C as [C _]. apply negb_true_iff in C.
      unfold at_index in C. rewrite nth_overflow in C by lia.
      by rewrite Ascii.eqb_refl in C.
    + split; [apply T; lia|]. rewrite length_take. lia.
Qed.

Lemma appendInputLine_bounds e line len body omitted n :
  appendInputLine e line len = (body, omitted, n) ->
  n = len + Z.of_nat (length body)
  /\ ~ In CRETURN body /\ ~ In NEWLINE body
  /\ (body <> [] -> len < patternLengthLimit (opts e)
                    /\ n <= patternLengthLimit (opts e) + 1)
  /\ (omitted = true -> patternLengthLimit (opts e) <= n).
Proof.
  revert len body omitted n.
  induction line as [|c rest IH]; intros len body omitted n; simpl.
  - intros H; inversion H; subst. simpl. repeat split; try done; lia.
  - destruct (Ascii.eqb c CRETURN || Ascii.eqb c NEWLINE) eqn:E.
    { intros H; inversion H; subst. simpl. repeat split; try done; lia. }
    apply orb_false_iff in E as [E1 E2].
    apply Ascii.eqb_neq in E1, E2.
    destruct (len >=? patternLengthLimit (opts e)) eqn:L.
    { intros H; inversion H; subst. simpl. apply Z.geb_le in L.
      repeat split; try done; lia. }
    rewrite Z.geb_leb in L. apply Z.leb_gt in L.
    destruct (_ || _ || _).
    + destruct (appendInputLine e rest (len + 2)) as [[out o] m] eqn:A.
      intros H; inversion H; subst.
      destruct (IH _ _ _ _ A) as (Hn & Hc & Hl & Hb & Ho).
      simpl. split; [lia|]. split; [|split; [|split]].
      * intros [X|[X|X]]; [discriminate| |]; congruence.
      * intros [X|[X|X]]; [discriminate| |]; congruence.
      * intros _. split; [done|].
        destruct out as [|x out]; [simpl in Hn; lia|].
        destruct Hb as [_ Hb]; [done|]. lia.
      * exact Ho.
    + destruct (appendInputLine e rest (len + 1)) as [[out o] m] eqn:A.
      intros H; inversion H; subst.
      destruct (IH _ _ _ _ A) as (Hn & Hc & Hl & Hb & Ho).
      simpl. split; [lia|]. split; [|split; [|split]].
      * intros [X|X]; congruence.
      * intros [X|X]; congruence.
      * intros _. split; [done|].
        destruct out as [|x out]; [simpl in Hn; lia|].
        destruct Hb as [_ Hb]; [done|]. lia.
      * exact Ho.
Qed.

(** X11: a pattern that [makePatternString] builds from the line of
    the tag begins with the search character and [^], ends with the
    search character, holds neither a carriage return nor a line feed,
    and is at most five characters longer than the pattern length
    limit (than five, when the limit is negative). *)
Theorem makePatternString_one_line e tag s text s' :
  builtFromLine tag s ->
  makePatternString e tag s = Ok (text, s') ->
  (exists body, text = [searchChar e; "^"%char] ++ body ++ [searchChar e])
  /\ ~ In CRETURN text /\ ~ In NEWLINE text
  /\ Z.of_nat (length text) <= Z.max 0 (patternLengthLimit (opts e)) + 5.
Proof.
  unfold builtFromLine, makePatternString, makePatternStringCommon.
  intros Hmiss H. rewrite Hmiss in H.
  destruct (readLineFromBypass e (filePosition tag)) as [[line0 seek]|]; [|done].
  set (line := if truncateLine tag then _ else _) in H.
  destruct line as [|c l] eqn:El; [done|]. rewrite <- El in H.
  destruct (appendInputLine e line 0) as [[body omitted] n] eqn:A.
  destruct (appendInputLine_bounds _ _ _ _ _ _ A) as (Hn & Hc & Hl & Hb & Ho).
  set (term := if omitted then [] else _) in H.
  assert (text = [searchChar e; "^"%char] ++ body ++ term ++ [searchChar e])
    as -> by (destruct (truncateLine tag); simpl in H; by inversion H).
  clear H.
  assert (Hterm : term = [] \/ term = lit "$")
    by (unfold term; destruct omitted; [by left|];
        destruct (Ascii.eqb _ _); [by right|by left]).
  assert (Hs : searchChar e <> CRETURN /\ searchChar e <> NEWLINE)
    by (unfold searchChar; destruct (backward (opts e)); done).
  split; [exists (body ++ term); by rewrite <- app_assoc|].
  split; [|split].
  - rewrite !in_app_iff. simpl. destruct Hs as [Hs _].
    destruct Hterm as [-> | ->]; simpl;
      intros [[X|[X|X]]|[X|[X|X]]]; try done; try (by destruct X).
  - rewrite !in_app_iff. simpl. destruct Hs as [_ Hs].
    destruct Hterm as [-> | ->]; simpl;
      intros [[X|[X|X]]|[X|[X|X]]]; try done; try (by destruct X).
  - rewrite !length_app. simpl.
    assert (Z.of_nat (length term) <= 1)
      by (destruct Hterm as [-> | ->]; simpl; lia).
    destruct body as [|x body]; [simpl; lia|].
    destruct Hb as [_ Hb]; [done|]. lia.
Qed.

Lemma makePatternString_one_line_witness :
  exists body,
    lit "/^int main(void) {$/" = [searchChar (envL 96 mainLine); "^"%char]
                                 ++ body ++ [searchChar (envL 96 mainLine)].
Proof.
  destruct (makePatternString_one_line (envL 96 mainLine) tagAt10 TagFile0
              (lit "/^int main(void) {$/")
              (with_cache true (lit "/^int main(void) {$/") 10 TagFile0)
              eq_refl eq_refl) as (H & _).
  exact H.
Defined.

(** X12: after [makePatternStringCommon] has made the pattern of a tag
    whose line is not truncated, the cache is valid and holds that
    pattern for the position of the tag; a following call for any tag at
    that position whose line is not truncated returns the cached pattern
    and leaves the tag file as it is, the input file not being read. *)
Theorem pattern_cache_hit e tag puts_ret s text n s' :
  truncateLine tag = false ->
  makePatternStringCommon e tag puts_ret s = Ok (text, n, s') ->
  patternCacheValid s' = true
  /\ cached_pattern s' = text
  /\ cached_location s' = filePosition tag
  /\ forall e2 tag2 puts2,
       truncateLine tag2 = false ->
       filePosition tag2 = filePosition tag ->
       makePatternStringCommon e2 tag2 puts2 s' = Ok (text, puts2 text, s').
Proof.
  intros T H.
  assert (patternCacheValid s' = true /\ cached_pattern s' = text
          /\ cached_location s' = filePosition tag) as (V & P & L).
  { unfold makePatternStringCommon in H. rewrite T in H.
    destruct (patternCacheValid s && negb false
              && (filePosition tag =? cached_location s)) eqn:C.
    - inversion H; subst.
      apply andb_true_iff in C as [C1 C2]. apply andb_true_iff in C1 as [C1 _].
      apply Z.eqb_eq in C2. done.
    - destruct (readLineFromBypass e (filePosition tag)) as [[line0 seek]|]; [|done].
      destruct line0 as [|c l]; [done|].
      destruct (appendInputLine e (c :: l) 0) as [[body omitted] m].
      inversion H; subst. done. }
  split; [done|]. split; [done|]. split; [done|].
  intros e2 tag2 puts2 T2 F2. unfold makePatternStringCommon.
  rewrite V, T2, F2, L, Z.eqb_refl, P. reflexivity.
Qed.

Lemma pattern_cache_hit_witness :
  makePatternStringCommon (envL 1 (lit "other")) tagAt10 vstring_puts
    (with_cache true (lit "/^int main(void) {$/") 10 TagFile0)
  = Ok (lit "/^int main(void) {$/", 20,
        with_cache true (lit "/^int main(void) {$/") 10 TagFile0).
Proof.
  destruct (pattern_cache_hit (envL 96 mainLine) tagAt10 vstring_puts TagFile0
              (lit "/^int main(void) {$/") 20
              (with_cache true (lit "/^int main(void) {$/") 10 TagFile0)
              eq_refl eq_refl) as (_ & _ & _ & H).
  exact (H (envL 1 (lit "other")) tagAt10 vstring_puts eq_refl eq_refl).
Defined.

Lemma writePseudoTag_fp tagName fileName pattern s :
  fp (writePseudoTag tagName fileName pattern None s)
  = fp s ++ Stream.PSEUDO_TAG_PREFIX ++ tagName ++ [TAB] ++ fileName ++ [TAB]
    ++ lit "/" ++ pattern ++ lit "/" ++ [NEWLINE]
  /\ numTags_added (writePseudoTag tagName fileName pattern None s)
     = numTags_added s + 1.
Proof. split; reflexivity. Qed.

Lemma pseudo_line_ctags tagName fileName text :
  ~ In TAB tagName -> fileName <> [] -> ~ In TAB fileName ->
  last fileName <> Some ";"%char ->
  isCtagsLine (Stream.PSEUDO_TAG_PREFIX ++ tagName ++ [TAB] ++ fileName
               ++ [TAB] ++ lit "/" ++ text) = true.
Proof.
  intros T F1 F2 F3. apply isCtagsLine_spec.
  rewrite (app_assoc Stream.PSEUDO_TAG_PREFIX).
  apply ctagsLine_intro; try done.
  - simpl. intros [X|[X|X]]; [discriminate|discriminate|done].
  - left. simpl. eauto.
Qed.

(** X15: [writePseudoTag] without a language appends one line that ends
    in a line feed and counts it as a tag added; when the tag name holds
    no tab and the second column is neither empty, nor holds a tab, nor
    ends in [;], that line is accepted by [isCtagsLine]. *)
Theorem writePseudoTag_is_ctagsLine tagName fileName pattern s :
  ~ In TAB tagName -> fileName <> [] -> ~ In TAB fileName ->
  last fileName <> Some ";"%char ->
  exists line,
    fp (writePseudoTag tagName fileName pattern None s) = fp s ++ line
    /\ last line = Some NEWLINE
    /\ isCtagsLine line = true
    /\ numTags_added (writePseudoTag tagName fileName pattern None s)
       = numTags_added s + 1.
Proof.
  intros T F1 F2 F3.
  destruct (writePseudoTag_fp tagName fileName pattern s) as [E N].
  eexists. split; [exact E|]. split; [|split; [|exact N]].
  - rewrite !app_assoc. apply last_snoc.
  - apply pseudo_line_ctags; done.
Qed.

Lemma writePseudoTag_is_ctagsLine_witness :
  exists line,
    fp (writePseudoTag (lit "TAG_PROGRAM_NAME") (lit "ctags") [] None TagFile0)
    = [] ++ line
    /\ last line = Some NEWLINE
    /\ isCtagsLine line = true
    /\ numTags_added
         (writePseudoTag (lit "TAG_PROGRAM_NAME") (lit "ctags") [] None TagFile0)
       = 0 + 1.
Proof.
  apply (writePseudoTag_is_ctagsLine (lit "TAG_PROGRAM_NAME") (lit "ctags") []
           TagFile0).
  - simpl. intros H. repeat (destruct H as [H|H]; [discriminate|]). done.
  - discriminate.
  - simpl. intros H. repeat (destruct H as [H|H]; [discriminate|]). done.
  - discriminate.
Defined.

Lemma digits_no_tab (ds : cstr) : Forall digit ds -> ~ In TAB ds.
Proof.
  intros F H. apply list_elem_of_In in H. rewrite Forall_forall in F.
  apply F in H. unfold digit in H. simpl in H.
  repeat (destruct H as [H|H]; [discriminate|]). done.
Qed.

Lemma digits_last (ds : cstr) : Forall digit ds -> last ds <> Some ";"%char.
Proof.
  intros F H. apply last_Some_elem_of in H. rewrite Forall_forall in F.
  apply F in H. unfold digit in H. simpl in H.
  repeat (destruct H as [H|H]; [discriminate|]). done.
Qed.

(** X16: outside the xref mode, [addPseudoTags] appends first the line
    [!_TAG_FILE_FORMAT], with the format number and a comment between
    slashes, and next the line [!_TAG_FILE_SORTED], whose flag after the
    first tab is ['0'], ['1'] or ['2'] as the sort option says.  The
    first line is accepted by [isTagFile], so that [openTagFile] never
    refuses to overwrite a file that begins with it. *)
Theorem addPseudoTags_header p e s :
  xref (opts e) = false -> 0 <= tagFileFormat (opts e) ->
  exists comment rest,
    let line := lit "!_TAG_FILE_FORMAT" ++ [TAB]
                ++ decimal (tagFileFormat (opts e)) ++ [TAB]
                ++ lit "/" ++ comment ++ lit "/" ++ [NEWLINE] in
    let flag := sortedFlag (sorted (opts e)) in
    fp (addPseudoTags p e s)
    = fp s ++ line ++ StreamNotions.headerLine (String flag EmptyString) ++ rest
    /\ ~ In NEWLINE (removelast line)
    /\ isTagFile (Opened (Some line)) = true
    /\ (forall opt d, forReading d = Opened (Some line) ->
          openTagFile opt d <> Refused)
    /\ StreamNotions.lineFlag
         (StreamNotions.headerLine (String flag EmptyString)) = Some flag.
Proof.
  intros X F. unfold addPseudoTags. rewrite X. cbn [negb].
  set (comment := if tagFileFormat (opts e) =? 1 then _ else _).
  exists comment.
  set (s1 := writePseudoTag (lit "TAG_FILE_FORMAT") _ _ None s).
  set (s2 := writePseudoTag (lit "TAG_FILE_SORTED") _ _ None s1).
  set (s3 := writePseudoTag (lit "TAG_PROGRAM_AUTHOR") _ _ None s2).
  set (s4 := writePseudoTag (lit "TAG_PROGRAM_NAME") _ _ None s3).
  set (s5 := writePseudoTag (lit "TAG_PROGRAM_URL") _ _ None s4).
  set (s6 := writePseudoTag (lit "TAG_PROGRAM_VERSION") _ _ None s5).
  assert (exists rest6, fp s6 = fp s2 ++ rest6) as [rest6 E6].
  { eexists. unfold s6. rewrite (proj1 (writePseudoTag_fp _ _ _ _)).
    unfold s5. rewrite (proj1 (writePseudoTag_fp _ _ _ _)).
    unfold s4. rewrite (proj1 (writePseudoTag_fp _ _ _ _)).
    unfold s3. rewrite (proj1 (writePseudoTag_fp _ _ _ _)).
    rewrite <- !app_assoc. reflexivity. }
  assert (exists rest, fp (match outputEncoding p with
                           | Some enc => writePseudoTag (lit "TAG_FILE_ENCODING") enc [] None s6
                           | None => s6 end) = fp s2 ++ rest) as [rest E].
  { destruct (outputEncoding p).
    - eexists. rewrite (proj1 (writePseudoTag_fp _ _ _ _)), E6, <- app_assoc.
      reflexivity.
    - eauto. }
  exists rest. cbv zeta.
  destruct (decimal_digits _ F) as [Dn Dd].
  assert (Hc : ~ In NEWLINE comment /\ ~ In CRETURN comment).
  { unfold comment. destruct (_ =? 1); [|destruct (_ =? 2)]; simpl;
      split; intros H; repeat (destruct H as [H|H]; [discriminate|]); done. }
  split; [|split; [|split; [|split]]].
  - rewrite E. unfold s2. rewrite (proj1 (writePseudoTag_fp _ _ _ _)).
    unfold s1. rewrite (proj1 (writePseudoTag_fp _ _ _ _)).
    unfold StreamNotions.headerLine, Stream.PSEUDO_TAG_PREFIX.
    generalize (decimal (tagFileFormat (opts e))) as dec. intros dec.
    generalize comment as cm. intros cm. generalize (fp s) as f0. intros f0.
    generalize (sortedFlag (sorted (opts e))) as fl. intros fl.
    repeat (rewrite <- ?app_assoc; simpl). reflexivity.
  - replace (lit "!_TAG_FILE_FORMAT" ++ [TAB] ++ decimal (tagFileFormat (opts e))
             ++ [TAB] ++ lit "/" ++ comment ++ lit "/" ++ [NEWLINE])
      with ((lit "!_TAG_FILE_FORMAT" ++ [TAB] ++ decimal (tagFileFormat (opts e))
             ++ [TAB] ++ lit "/" ++ comment ++ lit "/") ++ [NEWLINE])
      by (rewrite <- !app_assoc; reflexivity).
    rewrite removelast_last, !in_app_iff.
    intros [H|[H|[H|[H|[H|[H|H]]]]]].
    + simpl in H. repeat (destruct H as [H|H]; [discriminate|]). done.
    + simpl in H. by destruct H.
    + apply list_elem_of_In in H. rewrite Forall_forall in Dd.
      apply Dd in H. unfold digit in H. simpl in H.
      repeat (destruct H as [H|H]; [discriminate|]). done.
    + simpl in H. by destruct H.
    + simpl in H. by destruct H.
    + by destruct Hc as [Hc _].
    + simpl in H. by destruct H.
  - simpl isTagFile. apply orb_true_iff. left.
    apply (pseudo_line_ctags (lit "TAG_FILE_FORMAT")
             (decimal (tagFileFormat (opts e)))
             (comment ++ lit "/" ++ [NEWLINE])).
    + simpl. intros H. repeat (destruct H as [H|H]; [discriminate|]). done.
    + done.
    + by apply digits_no_tab.
    + by apply digits_last.
  - intros opt d Hd. unfold openTagFile. rewrite Hd.
    replace (isTagFile (Opened (Some _))) with true.
    + rewrite andb_false_r. destruct (toStdout d); [done|].
      destruct (forWriting d); simpl; [|done].
      destruct (etags opt), (append opt && fileExists d); done.
    + symmetry. simpl isTagFile. apply orb_true_iff. left.
      apply (pseudo_line_ctags (lit "TAG_FILE_FORMAT")
               (decimal (tagFileFormat (opts e)))
               (comment ++ lit "/" ++ [NEWLINE])).
      * simpl. intros H. repeat (destruct H as [H|H]; [discriminate|]). done.
      * done.
      * by apply digits_no_tab.
      * by apply digits_last.
  - by destruct (sorted (opts e)).
Qed.

Lemma escapeChar_head c :
  head (escapeChar c) = Some "#"%char -> c = "#"%char.
Proof. each_ascii c; vm_compute; intros H; first [discriminate|reflexivity]. Qed.

Lemma escapeChar_last c :
  last (escapeChar c) = Some ";"%char -> c = ";"%char.
Proof. each_ascii c; vm_compute; intros H; first [discriminate|reflexivity]. Qed.

Lemma renderEscapedString_head s :
  head (renderEscapedString s) = Some "#"%char -> head s = Some "#"%char.
Proof.
  destruct s as [|c s]; [done|]. rewrite renderEscapedString_cons.
  pose proof (escapeChar_nonempty c) as N. pose proof (escapeChar_head c) as H.
  destruct (escapeChar c) as [|x l]; [done|]. simpl in *.
  intros E. by rewrite H.
Qed.

Lemma renderEscapedString_last s :
  last (renderEscapedString s) = Some ";"%char -> last s = Some ";"%char.
Proof.
  destruct (decide (s = [])) as [->|Hs]; [done|].
  destruct (exists_last Hs) as (s0 & c & ->).
  rewrite renderEscapedString_app, last_snoc.
  change (renderEscapedString [c]) with (escapeChar c ++ []).
  rewrite app_nil_r.
  pose proof (escapeChar_nonempty c) as N. pose proof (escapeChar_last c) as H.
  destruct (exists_last N) as (l0 & x & E). rewrite E in *.
  rewrite app_assoc, last_snoc. rewrite last_snoc in H.
  intros X. by rewrite H.
Qed.

Lemma renderEscapedString_nonempty s : s <> [] -> renderEscapedString s <> [].
Proof.
  destruct s as [|c s]; [done|]. intros _. rewrite renderEscapedString_cons.
  pose proof (escapeChar_nonempty c). by destruct (escapeChar c).
Qed.

Lemma renderEscapedString_no_tab s : ~ In TAB (renderEscapedString s).
Proof.
  induction s as [|c s IH]; [by intros []|].
  rewrite renderEscapedString_cons, in_app_iff. intros [H|H]; [|done].
  pose proof (escapeChar_no_control c) as F. rewrite forallb_forall in F.
  apply F in H. discriminate.
Qed.

Lemma makePatternStringCommon_search e tag pr s text n s' :
  (patternCacheValid s = true -> isSearch (cached_pattern s)) ->
  makePatternStringCommon e tag pr s = Ok (text, n, s') ->
  isSearch text.
Proof.
  intros Hc. unfold makePatternStringCommon.
  destruct (patternCacheValid s && negb (truncateLine tag)
            && (filePosition tag =? cached_location s)) eqn:C.
  - intros H; inversion H; subst. apply Hc.
    apply andb_true_iff in C as [C _]. by apply andb_true_iff in C as [C _].
  - destruct (readLineFromBypass e (filePosition tag)) as [[line0 seek]|]; [|done].
    set (line := if truncateLine tag then _ else _).
    destruct line as [|c l]; [done|].
    destruct (appendInputLine e (c :: l) 0) as [[body omitted] m].
    intros H.
    assert (exists more, text = searchChar e :: more) as [more ->]
      by (destruct (truncateLine tag); inversion H; subst; simpl; eauto).
    exists (searchChar e), more. split; [done|].
    unfold searchChar. destruct (backward (opts e)); auto.
Qed.

(** The number that a line-number entry gets for its address. *)
Lemma renderFieldLineNumber_column e tag v :
  lineDirectives (opts e) = true ->
  renderFieldLineNumber e tag = Ok v -> v = decimal (lineColumn e tag).
Proof.
  intros LD H. unfold renderFieldLineNumber, lineColumn in *.
  rewrite LD in *. cbn [andb] in H.
  destruct (negb (sourceLineNumberDifference tag =? 0)).
  - destruct (_ && _); by inversion H.
  - by inversion H.
Qed.

Lemma writeLineNumberEntry_column e tag s n s' :
  writeLineNumberEntry e tag s = Ok (n, s') ->
  s' = with_fp (fp s ++ decimal (lineColumn e tag)) s.
Proof.
  unfold writeLineNumberEntry. intros H.
  destruct (lineDirectives (opts e)) eqn:LD.
  - inv_bind H as ([v s1] & Hv & H). simpl in Hv.
    inv_bind Hv as (v' & Hr & Hv). inversion Hv; subst v' s1; clear Hv.
    apply renderFieldLineNumber_column in Hr; [|done]. subst v.
    by inversion H.
  - inversion H. unfold lineColumn. by rewrite LD.
Qed.

(** The columns of the line that [writeCtagsEntry] writes. *)
Lemma writeCtagsEntry_columns e tag s n s' :
  writeCtagsEntry e tag s = Ok (n, s') ->
  exists addr suffix,
    fp s' = fp s ++ renderEscapedString (name tag) ++ [TAB]
            ++ renderEscapedString (fileColumn e tag) ++ [TAB]
            ++ addr ++ suffix ++ [NEWLINE]
    /\ (suffix = [] \/ exists more, suffix = separator ++ more)
    /\ (if lineNumberEntry tag then addr = decimal (lineColumn e tag)
        else match pattern tag with
             | Some pat => addr = pat
             | None =>
                 (patternCacheValid s = true -> isSearch (cached_pattern s)) ->
                 isSearch addr
             end).
Proof.
  unfold writeCtagsEntry. intros H.
  inv_bind H as ([nm s1] & H1 & H).
  inv_bind H as ([file s2] & H2 & H).
  simpl in H1, H2.
  inv_bind H1 as (nm' & Hn & H1). inversion H1; subst nm' s1; clear H1.
  inversion H2; subst file s2; clear H2.
  unfold renderFieldName in Hn. apply renderEscapedName_Ok in Hn. subst nm.
  fold (fileColumn e tag) in H.
  unfold fprintf at 1 in H. cbv zeta in H.
  set (s1 := with_fp _ s) in H.
  inv_bind H as ([n1 s2] & Haddr & H).
  inv_bind H as ([n2 s3] & Hext & H).
  unfold fprintf in H. inversion H; subst n s'; clear H.
  assert (exists addr,
            fp s2 = fp s1 ++ addr
            /\ (if lineNumberEntry tag then addr = decimal (lineColumn e tag)
                else match pattern tag with
                     | Some pat => addr = pat
                     | None =>
                         (patternCacheValid s = true ->
                          isSearch (cached_pattern s)) -> isSearch addr
                     end)) as (addr & Faddr & Haddr').
  { destruct (lineNumberEntry tag).
    - apply writeLineNumberEntry_column in Haddr. subst s2.
      eexists. split; [reflexivity|]. done.
    - destruct (pattern tag) as [pat|].
      + inversion Haddr; subst. by exists pat.
      + unfold writePatternEntry in Haddr.
        inv_bind Haddr as ([[text n'] s''] & Hp & Haddr).
        inversion Haddr; subst.
        exists text. split.
        * apply makePatternStringCommon_frame in Hp as (_ & F & _).
          simpl. by rewrite F.
        * intros Hc. eapply makePatternStringCommon_search; [|exact Hp].
          exact Hc. }
  assert (exists suffix,
            fp s3 = fp s2 ++ suffix
            /\ (suffix = [] \/ exists more, suffix = separator ++ more))
    as (suffix & Fs & Hs).
  { destruct (includeExtensionFlags e).
    - apply addExtensionFields_Ok in Hext as (suffix & Es & _ & ->).
      exists suffix. split; [done|].
      unfold extensionSuffix in Es. inv_bind Es as (texts & _ & Es).
      inversion Es. destruct texts; [by left|right; eauto].
    - inversion Hext; subst. exists []. split; [by rewrite app_nil_r|by left]. }
  exists addr, suffix. split; [|done].
  simpl. rewrite Fs, Faddr. unfold s1. simpl.
  repeat (rewrite <- ?app_assoc; simpl). reflexivity.
Qed.

(** X14: the line that [writeCtagsEntry] appends for a tag with a name
    that is neither empty nor begins with [#], a file name that is
    neither empty nor ends in [;], and a search pattern or a line number
    that is printed without a sign, ends in a line feed and is accepted
    by [isCtagsLine].  The number printed is the [unsigned long] of the
    tag, and under line directives the [long] that
    [renderFieldLineNumber] makes of it, which is negative for the line
    numbers from 2^63 on: such a line is not covered. *)
Theorem writeCtagsEntry_is_ctagsLine e tag s n s' :
  recognisable e s tag ->
  writeCtagsEntry e tag s = Ok (n, s') ->
  exists line,
    fp s' = fp s ++ line
    /\ last line = Some NEWLINE
    /\ isCtagsLine line = true.
Proof.
  intros (N1 & N2 & F1 & F2 & A) H.
  apply writeCtagsEntry_columns in H as (addr & suffix & E & Hs & Ha).
  eexists. split; [exact E|]. split.
  { rewrite !app_assoc. apply last_snoc. }
  apply isCtagsLine_spec. apply ctagsLine_intro.
  - by apply renderEscapedString_nonempty.
  - apply renderEscapedString_no_tab.
  - intros X. by apply renderEscapedString_head in X.
  - by apply renderEscapedString_nonempty.
  - apply renderEscapedString_no_tab.
  - intros X. by apply renderEscapedString_last in X.
  - assert (isSearch addr -> beginsWithExcmd (addr ++ suffix ++ [NEWLINE])) as S.
    { intros (c & more & -> & Hc). left. exists c. eexists. split; [|done].
      reflexivity. }
    destruct (lineNumberEntry tag).
    + subst addr. destruct (decimal_digits _ A) as [D1 D2].
      right. exists (decimal (lineColumn e tag)), (suffix ++ [NEWLINE]).
      split; [done|]. split; [done|]. split; [done|]. right.
      destruct Hs as [->|(more & ->)].
      * exists NEWLINE, []. split; [done|auto].
      * exists ";"%char, (DQUOTE :: more ++ [NEWLINE]). split; [done|auto].
    + destruct (pattern tag) as [pat|]; [subst addr|]; apply S; auto.
Qed.

Lemma writeCtagsEntry_is_ctagsLine_witness :
  exists line,
    option_map (fun r => fp (snd r))
      (match writeCtagsEntry exampleEnv tagMain TagFile0 with
       | Ok r => Some r
       | _ => None
       end) = Some ([] ++ line)
    /\ isCtagsLine line = true.
Proof.
  destruct (writeCtagsEntry exampleEnv tagMain TagFile0) as [[n s']| | |] eqn:E;
    try discriminate.
  destruct (writeCtagsEntry_is_ctagsLine exampleEnv tagMain TagFile0 n s')
    as (line & F & _ & C); [|exact E|].
  - split; [discriminate|]. split; [discriminate|]. split; [discriminate|].
    split; [discriminate|]. simpl. discriminate.
  - exists line. simpl. rewrite F. done.
Defined.

Lemma addPseudoTags_header_witness :
  exists comment rest,
    fp (addPseudoTags exampleProgram exampleEnv TagFile0)
    = [] ++ (lit "!_TAG_FILE_FORMAT" ++ [TAB] ++ lit "2" ++ [TAB]
             ++ lit "/" ++ comment ++ lit "/" ++ [NEWLINE])
         ++ StreamNotions.headerLine "0" ++ rest.
Proof.
  destruct (addPseudoTags_header exampleProgram exampleEnv TagFile0)
    as (comment & rest & H & _).
  - reflexivity.
  - discriminate.
  - exists comment, rest. exact H.
Defined.

Lemma makePatternStringCommon_stats e tag pr s text n s' :
  makePatternStringCommon e tag pr s = Ok (text, n, s') ->
  stats s' = stats s /\ etags_byteCount s' = etags_byteCount s.
Proof.
  unfold makePatternStringCommon. intros H. inv_ok; done.
Qed.

Lemma writeCtagsEntry_stats e tag s n s' :
  writeCtagsEntry e tag s = Ok (n, s') ->
  stats s' = stats s /\ etags_byteCount s' = etags_byteCount s.
Proof.
  unfold writeCtagsEntry. intros H.
  inv_bind H as ([nm s1] & H1 & H).
  inv_bind H as ([file s2] & H2 & H).
  simpl in H1, H2.
  inv_bind H1 as (nm' & _ & H1). inversion H1; subst nm' s1; clear H1.
  inversion H2; subst file s2; clear H2.
  unfold fprintf at 1 in H. cbv zeta in H.
  set (s1 := with_fp _ s) in H.
  inv_bind H as ([n1 s2] & Haddr & H).
  inv_bind H as ([n2 s3] & Hext & H).
  unfold fprintf in H. inversion H; subst n s'; clear H.
  assert (stats s2 = stats s /\ etags_byteCount s2 = etags_byteCount s)
    as [A1 A2].
  { destruct (lineNumberEntry tag).
    - apply writeLineNumberEntry_Ok in Haddr as (text & ->). done.
    - destruct (pattern tag) as [pat|].
      + inversion Haddr; subst. done.
      + unfold writePatternEntry in Haddr.
        inv_bind Haddr as ([[text n'] s''] & Hp & Haddr).
        inversion Haddr; subst.
        apply makePatternStringCommon_stats in Hp. done. }
  assert (stats s3 = stats s2 /\ etags_byteCount s3 = etags_byteCount s2)
    as [B1 B2].
  { destruct (includeExtensionFlags e).
    - apply addExtensionFields_Ok in Hext as (suffix & _ & _ & ->). done.
    - by inversion Hext. }
  split; [|simpl; congruence].
  unfold stats in *. simpl. congruence.
Qed.

(** X13: [writeTagEntry] only appends to the tag file and to the etags
    file, whose byte count grows by what is appended, and it leaves the
    cork queue and the warnings alone.  For a placeholder nothing at all
    changes.  For any other tag the number of tags added grows by one,
    the longest tag name becomes the larger of what it was and the length
    of the name, and the longest line never decreases. *)
Theorem writeTagEntry_effects e tag s s' :
  writeTagEntry e tag s = Ok s' ->
  (exists text, fp s' = fp s ++ text)
  /\ (exists text, etags_fp s' = etags_fp s ++ text
                   /\ etags_byteCount s'
                      = etags_byteCount s + Z.of_nat (length text))
  /\ sameCork s s'
  /\ (placeholder tag = true -> s' = s)
  /\ (placeholder tag = false ->
      numTags_added s' = numTags_added s + 1
      /\ max_tag s' = Z.max (max_tag s) (Z.of_nat (length (name tag)))
      /\ max_line s <= max_line s').
Proof.
  intros H. pose proof (writeTagEntry_sameCork _ _ _ _ H) as [C F].
  split; [exact F|]. split; [|split; [exact C|]].
  - unfold writeTagEntry in H.
    destruct (placeholder tag).
    { inversion H; subst. exists []. rewrite app_nil_r. simpl. split; [done|lia]. }
    inv_bind H as ([len s1] & Hw & H). inversion H; subst s'; clear H.
    cut (exists text, etags_fp s1 = etags_fp s ++ text
                      /\ etags_byteCount s1
                         = etags_byteCount s + Z.of_nat (length text)).
    { intros (text & E1 & E2). exists text. done. }
    destruct (xref (opts e)).
    + exists []. rewrite app_nil_r.
      unfold writeXrefEntry in Hw.
      destruct (customXfmt (opts e));
        [|destruct (isFileEntry tag); [|destruct (_ =? 1)]];
        inversion Hw; subst; simpl; split; (done || lia).
    + destruct (etags (opts e)).
      * unfold writeEtagsEntry in Hw.
        destruct (isFileEntry tag).
        { inversion Hw; subst. eexists. simpl. split; reflexivity. }
        destruct (readLineFromBypassAnyway e tag) as [[line0 seek]|].
        -- inv_bind Hw as (line & _ & Hw). inversion Hw; subst.
           eexists. simpl. split; reflexivity.
        -- inversion Hw; subst. exists []. rewrite app_nil_r. simpl.
           split; [done|lia].
      * pose proof (writeCtagsEntry_stats _ _ _ _ _ Hw) as [_ B].
        apply writeCtagsEntry_Ok in Hw as (_ & _ & _ & _ & _ & E).
        exists []. rewrite app_nil_r. simpl. split; [done|lia].
  - unfold writeTagEntry in H. split.
    + intros P. rewrite P in H. by inversion H.
    + intros P. rewrite P in H.
      inv_bind H as ([len s1] & Hw & H). inversion H; subst s'; clear H.
      assert (stats s1 = stats s) as St.
      { destruct (xref (opts e)).
        - unfold writeXrefEntry in Hw.
          destruct (customXfmt (opts e));
            [|destruct (isFileEntry tag); [|destruct (_ =? 1)]];
            inversion Hw; subst; done.
        - destruct (etags (opts e)).
          + unfold writeEtagsEntry in Hw.
            destruct (isFileEntry tag); [by inversion Hw; subst|].
            destruct (readLineFromBypassAnyway e tag) as [[line0 seek]|].
            * inv_bind Hw as (line & _ & Hw). by inversion Hw; subst.
            * by inversion Hw; subst.
          + by apply writeCtagsEntry_stats in Hw as [St _]. }
      unfold stats in St. inversion St as [[S1 S2 S3]].
      unfold rememberMaxLengths. simpl. rewrite S1, S2, S3.
      split; [done|]. split.
      * destruct (_ >? max_tag s) eqn:G; [apply Z.gtb_lt in G|rewrite Z.gtb_ltb in G; apply Z.ltb_ge in G]; lia.
      * destruct (len >? max_line s) eqn:G; [apply Z.gtb_lt in G|]; lia.
Qed.

Lemma writeTagEntry_effects_witness :
  exists s',
    writeTagEntry exampleEnv tagMain TagFile0 = Ok s'
    /\ numTags_added s' = 1 /\ max_tag s' = 4.
Proof.
  destruct (writeTagEntry exampleEnv tagMain TagFile0) as [s'| | |] eqn:E;
    try discriminate.
  destruct (writeTagEntry_effects exampleEnv tagMain TagFile0 s' E)
    as (_ & _ & _ & _ & H).
  destruct (H eq_refl) as (H1 & H2 & _).
  exists s'. split; [reflexivity|]. split; [exact H1|exact H2].
Defined.

Lemma renderFieldName_returns e t : renderFieldName e t <> Diverges.
Proof.
  unfold renderFieldName, renderEscapedName.
  destruct (span _ _) as [base rest]. destruct rest as [|c rest]; [done|].
  destruct (isControl c); [|done].
  destruct (language t); simpl; [|done].
  destruct (kind t); [|done]. by destruct (fatalWarnings (opts e)).
Qed.

Lemma mapM_returns e l : mapM (renderFieldName e) l <> Diverges.
Proof.
  induction l as [|t l IH]; simpl; [done|].
  pose proof (renderFieldName_returns e t).
  destruct (renderFieldName e t); simpl; try done.
  destruct (mapM (renderFieldName e) l); simpl; done.
Qed.

(** X18: the walk of [getFullQualifiedScopeNameFromCorkQueue] up the
    scopes ends when parents come before their children in the queue: it
    makes no more rounds than the index of the entry it starts from.
    From an entry that is its own scope the loop passes every bound on
    its rounds. *)
Theorem scope_walk_ends e s :
  (queue_wf s -> corkQueue_count s < 2 ^ 32 ->
   scopes_wf (corkQueue_queue s) ->
   forall i fuel,
     0 <= i < corkQueue_count s -> (Z.to_nat i <= fuel)%nat ->
     scopeNames fuel e (getEntryInCorkQueue s i) s <> Diverges
     /\ scopeNames fuel e (getEntryInCorkQueue s i) s
        = scopeNames (Z.to_nat i) e (getEntryInCorkQueue s i) s)
  /\ (forall sc,
        getEntryInCorkQueue s (scopeIndex (extensionFields sc)) = Some sc ->
        placeholder sc = true \/ (exists v, renderFieldName e sc = Ok v) ->
        forall fuel, scopeNames fuel e (Some sc) s = Diverges).
Proof.
  split.
  - intros W B Q i fuel Hi Hf.
    rewrite !scopeNames_pure.
    rewrite (scopeNamesOf_chain e s W B Q fuel fuel i Hi Hf Hf).
    rewrite (scopeNamesOf_chain e s W B Q (Z.to_nat i) fuel i Hi
               ltac:(lia) Hf).
    split; [|done].
    pose proof (mapM_returns e
                  (filter (fun t => placeholder t = false)
                          (parentChain fuel (corkQueue_queue s) i))) as R.
    destruct (mapM _ _); simpl; done.
  - intros sc L P fuel. rewrite scopeNames_pure.
    assert (scopeNamesOf fuel e s (Some sc) = Diverges) as ->; [|done].
    induction fuel as [|fuel IH]; [done|].
    simpl. rewrite L, IH.
    destruct P as [P|(v & P)].
    + by rewrite P.
    + destruct (placeholder sc); [done|]. by rewrite P.
Qed.

Lemma scope_walk_ends_witness :
  scopeNames 2 exampleEnv (getEntryInCorkQueue (corked [tagFoo; tagBar]) 2)
    (corked [tagFoo; tagBar])
  <> Diverges
  /\ forall fuel,
       scopeNames fuel exampleEnv
         (getEntryInCorkQueue (corked [tagBar]) 1) (corked [tagBar])
       = Diverges.
Proof.
  destruct (scope_walk_ends exampleEnv (corked [tagFoo; tagBar])) as [H _].
  destruct (scope_walk_ends exampleEnv (corked [tagBar])) as [_ H2].
  split.
  - assert (scopes_wf (corkQueue_queue (corked [tagFoo; tagBar]))) as Q.
    { intros i t Hi L.
      assert (i < 3)%nat as Hlt by (apply lookup_lt_Some in L; exact L).
      destruct i as [|[|[|i]]]; [lia| | |lia];
        vm_compute in L; inversion L; subst t; vm_compute;
        (split; [discriminate|reflexivity]). }
    pose proof (H ltac:(split; [reflexivity|vm_compute; discriminate])
                  eq_refl Q 2 2%nat
                  ltac:(split; [vm_compute; discriminate|reflexivity])
                  ltac:(vm_compute; lia)) as [NE _].
    exact NE.
  - apply H2; [reflexivity|]. right. eexists. reflexivity.
Defined.

Lemma recordTagEntryInQueue_corkState e tag s slot s' :
  recordTagEntryInQueue e tag s = Ok (slot, s') -> corkState s' = corkState s.
Proof.
  unfold recordTagEntryInQueue. intros H.
  destruct (pattern tag); [by inversion H|].
  destruct (lineNumberEntry tag); simpl in H; [by inversion H|].
  inv_bind H as ([pat s1] & Hp & H). inversion H; subst.
  unfold makePatternString in Hp.
  inv_bind Hp as ([[text n] s2] & Hc & Hp). inversion Hp; subst.
  by apply makePatternStringCommon_frame in Hc as (C & _).
Qed.

(** X20: [queueTagEntry] returns the count there was, and the count
    grows by one; the slot written lies inside the array, whose length
    stays when there was room and otherwise doubles (and becomes 2 when
    it was 0): the count never passes the length. *)
Theorem queueTagEntry_in_bounds e tag s i s' :
  0 <= corkQueue_count s <= corkQueue_length s ->
  corkQueue_length s < 2 ^ 31 ->
  queueTagEntry e tag s = Ok (i, s') ->
  i = corkQueue_count s
  /\ corkQueue_count s' = corkQueue_count s + 1
  /\ i < corkQueue_length s'
  /\ corkQueue_count s' <= corkQueue_length s'
  /\ (if corkQueue_count s <? corkQueue_length s
      then corkQueue_length s' = corkQueue_length s
      else corkQueue_length s' = 2 * Z.max 1 (corkQueue_length s)).
Proof.
  intros B L H. unfold queueTagEntry in H.
  inv_bind H as ([slot s1] & Hr & H). inversion H; subst i s'; clear H.
  apply recordTagEntryInQueue_corkState in Hr.
  unfold corkState in Hr. simpl in Hr. inversion Hr as [[C Q Ln Cn]].
  simpl. rewrite Ln, Cn.
  assert (to_uint (corkQueue_count s + 1) = corkQueue_count s + 1) as ->
    by (apply to_uint_small; lia).
  destruct (corkQueue_count s <? corkQueue_length s) eqn:E; simpl.
  - apply Z.ltb_lt in E. lia.
  - apply Z.ltb_ge in E.
    destruct (corkQueue_length s =? 0) eqn:Z0.
    + apply Z.eqb_eq in Z0. rewrite to_uint_small by lia. lia.
    + apply Z.eqb_neq in Z0. rewrite to_uint_small by lia. lia.
Qed.

Lemma queueTagEntry_in_bounds_witness :
  exists s',
    queueTagEntry exampleEnv tagFoo (corkTagFile TagFile0) = Ok (1, s')
    /\ corkQueue_count s' = 2 /\ corkQueue_length s' = 2.
Proof.
  destruct (queueTagEntry exampleEnv tagFoo (corkTagFile TagFile0))
    as [[i s']| | |] eqn:E; try discriminate.
  destruct (queueTagEntry_in_bounds exampleEnv tagFoo (corkTagFile TagFile0)
              i s') as (-> & C & _ & _ & L); [simpl; lia|reflexivity|exact E|].
  exists s'. split; [reflexivity|]. split; [exact C|exact L].
Defined.

Lemma cacheSound_ext e s s' :
  patternCacheValid s' = patternCacheValid s ->
  cached_pattern s' = cached_pattern s ->
  cached_location s' = cached_location s ->
  cacheSound e s -> cacheSound e s'.
Proof. unfold cacheSound. intros -> -> ->. done. Qed.

(** With a sound cache the pattern is the one built from the line. *)
Lemma makePatternStringCommon_patternText e tag pr s :
  cacheSound e s ->
  (x ← makePatternStringCommon e tag pr s; Ok (fst (fst x)))
  = patternText e tag.
Proof.
  intros C. unfold makePatternStringCommon, patternText.
  destruct (patternCacheValid s && negb (truncateLine tag)
            && (filePosition tag =? cached_location s)) eqn:Hit.
  - apply andb_true_iff in Hit as [Hit P]. apply andb_true_iff in Hit as [V T].
    apply Z.eqb_eq in P. apply negb_true_iff in T.
    destruct (C V) as (line & seek & R & N & E).
    rewrite P, R. unfold patternLine. rewrite T.
    destruct line; [done|]. simpl. by rewrite E.
  - destruct (readLineFromBypass e (filePosition tag)) as [[line0 seek]|];
      [|done].
    fold (patternLine tag line0).
    destruct (patternLine tag line0) as [|c l] eqn:El; [done|].
    rewrite <- El. rewrite appendInputLine_cut. unfold patternOf.
    destruct (cut _ 0 _) as [body omitted].
    destruct (truncateLine tag); reflexivity.
Qed.

Lemma makePatternStringCommon_cacheSound e tag pr s text n s' :
  cacheSound e s ->
  makePatternStringCommon e tag pr s = Ok (text, n, s') -> cacheSound e s'.
Proof.
  intros C H.
  pose proof (makePatternStringCommon_patternText e tag pr s C) as P.
  rewrite H in P. simpl in P.
  unfold makePatternStringCommon in H.
  destruct (patternCacheValid s && negb (truncateLine tag)
            && (filePosition tag =? cached_location s)) eqn:Hit.
  - by inversion H; subst.
  - destruct (readLineFromBypass e (filePosition tag)) as [[line0 seek]|] eqn:R;
      [|done].
    fold (patternLine tag line0) in H.
    destruct (patternLine tag line0) as [|c l] eqn:El; [done|].
    rewrite <- El in H.
    destruct (appendInputLine e (patternLine tag line0) 0) as [[body om] m].
    destruct (truncateLine tag) eqn:T; inversion H; subst; [done|].
    intros _. simpl. exists line0, seek. split; [done|].
    unfold patternText in P. rewrite R in P.
    unfold patternLine in *. rewrite T in *. rewrite El in P.
    inversion P as [P']. rewrite El. done.
Qed.

Lemma getEntryInCorkQueue_nil s : getEntryInCorkQueue s SCOPE_NIL = None.
Proof. reflexivity. Qed.

Lemma fieldText_plain e s1 s2 tag p f :
  scopeIndex (extensionFields tag) = SCOPE_NIL ->
  fieldText e s1 (set_pattern p tag) f = fieldText e s2 tag f.
Proof.
  intros Z. destruct tag as [a1 a2 a3 a4 a5 a6 a7 a8 a9 a10 a11 a12 x a14 a15 a16].
  simpl in Z. destruct f; try reflexivity.
  unfold fieldText. cbn [set_pattern extensionFields]. rewrite Z.
  destruct (scopeKind x), (scopeName x); try reflexivity.
Qed.

Lemma emitted_plain e s1 s2 tag p f :
  scopeIndex (extensionFields tag) = SCOPE_NIL ->
  emitted e s1 (set_pattern p tag) f = emitted e s2 tag f.
Proof.
  intros Z. destruct tag as [a1 a2 a3 a4 a5 a6 a7 a8 a9 a10 a11 a12 x a14 a15 a16].
  simpl in Z. unfold emitted. f_equal. destruct f; try reflexivity.
  unfold valueAvailable. cbn [set_pattern extensionFields]. rewrite Z.
  reflexivity.
Qed.

Lemma extensionSuffix_plain e s1 s2 tag p :
  scopeIndex (extensionFields tag) = SCOPE_NIL ->
  extensionSuffix e s1 (set_pattern p tag) = extensionSuffix e s2 tag.
Proof.
  intros Z. unfold extensionSuffix.
  assert (forall l : list extField,
            mapM (fieldText e s1 (set_pattern p tag))
                 (filter (fun f => emitted e s1 (set_pattern p tag) f = true) l)
            = mapM (fieldText e s2 tag)
                   (filter (fun f => emitted e s2 tag f = true) l)) as M.
  { induction l as [|f l IH]; [reflexivity|].
    rewrite !filter_cons. rewrite (emitted_plain e s1 s2 tag p f Z).
    destruct (decide (emitted e s2 tag f = true)); [|exact IH].
    simpl. rewrite (fieldText_plain e s1 s2 tag p f Z), IH. reflexivity. }
  by rewrite M.
Qed.


Lemma extensionSuffix_state e s1 s2 tag :
  scopeIndex (extensionFields tag) = SCOPE_NIL ->
  extensionSuffix e s1 tag = extensionSuffix e s2 tag.
Proof.
  intros Z. rewrite <- (set_pattern_same tag) at 1.
  by apply extensionSuffix_plain.
Qed.

(** The third column, as the stage of [writeCtagsEntry] writes it. *)
Lemma address_sound e tag s n s' :
  cacheSound e s ->
  (if lineNumberEntry tag then writeLineNumberEntry e tag s
   else match pattern tag with
        | Some pat => Ok (fprintf pat s)
        | None => writePatternEntry e tag s
        end) = Ok (n, s') ->
  exists addr,
    addrText e tag = Ok addr /\ fp s' = fp s ++ addr /\ cacheSound e s'
    /\ corkState s' = corkState s.
Proof.
  intros C H. unfold addrText.
  destruct (lineNumberEntry tag).
  - unfold writeLineNumberEntry in H.
    destruct (lineDirectives (opts e)) eqn:LD.
    + inv_bind H as ([v s1] & Hv & H). simpl in Hv.
      inv_bind Hv as (v' & Hr & Hv). inversion Hv; subst v' s1; clear Hv.
      inversion H; subst. exists v. done.
    + inversion H; subst. eexists. split; [reflexivity|]. done.
  - destruct (pattern tag) as [pat|].
    + inversion H; subst. exists pat. done.
    + unfold writePatternEntry in H.
      inv_bind H as ([[text n'] s''] & Hp & H). inversion H; subst.
      pose proof (makePatternStringCommon_patternText e tag (file_puts e) s C) as P.
      rewrite Hp in P. simpl in P.
      pose proof (makePatternStringCommon_cacheSound _ _ _ _ _ _ _ C Hp) as C'.
      apply makePatternStringCommon_frame in Hp as (Q & F & _).
      exists text. split; [done|]. simpl. rewrite F. done.
Qed.

Lemma address_complete e tag s addr :
  cacheSound e s -> addrText e tag = Ok addr ->
  exists n s',
    (if lineNumberEntry tag then writeLineNumberEntry e tag s
     else match pattern tag with
          | Some pat => Ok (fprintf pat s)
          | None => writePatternEntry e tag s
          end) = Ok (n, s').
Proof.
  intros C H. unfold addrText in H.
  destruct (lineNumberEntry tag).
  - unfold writeLineNumberEntry.
    destruct (lineDirectives (opts e)); [|simpl; eauto].
    cbn [escapeName]. rewrite H. simpl. eauto.
  - destruct (pattern tag) as [pat|]; [eauto|].
    unfold writePatternEntry.
    pose proof (makePatternStringCommon_patternText e tag (file_puts e) s C) as P.
    rewrite H in P.
    destruct (makePatternStringCommon e tag (file_puts e) s)
      as [[[text n] s']| | |]; try discriminate.
    simpl. eauto.
Qed.

(** The line that [writeCtagsEntry] writes is [entryLine]. *)
Lemma writeCtagsEntry_entryLine e tag s n s' :
  cacheSound e s -> kind tag <> None ->
  writeCtagsEntry e tag s = Ok (n, s') ->
  exists line,
    entryLine e s tag = Ok line /\ fp s' = fp s ++ line /\ cacheSound e s'.
Proof.
  intros C K H. unfold writeCtagsEntry in H.
  inv_bind H as ([nm s1] & H1 & H).
  inv_bind H as ([file s2] & H2 & H).
  simpl in H1, H2.
  inv_bind H1 as (nm' & Hn & H1). inversion H1; subst nm' s1; clear H1.
  inversion H2; subst file s2; clear H2.
  fold (fileColumn e tag) in H.
  unfold fprintf at 1 in H. cbv zeta in H.
  set (s1 := with_fp _ s) in H.
  inv_bind H as ([n1 s2] & Haddr & H).
  inv_bind H as ([n2 s3] & Hext & H).
  unfold fprintf in H. inversion H; subst n s'; clear H.
  apply address_sound in Haddr as (addr & Ha & Fa & Ca & Qa); [|done].
  unfold corkState in Qa. simpl in Qa. inversion Qa as [[Q1 Q2 Q3 Q4]].
  unfold entryLine. rewrite Hn, Ha. simpl.
  destruct (includeExtensionFlags e).
  - rewrite addExtensionFields_suffix in Hext by done.
    inv_bind Hext as (suffix & Es & Hext). inversion Hext; subst n2 s3.
    rewrite (extensionSuffix_ext e s2 s) in Es by done.
    rewrite Es. simpl. eexists. split; [reflexivity|]. split; [|done].
    rewrite Fa. unfold s1. simpl.
    repeat (rewrite <- ?app_assoc; simpl). reflexivity.
  - inversion Hext; subst n2 s3. simpl. eexists. split; [reflexivity|].
    split; [|done]. rewrite Fa. unfold s1. simpl.
    repeat (rewrite <- ?app_assoc; simpl). reflexivity.
Qed.

Lemma writeCtagsEntry_complete e tag s line :
  cacheSound e s -> kind tag <> None ->
  entryLine e s tag = Ok line ->
  exists n s', writeCtagsEntry e tag s = Ok (n, s').
Proof.
  intros C K H. unfold entryLine in H.
  inv_bind H as (nm & Hn & H). inv_bind H as (addr & Ha & H).
  inv_bind H as (suffix & Hs & H).
  unfold writeCtagsEntry. cbn [escapeName]. rewrite Hn.
  unfold renderFieldInput. fold (fileColumn e tag).
  cbn [mbind Outcome.bind result_bind mret].
  destruct (fprintf _ s) as [len0 s1] eqn:Ef.
  assert (cacheSound e s1) as C1.
  { unfold fprintf in Ef. inversion Ef; subst. done. }
  assert (corkState s1 = corkState s) as Q0.
  { unfold fprintf in Ef. inversion Ef; subst. done. }
  destruct (address_complete e tag s1 addr C1 Ha) as (n1 & s2 & E).
  rewrite E. cbn [mbind Outcome.bind result_bind mret].
  apply address_sound in E as (_ & _ & _ & _ & Qa); [|exact C1].
  rewrite Q0 in Qa.
  unfold corkState in Qa. simpl in Qa. inversion Qa as [[Q1 Q2 Q3 Q4]].
  destruct (includeExtensionFlags e).
  - rewrite addExtensionFields_suffix by done.
    rewrite (extensionSuffix_ext e s2 s) by done. rewrite Hs. simpl. eauto.
  - simpl. eauto.
Qed.

Lemma entryLine_state e s1 s2 tag :
  scopeIndex (extensionFields tag) = SCOPE_NIL ->
  entryLine e s1 tag = entryLine e s2 tag.
Proof.
  intros Z. unfold entryLine.
  by rewrite (extensionSuffix_state e s1 s2 tag Z).
Qed.

Lemma entryLine_copy e s slot tag :
  scopeIndex (extensionFields tag) = SCOPE_NIL ->
  slot = set_pattern (pattern slot) tag ->
  addrText e slot = addrText e tag ->
  entryLine e s slot = entryLine e s tag.
Proof.
  intros Z E A. unfold entryLine. rewrite A. clear A.
  remember (pattern slot) as p eqn:Hp. clear Hp. subst slot.
  rewrite (extensionSuffix_plain e s s tag p Z).
  destruct tag; reflexivity.
Qed.

Lemma writeTagEntry_entryLine e tag s s' :
  xref (opts e) = false -> etags (opts e) = false ->
  cacheSound e s -> placeholder tag = false -> kind tag <> None ->
  writeTagEntry e tag s = Ok s' ->
  exists line,
    entryLine e s tag = Ok line /\ fp s' = fp s ++ line /\ cacheSound e s'.
Proof.
  intros X E C P K H. unfold writeTagEntry in H. rewrite P, X, E in H.
  inv_bind H as ([len s1] & Hw & H). inversion H; subst s'; clear H.
  apply writeCtagsEntry_entryLine in Hw as (line & L & F & C1); [|done|done].
  exists line. done.
Qed.

Lemma writeTagEntry_complete e tag s line :
  xref (opts e) = false -> etags (opts e) = false ->
  cacheSound e s -> placeholder tag = false -> kind tag <> None ->
  entryLine e s tag = Ok line ->
  exists s', writeTagEntry e tag s = Ok s'.
Proof.
  intros X E C P K H. unfold writeTagEntry. rewrite P, X, E.
  destruct (writeCtagsEntry_complete e tag s line C K H) as (n & s' & W).
  rewrite W. simpl. eauto.
Qed.

Lemma mapM_ext_Forall {A B : Type} (f g : A -> result B) (P : A -> Prop) l :
  (forall a, P a -> f a = g a) -> Forall P l -> mapM f l = mapM g l.
Proof.
  intros H F. induction F as [|a l Pa F IH]; [reflexivity|].
  simpl. rewrite (H a Pa), IH. reflexivity.
Qed.

(** Tags made outside a session: each one's line goes to the file. *)
Lemma makeTagEntries_direct e tags :
  forall s rs sd,
    xref (opts e) = false -> etags (opts e) = false ->
    cork s = 0 -> cacheSound e s -> Forall plainTag tags ->
    makeTagEntries e tags s = Ok (rs, sd) ->
    exists lines,
      mapM (entryLine e s) tags = Ok lines
      /\ fp sd = fp s ++ concat lines
      /\ rs = replicate (length tags) SCOPE_NIL
      /\ cork sd = 0.
Proof.
  induction tags as [|t ts IH]; intros s rs sd X E K C F H.
  - inversion H; subst. exists []. simpl. by rewrite app_nil_r.
  - apply Forall_cons in F as [(P & N & Z & Kd) Fs].
    simpl in H. inv_bind H as ([r s1] & H1 & H).
    inv_bind H as ([rs' s2] & H2 & H). inversion H; subst rs sd; clear H.
    unfold makeTagEntry in H1. fold (emptyName t) in H1.
    rewrite N, K in H1. simpl in H1.
    inv_bind H1 as (s1' & Hw & H1). inversion H1; subst r s1'; clear H1.
    pose proof (writeTagEntry_sameCork _ _ _ _ Hw) as [[Q _] _].
    unfold corkState in Q. inversion Q as [[Q1 Q2 Q3 Q4]].
    apply writeTagEntry_entryLine in Hw as (line & L & Fl & C1); try done.
    destruct (IH s1 rs' s2 X E ltac:(congruence) C1 Fs H2)
      as (lines & M & Fr & R & K2).
    exists (line :: lines). simpl. rewrite L. simpl.
    rewrite (mapM_ext_Forall (entryLine e s) (entryLine e s1) plainTag).
    2:{ intros a (_ & _ & Za & _). by apply entryLine_state. }
    2:{ done. }
    rewrite M. simpl. rewrite Fr, Fl, R, <- app_assoc. done.
Qed.

(** The copy made for the queue has the address of the tag. *)
Lemma recordTagEntryInQueue_copied e tag s addr :
  cacheSound e s -> addrText e tag = Ok addr ->
  exists slot s',
    recordTagEntryInQueue e tag s = Ok (slot, s')
    /\ slot = set_pattern (pattern slot) tag
    /\ addrText e slot = Ok addr
    /\ sameCork s s' /\ fp s' = fp s /\ cacheSound e s'.
Proof.
  intros C A. unfold recordTagEntryInQueue.
  destruct (pattern tag) as [pat|] eqn:P.
  { exists tag, s. rewrite set_pattern_same. done. }
  destruct (lineNumberEntry tag) eqn:L; simpl.
  { exists tag, s. rewrite set_pattern_same. done. }
  unfold addrText in A. rewrite L, P in A.
  pose proof (makePatternStringCommon_patternText e tag vstring_puts s C) as M.
  rewrite A in M. unfold makePatternString.
  destruct (makePatternStringCommon e tag vstring_puts s)
    as [[[text n] s']| | |] eqn:Hp; try discriminate.
  simpl in M. inversion M; subst text. simpl.
  exists (set_pattern (Some addr) tag), s'.
  pose proof (makePatternStringCommon_cacheSound _ _ _ _ _ _ _ C Hp) as C'.
  pose proof (makePatternStringCommon_sameCork _ _ _ _ _ _ _ Hp) as [Q F].
  split; [done|]. split; [by destruct tag|].
  split; [|done].
  unfold addrText. destruct tag; simpl in *. by rewrite L.
Qed.

Lemma makeTagEntry_corked e tag s line :
  in_session s -> corkQueue_count s < 2 ^ 31 - 1 ->
  cacheSound e s -> plainTag tag -> entryLine e s tag = Ok line ->
  exists slot s',
    makeTagEntry e tag s = Ok (corkQueue_count s, s')
    /\ slotLine e slot line
    /\ corkQueue_queue s' = corkQueue_queue s ++ [slot]
    /\ corkQueue_count s' = corkQueue_count s + 1
    /\ cork s' = cork s /\ fp s' = fp s /\ cacheSound e s'.
Proof.
  intros [Hc [W1 W2]] B C (P & N & Z & K) L.
  assert (exists addr, addrText e tag = Ok addr) as [addr A].
  { unfold entryLine in L. inv_bind L as (nm & _ & L).
    inv_bind L as (addr & A & _). eauto. }
  unfold makeTagEntry. fold (emptyName tag). rewrite N. simpl.
  assert ((cork s =? 0) = false) as -> by (apply Z.eqb_neq; lia).
  simpl. unfold queueTagEntry.
  set (len := if negb _ then _ else _).
  set (s1 := with_corkQueue _ _ _ s).
  destruct (recordTagEntryInQueue_copied e tag s1 addr C A)
    as (slot & s2 & E & Cp & As & [Q Wn] & F & C2).
  rewrite E. simpl.
  unfold corkState in Q. simpl in Q. inversion Q as [[Qc Qq Ql Qn]].
  exists slot. eexists. split.
  { rewrite to_int_small by lia. reflexivity. }
  simpl. rewrite Qq, Qn, W1, Nat2Z.id, store_slot_end.
  rewrite to_uint_small by lia.
  split; [|repeat split; done].
  split; [rewrite Cp; by destruct tag|].
  split; [rewrite Cp; by destruct tag|].
  intros s'. rewrite (entryLine_copy e s' slot tag Z Cp) by congruence.
  by rewrite (entryLine_state e s' s tag Z).
Qed.

(** Tags made in a session: the queue gets a slot for each line. *)
Lemma makeTagEntries_corked e tags :
  forall s lines,
    in_session s ->
    corkQueue_count s + Z.of_nat (length tags) < 2 ^ 31 ->
    cacheSound e s -> Forall plainTag tags ->
    mapM (entryLine e s) tags = Ok lines ->
    exists slots s',
      makeTagEntries e tags s
      = Ok (seqZ (corkQueue_count s) (Z.of_nat (length tags)), s')
      /\ Forall2 (slotLine e) slots lines
      /\ corkQueue_queue s' = corkQueue_queue s ++ slots
      /\ corkQueue_count s' = corkQueue_count s + Z.of_nat (length tags)
      /\ cork s' = cork s /\ fp s' = fp s /\ cacheSound e s'.
Proof.
  induction tags as [|t ts IH]; intros s lines S B C F M.
  - inversion M; subst. exists [], s. simpl.
    rewrite app_nil_r, Z.add_0_r. repeat split; done.
  - apply Forall_cons in F as [Ft Fs]. simpl length in B.
    simpl in M. inv_bind M as (line & L & M).
    inv_bind M as (lines' & M' & M). inversion M; subst lines; clear M.
    destruct (makeTagEntry_corked e t s line S ltac:(lia) C Ft L)
      as (slot & s1 & E & Sl & Hq & Hn & Hc & Hf & C1).
    assert (in_session s1) as S1.
    { destruct S as [Sc [W1 W2]]. split; [lia|]. split; [|lia].
      rewrite Hn, Hq, length_app, W1. simpl. lia. }
    rewrite (mapM_ext_Forall (entryLine e s) (entryLine e s1) plainTag) in M'.
    2:{ intros a (_ & _ & Za & _). by apply entryLine_state. }
    2:{ done. }
    destruct (IH s1 lines' S1 ltac:(lia) C1 Fs M')
      as (slots & s2 & E2 & Sls & Hq2 & Hn2 & Hc2 & Hf2 & C2).
    exists (slot :: slots), s2. split.
    { rewrite (seqZ_cons (corkQueue_count s)) by (simpl length; lia).
      replace (Z.pred (Z.of_nat (length (t :: ts))))
        with (Z.of_nat (length ts)) by (simpl length; lia).
      replace (Z.succ (corkQueue_count s)) with (corkQueue_count s1) by lia.
      simpl makeTagEntries. rewrite E. simpl. rewrite E2. reflexivity. }
    split; [by constructor|].
    rewrite Hq2, Hq, <- app_assoc, Hn2, Hn, Hc2, Hc, Hf2, Hf.
    simpl length. repeat split; try done. lia.
Qed.

(** Writing the slots writes their lines. *)
Lemma writeAll_lines e slots lines :
  xref (opts e) = false -> etags (opts e) = false ->
  Forall2 (slotLine e) slots lines ->
  forall s, cacheSound e s ->
    exists s', writeAll e slots s = Ok s'
               /\ fp s' = fp s ++ concat lines
               /\ corkState s' = corkState s.
Proof.
  intros X E F. induction F as [|slot line slots lines (P & K & L) F IH];
    intros s C.
  - exists s. simpl. by rewrite app_nil_r.
  - destruct (writeTagEntry_complete e slot s line X E C P K (L s)) as (s1 & W).
    simpl. rewrite W. simpl.
    pose proof (writeTagEntry_sameCork _ _ _ _ W) as [[Q _] _].
    apply writeTagEntry_entryLine in W as (line' & L' & Fl & C1); try done.
    rewrite L in L'. inversion L'; subst line'.
    destruct (IH s1 C1) as (s2 & W2 & F2 & Q2).
    exists s2. split; [done|]. rewrite F2, Fl, <- app_assoc.
    split; [done|]. congruence.
Qed.

(** X21: in the ctags format the cork changes nothing of what is
    written for tags that have a name and a kind, are no placeholders and
    name no scope in the queue ([scopeIndex] 0).  When making the tags
    one after the other outside a session succeeds, making them in a
    session opened by [corkTagFile] succeeds as well, returns the indices
    1, 2, ... and writes nothing, and [uncorkTagFile] then succeeds and
    leaves the tag file with the text that the direct calls give. *)
Theorem cork_transparent e s tags rs sd :
  xref (opts e) = false -> etags (opts e) = false ->
  cork s = 0 -> cacheSound e s ->
  Z.of_nat (length tags) < 2 ^ 31 - 1 ->
  Forall plainTag tags ->
  makeTagEntries e tags s = Ok (rs, sd) ->
  exists s1 s2,
    makeTagEntries e tags (corkTagFile s)
    = Ok (seqZ 1 (Z.of_nat (length tags)), s1)
    /\ fp s1 = fp s
    /\ uncorkTagFile e s1 = Ok s2
    /\ fp s2 = fp sd
    /\ cork s2 = cork sd /\ corkQueue_count s2 = 0.
Proof.
  intros X E K C B F H.
  destruct (makeTagEntries_direct e tags s rs sd X E K C F H)
    as (lines & M & Fd & _ & Kd).
  destruct (corkTagFile_fresh s K) as (S & Hq & Hn & Hf & Hc).
  assert (cacheSound e (corkTagFile s)) as C0.
  { unfold corkTagFile. simpl. destruct (_ =? 1); exact C. }
  rewrite (mapM_ext_Forall (entryLine e s) (entryLine e (corkTagFile s))
             plainTag) in M.
  2:{ intros a (_ & _ & Za & _). by apply entryLine_state. }
  2:{ done. }
  destruct (makeTagEntries_corked e tags (corkTagFile s) lines S
              ltac:(lia) C0 F M)
    as (slots & s1 & E1 & Sl & Hq1 & Hn1 & Hc1 & Hf1 & C1).
  exists s1. rewrite Hn in E1.
  assert (cacheSound e (with_cork 0 s1)) as C1' by exact C1.
  destruct (writeAll_lines e slots lines X E Sl (with_cork 0 s1) C1')
    as (s2 & W & F2 & Q2).
  exists (with_corkQueue [] 0 0 s2).
  split; [exact E1|]. split; [congruence|].
  assert (uncorkTagFile e s1
          = (s' ← writeAll e slots (with_cork 0 s1);
             Ok (with_corkQueue [] 0 0 s'))) as ->.
  { rewrite uncorkTagFile_spec.
    2:{ apply Forall2_length in Sl. apply mapM_length in M.
        rewrite Hn1, Hq1, Hn, Hq, length_app. simpl. lia. }
    rewrite Hc1, Hc, Hq1, Hq. reflexivity. }
  rewrite W. split; [reflexivity|].
  assert (cork s2 = 0) as Q2c.
  { unfold corkState in Q2. simpl in Q2. congruence. }
  simpl. rewrite F2, Fd. simpl. rewrite Hf1, Hf, Q2c, Kd. done.
Qed.

Lemma cork_transparent_witness :
  exists sd s1 s2,
    makeTagEntries exampleEnv [tagMain; tagFoo] TagFile0 = Ok ([0; 0], sd)
    /\ makeTagEntries exampleEnv [tagMain; tagFoo] (corkTagFile TagFile0)
       = Ok ([1; 2], s1)
    /\ fp s1 = fp TagFile0
    /\ uncorkTagFile exampleEnv s1 = Ok s2
    /\ fp s2 = fp sd
    /\ cork s2 = cork sd /\ corkQueue_count s2 = 0.
Proof.
  destruct (makeTagEntries exampleEnv [tagMain; tagFoo] TagFile0)
    as [[rs sd]| | |] eqn:D; try (vm_compute in D; discriminate D).
  assert (rs = [0; 0]) as -> by (vm_compute in D; congruence).
  destruct (cork_transparent exampleEnv TagFile0 [tagMain; tagFoo] [0; 0] sd)
    as (s1 & s2 & H); try reflexivity.
  - intros V. discriminate V.
  - repeat constructor; discriminate.
  - exact D.
  - exists sd, s1, s2. split; [reflexivity|]. exact H.
Defined.

End EntryExtras.
